(** * A k-sparse autoencoder: forward pass, decoders, activation ranking

    Shallow embedding of [sparse_autoencoder.py] (class [FastAutoencoder],
    [load_sae_model], [unit_norm_decoder_]) and, in module [Viz], of the
    pure part of the page script [scripts.js] that displays its output.

    Conventions of the embedding.
    - A float tensor is a list of exact rationals ([Qc], canonical
      fractions with Leibniz equality); rounding is not modelled.
    - A 2-D tensor is the list of its rows.  [encoder.weight] has
      [n_dirs] rows of length [d_model]; [decoder.weight] has [d_model]
      rows of length [n_dirs] (the layout of [nn.Linear(in, out).weight]).
    - A Python exception is [None]; a function that mutates the module
      returns the new module next to its result.
    - [stats_last_nonzero] is an int64 tensor: a list of [Z] whose
      additions wrap around. *)

From Stdlib Require Import List ZArith QArith Qcanon Qround Lia Bool Arith.
From Stdlib Require Import Permutation Sorted Reals Lra.
From Stdlib Require String.
Import ListNotations.

(* ================================================================== *)
(** * Tensor primitives (the part of torch / numpy the module calls)   *)
(* ================================================================== *)

Module Tensor.

Local Open Scope Qc_scope.

Definition vec := list Qc.
Definition mat := list vec.

(** Decimal literals such as 0.9 are written [qc 9 10]. *)
Definition qc (n : Z) (d : positive) : Qc := Q2Qc (n # d).

Definition Qcleb (x y : Qc) : bool :=
  match x ?= y with Gt => false | _ => true end.

(** [F.relu] *)
Definition relu (x : Qc) : Qc := if Qcleb x 0 then 0 else x.

(** [torch.zeros(n)] *)
Definition zeros (n : nat) : vec := repeat 0 n.

Fixpoint zip_with {A B C} (f : A -> B -> C) (u : list A) (v : list B) : list C :=
  match u, v with
  | a :: u', b :: v' => f a b :: zip_with f u' v'
  | _, _ => []
  end.

(** Elementwise operation between two 1-D tensors of equal length. *)
Definition vadd (u v : vec) : vec := zip_with Qcplus u v.
Definition vsub (u v : vec) : vec := zip_with Qcminus u v.
Definition vmul (u v : vec) : vec := zip_with Qcmult u v.
Definition vscale (a : Qc) (u : vec) : vec := map (Qcmult a) u.

(** Elementwise operation with torch broadcasting along the last
    dimension: equal sizes, or one of the two sizes is 1; any other
    pair of sizes raises. *)
Definition broadcast_op (f : Qc -> Qc -> Qc) (u v : vec) : option vec :=
  if (length u =? length v)%nat then Some (zip_with f u v)
  else match u, v with
       | [a], _ => Some (map (f a) v)
       | _, [b] => Some (map (fun x => f x b) u)
       | _, _ => None
       end.

Definition dot (u v : vec) : Qc := fold_right Qcplus 0 (zip_with Qcmult u v).

(** [nn.Linear(in_features, out, bias=False)] applied to a 1-D input:
    raises unless the input has [in_features] entries. *)
Definition linear (in_features : nat) (W : mat) (x : vec) : option vec :=
  if (length x =? in_features)%nat then Some (map (fun row => dot row x) W)
  else None.

Fixpoint mapM {A B} (f : A -> option B) (l : list A) : option (list B) :=
  match l with
  | [] => Some []
  | a :: l' =>
      match f a with
      | None => None
      | Some b => match mapM f l' with
                  | None => None
                  | Some bs => Some (b :: bs)
                  end
      end
  end.

(** In-place write [l[i] = x]. *)
Fixpoint set_nth {A} (i : nat) (x : A) (l : list A) : list A :=
  match l, i with
  | [], _ => []
  | _ :: l', O => x :: l'
  | a :: l', S i' => a :: set_nth i' x l'
  end.

(** [dst.scatter_(-1, idx, src)] on 1-D tensors: [dst[idx[j]] = src[j]]
    in increasing [j]; raises when an index is out of range or [src]
    is shorter than [idx]. *)
Fixpoint scatter_ {A} (dst : list A) (idx : list nat) (src : list A)
  : option (list A) :=
  match idx, src with
  | [], _ => Some dst
  | i :: idx', s :: src' =>
      if (i <? length dst)%nat then scatter_ (set_nth i s dst) idx' src'
      else None
  | _ :: _, [] => None
  end.

(** [dst.scatter_(0, idx, value)] with a scalar [value]. *)
Fixpoint scatter_fill {A} (dst : list A) (idx : list nat) (value : A)
  : option (list A) :=
  match idx with
  | [] => Some dst
  | i :: idx' =>
      if (i <? length dst)%nat then scatter_fill (set_nth i value dst) idx' value
      else None
  end.

(** Entries paired with their positions. *)
Definition enumerate (v : vec) : list (Qc * nat) := combine v (seq 0 (length v)).

(** Stable insertion into a list sorted by decreasing value: the new
    pair goes in front of the first pair whose value is not larger. *)
Fixpoint insert_desc (p : Qc * nat) (l : list (Qc * nat)) : list (Qc * nat) :=
  match l with
  | [] => [p]
  | q :: l' => if Qcleb (fst q) (fst p) then p :: l else q :: insert_desc p l'
  end.

Definition sort_desc (l : list (Qc * nat)) : list (Qc * nat) :=
  fold_right insert_desc [] l.

(** [torch.topk(v, k, dim=-1)]: the [k] largest entries in decreasing
    order with their positions; raises when [k] is negative or exceeds
    the size.  Equal entries are taken lowest position first (torch
    leaves the order of ties open). *)
Definition topk (k : Z) (v : vec) : option (vec * list nat) :=
  if ((k <? 0) || (Z.of_nat (length v) <? k))%Z then None
  else let s := firstn (Z.to_nat k) (sort_desc (enumerate v)) in
       Some (map fst s, map snd s).

(** Stable insertion into a list sorted by increasing value. *)
Fixpoint insert_asc (p : Qc * nat) (l : list (Qc * nat)) : list (Qc * nat) :=
  match l with
  | [] => [p]
  | q :: l' => if Qcleb (fst p) (fst q) then p :: l else q :: insert_asc p l'
  end.

(** [np.argsort(v)]: positions in order of increasing value (ties
    lowest position first; numpy's default sort leaves them open). *)
Definition argsort (v : vec) : list nat :=
  map snd (fold_right insert_asc [] (enumerate v)).

(** [t.unique()] on an index tensor: the distinct entries, increasing. *)
Definition unique (l : list nat) : list nat :=
  filter (fun j => existsb (Nat.eqb j) l) (seq 0 (S (list_max l))).

(** int64 addition. *)
Definition wrap64 (z : Z) : Z := ((z + 2 ^ 63) mod 2 ^ 64 - 2 ^ 63)%Z.
Definition add64 (a b : Z) : Z := wrap64 (a + b).

End Tensor.

(* ================================================================== *)
(** * The module [FastAutoencoder]                                     *)
(* ================================================================== *)

Module SAE.

Import Tensor.
Local Open Scope Qc_scope.

(** Attributes, parameters and the buffer set by [__init__].  Every
    store that [__init__] or [load_state_dict] produces has the tensor
    shapes of [wf] below. *)
Record FastAutoencoder := mkSAE {
  n_dirs : nat;
  d_model : nat;
  k : Z;
  auxk : option Z;
  multik : option Z;
  dead_steps_threshold : Z;
  encoder : mat;                 (* encoder.weight : n_dirs x d_model *)
  decoder : mat;                 (* decoder.weight : d_model x n_dirs *)
  pre_bias : vec;                (* d_model *)
  latent_bias : vec;             (* n_dirs *)
  stats_last_nonzero : list Z    (* n_dirs, int64 *)
}.

Definition with_stats (m : FastAutoencoder) (s : list Z) : FastAutoencoder :=
  mkSAE (n_dirs m) (d_model m) (k m) (auxk m) (multik m)
        (dead_steps_threshold m) (encoder m) (decoder m) (pre_bias m)
        (latent_bias m) s.

Definition rows_of_length (n : nat) (W : mat) : bool :=
  forallb (fun r => (length r =? n)%nat) W.

Definition wf (m : FastAutoencoder) : bool :=
  (length (encoder m) =? n_dirs m)%nat && rows_of_length (d_model m) (encoder m)
  && (length (decoder m) =? d_model m)%nat && rows_of_length (n_dirs m) (decoder m)
  && (length (pre_bias m) =? d_model m)%nat
  && (length (latent_bias m) =? n_dirs m)%nat
  && (length (stats_last_nonzero m) =? n_dirs m)%nat.

(** Python truth value of an [int | None] attribute. *)
Definition truthy (o : option Z) : bool :=
  match o with Some z => negb (z =? 0)%Z | None => false end.

(** [self.encoder(x - self.pre_bias) + self.latent_bias] on one row. *)
Definition encode_row (m : FastAutoencoder) (x : vec) : option vec :=
  match broadcast_op Qcminus x (pre_bias m) with
  | None => None
  | Some xc =>
      match linear (d_model m) (encoder m) xc with
      | None => None
      | Some y => Some (vadd y (latent_bias m))
      end
  end.

(** [self.decoder(latents) + self.pre_bias] on one row. *)
Definition decode_row (m : FastAutoencoder) (latents : vec) : option vec :=
  match linear (n_dirs m) (decoder m) latents with
  | None => None
  | Some y => Some (vadd y (pre_bias m))
  end.

(** [topk] followed by [F.relu] on the values. *)
Definition topk_relu (kk : Z) (v : vec) : option (vec * list nat) :=
  match topk kk v with
  | None => None
  | Some (vals, idx) => Some (map relu vals, idx)
  end.

(** [zeros_like(v).scatter_(-1, idx, vals)] for [v] of size [n]. *)
Definition scatter_zeros (n : nat) (sel : vec * list nat) : option vec :=
  scatter_ (zeros n) (snd sel) (fst sel).

(** The recurring block
    [vals, idx = torch.topk(v, k=kk, dim=-1); vals = F.relu(vals);
     out = torch.zeros_like(v); out.scatter_(-1, idx, vals)]
    on one row: the selection and the scattered row. *)
Definition sparse_row (kk : Z) (v : vec) : option ((vec * list nat) * vec) :=
  match topk_relu kk v with
  | None => None
  | Some sel =>
      match scatter_zeros (length v) sel with
      | None => None
      | Some out => Some (sel, out)
      end
  end.

(** The dictionary returned next to the reconstruction. *)
Record forward_info := mkInfo {
  topk_indices : list (list nat);
  topk_values : list vec;
  multik_recons : option (list vec);
  auxk_indices : option (list (list nat));
  auxk_values : option (list vec);
  latents_pre_act : list vec;
  latents_post_act : list vec
}.

(** The counter update inside [forward]:
    [self.stats_last_nonzero += 1], then the entries at the distinct
    selected positions are overwritten with 0 (skipped when nothing was
    selected). *)
Definition update_stats (stats : list Z) (selected : list (list nat))
  : option (list Z) :=
  let stats1 := map (fun c => add64 c 1) stats in
  let unique_indices := unique (concat selected) in
  if (0 <? length unique_indices)%nat
  then scatter_fill stats1 unique_indices 0%Z
  else Some stats1.

(** [(self.stats_last_nonzero > self.dead_steps_threshold).float()] *)
Definition dead_mask (m : FastAutoencoder) (stats : list Z) : vec :=
  map (fun c => if (dead_steps_threshold m <? c)%Z then 1 else 0) stats.

(** The multi-k branch on the batch: absent unless [self.multik] is
    truthy; the budget is [min(4 * self.k, shape[-1])]. *)
Definition multik_branch (m : FastAutoencoder) (pre : list vec)
  : option (option (list vec)) :=
  if truthy (multik m)
  then match mapM (fun row => sparse_row (Z.min (4 * k m) (Z.of_nat (length row))) row) pre with
       | None => None
       | Some r => Some (Some (map snd r))
       end
  else Some None.

(** The auxiliary branch on the batch: absent when [self.auxk] is
    [None]; otherwise [topk] runs on the pre-activation multiplied by
    the mask of the counters as they are after the update. *)
Definition auxk_branch (m : FastAutoencoder) (stats' : list Z) (pre : list vec)
  : option (option (list (vec * list nat))) :=
  match auxk m with
  | None => Some None
  | Some a =>
      let mask := dead_mask m stats' in
      match mapM (fun row =>
                    let dead_latents_pre_act := vmul row mask in
                    topk_relu (Z.min a (Z.of_nat (length dead_latents_pre_act)))
                              dead_latents_pre_act) pre with
      | None => None
      | Some asel => Some (Some asel)
      end
  end.

Definition decode_opt (m : FastAutoencoder) (l : option (list vec))
  : option (option (list vec)) :=
  match l with
  | None => Some None
  | Some ml => match mapM (decode_row m) ml with
               | None => None
               | Some r => Some (Some r)
               end
  end.

(** [forward(x)] on a 2-D batch [x]: the module with its updated
    counters, the reconstruction and the dictionary.  (An exception
    raised after the counter update is [None] here as well.) *)
Definition forward (m : FastAutoencoder) (x : list vec)
  : option (FastAutoencoder * (list vec * forward_info)) :=
  match mapM (encode_row m) x with
  | None => None
  | Some pre =>
    match mapM (sparse_row (k m)) pre with
    | None => None
    | Some prim =>
      let sel := map fst prim in
      let latents := map snd prim in
      match multik_branch m pre with
      | None => None
      | Some multik_latents =>
        match update_stats (stats_last_nonzero m) (map snd sel) with
        | None => None
        | Some stats' =>
          match mapM (decode_row m) latents with
          | None => None
          | Some recons =>
            match decode_opt m multik_latents with
            | None => None
            | Some mrecons =>
              match auxk_branch m stats' pre with
              | None => None
              | Some aux =>
                  Some (with_stats m stats',
                        (recons,
                         mkInfo (map snd sel) (map fst sel) mrecons
                                (option_map (map snd) aux)
                                (option_map (map fst) aux)
                                pre latents))
              end
            end
          end
        end
      end
    end
  end.

(** [decode_sparse(indices, values)] on 1-D arguments. *)
Definition decode_sparse (m : FastAutoencoder) (indices : list nat) (values : vec)
  : option vec :=
  match scatter_ (zeros (n_dirs m)) indices values with
  | None => None
  | Some latents => decode_row m latents
  end.

(** The second argument of [decode_clamp]: a number or a 1-D tensor. *)
Inductive clamp_arg :=
| ClampScalar (c : Qc)
| ClampTensor (t : vec).

Definition mul_clamp (latents : vec) (clamp : clamp_arg) : option vec :=
  match clamp with
  | ClampScalar c => Some (map (fun x => x * c) latents)
  | ClampTensor t => broadcast_op Qcmult latents t
  end.

(** [decode_clamp(latents, clamp)] on a 1-D [latents]. *)
Definition decode_clamp (m : FastAutoencoder) (latents : vec) (clamp : clamp_arg)
  : option vec :=
  match sparse_row (Z.min 64 (Z.of_nat (length latents))) latents with
  | None => None
  | Some (_, l1) =>
      match mul_clamp l1 clamp with
      | None => None
      | Some l2 => decode_row m l2
      end
  end.

(** [decode_at_k(latents, k)] on a 1-D [latents]. *)
Definition decode_at_k (m : FastAutoencoder) (latents : vec) (kk : Z) : option vec :=
  match sparse_row (Z.min kk (Z.of_nat (length latents))) latents with
  | None => None
  | Some (_, l1) => decode_row m l1
  end.

(** [range(start, stop, step)] for a positive [step]. *)
Fixpoint range_from (fuel start stop step : nat) : list nat :=
  match fuel with
  | O => []
  | S f => if (start <? stop)%nat
           then start :: range_from f (start + step) stop step
           else []
  end.

Definition range_step (stop step : nat) : list nat := range_from stop 0 stop step.

(** The body of the loop of [compute_activations] on one row of a chunk. *)
Definition activation_row (m : FastAutoencoder) (x : vec) : option vec :=
  option_map (map relu) (encode_row m x).

(** [compute_activations(x, batch_size)]: [range] raises on a zero
    step, and [np.vstack] raises on an empty list of chunks. *)
Definition compute_activations (m : FastAutoencoder) (x : list vec) (batch_size : Z)
  : option (list vec) :=
  if (batch_size <=? 0)%Z then None
  else
    let b := Z.to_nat batch_size in
    let chunks := map (fun i => firstn b (skipn i x)) (range_step (length x) b) in
    match mapM (mapM (activation_row m)) chunks with
    | None => None
    | Some [] => None
    | Some acts => Some (concat acts)
    end.

(** [a[-kk:]] for a Python int [kk] (so [a[-0:]] is all of [a]). *)
Definition slice_last {A} (kk : Z) (a : list A) : list A :=
  if (0 <? kk)%Z then skipn (length a - Z.to_nat kk) a
  else skipn (Z.to_nat (- kk)) a.

(** [all_activations[:, j]]: raises when [j] is not a column. *)
Definition column (j : nat) (a : list vec) : option vec :=
  mapM (fun row => nth_error row j) a.

(** One round of the loop of [get_topk_activations]. *)
Definition neuron_ranking (m : FastAutoencoder) (all_activations : list vec) (j : nat)
  : option (list nat * vec) :=
  match column j all_activations with
  | None => None
  | Some neuron_activations =>
      let kk := Z.min (k m) (Z.of_nat (length neuron_activations)) in
      let indices := rev (slice_last kk (argsort neuron_activations)) in
      Some (indices, map (fun i => nth i neuron_activations 0) indices)
  end.

(** [get_topk_activations(x, batch_size)]: the pair (indices, values),
    one row per latent dimension. *)
Definition get_topk_activations (m : FastAutoencoder) (x : list vec) (batch_size : Z)
  : option (list (list nat) * list vec) :=
  match compute_activations m x batch_size with
  | None => None
  | Some all_activations =>
      match mapM (neuron_ranking m all_activations) (seq 0 (n_dirs m)) with
      | None => None
      | Some per_neuron => Some (map fst per_neuron, map snd per_neuron)
      end
  end.

End SAE.

(* ================================================================== *)
(** * [load_sae_model]                                                 *)
(* ================================================================== *)

Module Loader.

Import Tensor SAE.
Import String.
Local Open Scope Qc_scope.
Local Open Scope string_scope.

(** A stored tensor: its shape and its flat storage. *)
Inductive storage :=
| Floats (d : list Qc)
| Longs (d : list Z).

Record tensor := mkTensor { shape : list nat; data : storage }.

Definition numel (sh : list nat) : nat := fold_right Nat.mul 1%nat sh.

Definition storage_length (d : storage) : nat :=
  match d with Floats l => List.length l | Longs l => List.length l end.

(** Every tensor [torch.load] returns has as many entries as its shape says. *)
Definition tensor_ok (t : tensor) : bool :=
  (storage_length (data t) =? numel (shape t))%nat.

(** [copy_] into a float parameter and into an int64 buffer. *)
Definition Qtrunc (q : Qc) : Z :=
  if Qcleb 0 q then Qfloor q else Qceiling q.

Definition to_floats (d : storage) : list Qc :=
  match d with Floats l => l | Longs l => map (fun z => Q2Qc (inject_Z z)) l end.

Definition to_longs (d : storage) : list Z :=
  match d with Floats l => map (fun q => wrap64 (Qtrunc q)) l | Longs l => l end.

Definition reshape2 (rows cols : nat) (d : list Qc) : mat :=
  map (fun r => firstn cols (skipn (r * cols) d)) (seq 0 rows).

Definition state_dict := list (String.string * tensor).

Fixpoint lookup (name : String.string) (sd : state_dict) : option tensor :=
  match sd with
  | [] => None
  | (n, t) :: sd' => if String.eqb n name then Some t else lookup name sd'
  end.

Inductive exn :=
| FileNotFoundError (path : String.string)
| UnpicklingError (path : String.string)
| RuntimeError (what : String.string).

(** What [torch.load] finds at a path. *)
Inductive file :=
| NoFile
| Unreadable
| Pickled (sd : state_dict).

Inductive result (A : Type) :=
| Ok (a : A)
| Raise (e : exn).
Arguments Ok {A} a.
Arguments Raise {A} e.

Definition bind {A B} (r : result A) (f : A -> result B) : result B :=
  match r with Ok a => f a | Raise e => Raise e end.

Notation "x <- c ;; f" := (bind c (fun x => f))
  (at level 61, c at next level, right associativity).

Definition torch_load (fs : String.string -> file) (path : String.string)
  : result state_dict :=
  match fs path with
  | NoFile => Raise (FileNotFoundError path)
  | Unreadable => Raise (UnpicklingError path)
  | Pickled sd => Ok sd
  end.

(** Defaults of [__init__] for the two arguments the loader leaves
    out ([multik] and [dead_steps_threshold]); no statement below
    depends on their values. *)
Definition default_multik : option Z := Some 128%Z.
Definition default_dead_steps_threshold : Z := 266%Z.

(** [FastAutoencoder(n_dirs, d_model, k, auxk)]: a tensor with a
    negative size cannot be created.  [w0 rows cols] stands for the
    random initial weight of an [nn.Linear]. *)
Definition init (w0 : nat -> nat -> mat) (n_dirs_ d_model_ k_ : Z) (auxk_ : option Z)
  : result FastAutoencoder :=
  if ((n_dirs_ <? 0) || (d_model_ <? 0))%Z
  then Raise (RuntimeError "negative dimension")
  else
    let n := Z.to_nat n_dirs_ in
    let d := Z.to_nat d_model_ in
    Ok (mkSAE n d k_ auxk_ default_multik default_dead_steps_threshold
              (w0 n d) (w0 d n) (zeros d) (zeros n) (repeat 0%Z n)).

Definition expected_keys : list String.string :=
  ["pre_bias"; "latent_bias"; "stats_last_nonzero"; "encoder.weight"; "decoder.weight"].

Definition shape_eqb (a b : list nat) : bool :=
  if list_eq_dec Nat.eq_dec a b then true else false.

(** One entry of the checkpoint against the shape of the parameter. *)
Definition fetch (sd : state_dict) (name : String.string) (sh : list nat)
  : result storage :=
  match lookup name sd with
  | None => Raise (RuntimeError ("Missing key " ++ name))
  | Some t =>
      if shape_eqb (shape t) sh then Ok (data t)
      else Raise (RuntimeError ("size mismatch for " ++ name))
  end.

(** [model.load_state_dict(state_dict)] (strict): every parameter and
    buffer must be present with its shape and no other key may occur. *)
Definition load_state_dict (m : FastAutoencoder) (sd : state_dict)
  : result FastAutoencoder :=
  let n := n_dirs m in
  let d := d_model m in
  pb <- fetch sd "pre_bias" [d] ;;
  lb <- fetch sd "latent_bias" [n] ;;
  st <- fetch sd "stats_last_nonzero" [n] ;;
  ew <- fetch sd "encoder.weight" [n; d] ;;
  dw <- fetch sd "decoder.weight" [d; n] ;;
  if forallb (fun e => existsb (String.eqb (fst e)) expected_keys) sd
  then Ok (mkSAE n d (k m) (auxk m) (multik m) (dead_steps_threshold m)
                 (reshape2 n d (to_floats ew)) (reshape2 d n (to_floats dw))
                 (to_floats pb) (to_floats lb) (to_longs st))
  else Raise (RuntimeError "Unexpected key(s) in state_dict").

(** What [print] wrote. *)
Inductive line :=
| Loaded (path : String.string)     (* "Successfully loaded SAE model from ..." *)
| LoadError (e : exn).              (* "Error loading SAE model: ..." *)

(** The body of the [try] block. *)
Definition try_load (fs : String.string -> file) (w0 : nat -> nat -> mat)
  (model_path : String.string) (n_neurons n_input_features k_ : Z) (auxk_ : option Z)
  : result FastAutoencoder :=
  model <- init w0 n_neurons n_input_features k_ auxk_ ;;
  sd <- torch_load fs model_path ;;
  load_state_dict model sd.

(** [load_sae_model]: [except Exception as e] prints and returns None. *)
Definition load_sae_model (fs : String.string -> file) (w0 : nat -> nat -> mat)
  (model_path : String.string) (n_neurons n_input_features k_ : Z) (auxk_ : option Z)
  : list line * option FastAutoencoder :=
  match try_load fs w0 model_path n_neurons n_input_features k_ auxk_ with
  | Ok model => ([Loaded model_path], Some model)
  | Raise e => ([LoadError e], None)
  end.

End Loader.

(* ================================================================== *)
(** * [unit_norm_decoder_]                                             *)
(* ================================================================== *)

(** The Euclidean norm needs square roots, so this part is stated over
    the real numbers.  A float that is not finite (nan, inf) is [None]. *)
Module Normalize.

Local Open Scope R_scope.

Definition rvec := list R.
Definition rmat := list rvec.

(** Column [j] of a matrix given by its rows. *)
Definition col (j : nat) (W : rmat) : rvec := map (fun row => nth j row 0) W.

Definition sum_sq (v : rvec) : R := fold_right (fun x acc => x * x + acc) 0 v.

(** [weight.norm(dim=0, keepdim=True)]: one norm per column. *)
Definition col_norms (cols : nat) (W : rmat) : rvec :=
  map (fun j => sqrt (sum_sq (col j W))) (seq 0 cols).

(** Float division: dividing by zero gives inf or nan. *)
Definition fdiv (x n : R) : option R :=
  if Req_dec_T n 0 then None else Some (x / n).

(** [weight.div_(norms)]: every row is divided entrywise by the row of norms. *)
Definition div_rows (W : rmat) (norms : rvec) : list (list (option R)) :=
  map (fun row => Tensor.zip_with fdiv row norms) W.

(** [unit_norm_decoder_(autoencoder)] as a map on [decoder.weight]
    ([d_model] rows, [n_dirs] columns); nothing else is written. *)
Definition unit_norm_decoder_ (n_dirs : nat) (W : rmat) : list (list (option R)) :=
  div_rows W (col_norms n_dirs W).

(** Norm of column [j] of the result: defined when all its entries are finite. *)
Definition col_norm_after (j : nat) (W' : list (list (option R))) : option R :=
  match Tensor.mapM (fun row => nth j row None) W' with
  | None => None
  | Some c => Some (sqrt (sum_sq c))
  end.

End Normalize.

(* ================================================================== *)
(** * Concrete modules and inputs used in the examples                 *)
(* ================================================================== *)

Module Examples.

Import Tensor SAE.
Import String.
Local Open Scope Qc_scope.
Local Open Scope list_scope.

(** Rationals behind a tensor, for reading off computed results. *)
Definition to_Q (v : vec) : list Q := map this v.

(** [d_model = 4], [n_dirs = 3], [k = 2]; the encoder weight is zero,
    so every input is encoded to [latent_bias = [0.1, 0.9, -0.3]]. *)
Definition scenario_model : FastAutoencoder :=
  mkSAE 3 4 2 (Some 1%Z) None 266
        (repeat (zeros 4) 3) (repeat (zeros 3) 4)
        (zeros 4) [qc 1 10; qc 9 10; qc (-3) 10] [0; 0; 0]%Z.

Definition scenario_input : list vec := [[qc 1 1; qc 2 1; qc 3 1; qc 4 1]].

(** The scenario module with [k = 1] and a first latent dimension
    that has not fired for 300 passes. *)
Definition stale_model : FastAutoencoder :=
  mkSAE 3 4 1 (Some 1%Z) None 266
        (repeat (zeros 4) 3) (repeat (zeros 3) 4)
        (zeros 4) [qc 1 10; qc 9 10; qc (-3) 10] [300; 0; 0]%Z.

(** Two latent dimensions decoded by the identity matrix, no bias. *)
Definition identity_model : FastAutoencoder :=
  mkSAE 2 2 1 None None 266
        [[qc 1 1; qc 0 1]; [qc 0 1; qc 1 1]]
        [[qc 1 1; qc 0 1]; [qc 0 1; qc 1 1]]
        (zeros 2) (zeros 2) [0; 0]%Z.

(** A module with the sparsity hyperparameter set to 0 whose encoder
    copies the first three coordinates of its input. *)
Definition zero_k_model : FastAutoencoder :=
  mkSAE 3 4 0 (Some 1%Z) None 266
        [[qc 1 1; qc 0 1; qc 0 1; qc 0 1];
         [qc 0 1; qc 1 1; qc 0 1; qc 0 1];
         [qc 0 1; qc 0 1; qc 1 1; qc 0 1]]
        (repeat (zeros 3) 4)
        (zeros 4) (zeros 3) [0; 0; 0]%Z.

(** The primary code of a forward result, as rationals:
    (pre-activation, selected indices, selected values, scattered row). *)
Definition primary_view (r : option (FastAutoencoder * (list vec * forward_info)))
  : option (list (list Q) * list (list nat) * list (list Q) * list (list Q)) :=
  match r with
  | None => None
  | Some (_, (_, info)) =>
      Some (map to_Q (latents_pre_act info), topk_indices info,
            map to_Q (topk_values info), map to_Q (latents_post_act info))
  end.

(** A checkpoint written for [n_dirs = 3], [d_model = 8]. *)
Definition zero_tensor (sh : list nat) : Loader.tensor :=
  Loader.mkTensor sh (Loader.Floats (zeros (Loader.numel sh))).

Definition checkpoint_d8 : Loader.state_dict :=
  [("pre_bias", zero_tensor [8]%nat); ("latent_bias", zero_tensor [3]%nat);
   ("stats_last_nonzero", Loader.mkTensor [3]%nat (Loader.Longs [0; 0; 0]%Z));
   ("encoder.weight", zero_tensor [3; 8]%nat);
   ("decoder.weight", zero_tensor [8; 3]%nat)]%string.

(** A file system with that checkpoint at ["model.pth"] and nothing else. *)
Definition disk (path : String.string) : Loader.file :=
  if String.eqb path "model.pth" then Loader.Pickled checkpoint_d8 else Loader.NoFile.

Definition zero_init (rows cols : nat) : mat := repeat (zeros cols) rows.

Definition two_items : list vec :=
  [[qc 1 1; qc 2 1; qc 3 1; qc 4 1]; [qc 2 1; qc 1 1; qc 5 1; qc 0 1]].

End Examples.

(* ================================================================== *)
(** * Predicates used in the statements                                *)
(* ================================================================== *)

Module Specs.

Import Tensor SAE.
Local Open Scope Qc_scope.

(** [ge_val p q]: the value of [p] is at least the value of [q]. *)
Definition ge_val (p q : Qc * nat) : Prop := fst q <= fst p.
Definition le_val (p q : Qc * nat) : Prop := fst p <= fst q.

(** What a successful [topk kk v] returns. *)
Record topk_post (kk : Z) (v : vec) (vals : vec) (idx : list nat) : Prop := {
  tk_len_idx : length idx = Z.to_nat kk;
  tk_len_vals : length vals = Z.to_nat kk;
  tk_nodup : NoDup idx;
  tk_range : Forall (fun i => (i < length v)%nat) idx;
  tk_vals : vals = map (fun i => nth i v 0) idx;
  tk_largest : forall p q, (p < length v)%nat -> ~ In p idx -> In q idx ->
                           nth p v 0 <= nth q v 0;
  tk_sorted : StronglySorted (fun a b => b <= a) vals;
  tk_full : Z.to_nat kk = length v -> Permutation idx (seq 0 (length v))
}.

(** What a successful [sparse_row kk v] returns: the [kk] largest
    entries of [v] clamped at zero, and the row that carries them. *)
Record sparse_post (kk : Z) (v vals : vec) (idx : list nat) (out : vec) : Prop := {
  sp_len_idx : length idx = Z.to_nat kk;
  sp_len_vals : length vals = Z.to_nat kk;
  sp_nodup : NoDup idx;
  sp_range : Forall (fun i => (i < length v)%nat) idx;
  sp_vals : vals = map (fun i => relu (nth i v 0)) idx;
  sp_nonneg : Forall (fun y => 0 <= y) vals;
  sp_largest : forall p q, (p < length v)%nat -> ~ In p idx -> In q idx ->
                           nth p v 0 <= nth q v 0;
  sp_out_len : length out = length v;
  sp_out_in : forall i, In i idx -> nth i out 0 = relu (nth i v 0);
  sp_out_notin : forall i, ~ In i idx -> nth i out 0 = 0;
  sp_full : Z.to_nat kk = length v -> out = map relu v
}.

(** The situation in which [forward] does not raise: tensors of the
    declared shapes, a batch of [d_model]-vectors, a budget [k] within
    the latent width and an auxiliary budget that is not negative. *)
Definition forward_ready (m : FastAutoencoder) (x : list vec) : Prop :=
  wf m = true /\
  Forall (fun row => length row = d_model m) x /\
  (0 <= k m <= Z.of_nat (n_dirs m))%Z /\
  match auxk m with Some a => (0 <= a)%Z | None => True end.

(** A latent dimension is dead when its counter exceeds the threshold. *)
Definition dead (m : FastAutoencoder) (j : nat) : Prop :=
  (dead_steps_threshold m < nth j (stats_last_nonzero m) 0)%Z.

(** The auxiliary selection of one row: the top entries of the masked
    pre-activation, clamped at zero. *)
Definition aux_row (m : FastAutoencoder) (stats' : list Z) (a : Z) (row : vec)
  : option (vec * list nat) :=
  let masked := vmul row (dead_mask m stats') in
  topk_relu (Z.min a (Z.of_nat (length masked))) masked.

(** Direct dense decoding: multiply by [decoder.weight], add [pre_bias]. *)
Definition dense_decode (m : FastAutoencoder) (v : vec) : vec :=
  vadd (map (fun row => dot row v) (decoder m)) (pre_bias m).

(** [a * v1 + b * v2] *)
Definition lincomb (a : Qc) (v1 : vec) (b : Qc) (v2 : vec) : vec :=
  vadd (vscale a v1) (vscale b v2).

(** [decode_clamp] as the specification words it: the second argument
    is a width; the top [min(clamp_width, n_dirs)] entries are kept,
    clamped at zero, scattered into a zero vector of length [n_dirs]
    and decoded. *)
Definition decode_clamp_spec (m : FastAutoencoder) (v : vec) (clamp_width : Z)
  : option vec :=
  match topk_relu (Z.min clamp_width (Z.of_nat (n_dirs m))) v with
  | None => None
  | Some sel =>
      match scatter_zeros (n_dirs m) sel with
      | None => None
      | Some l => Some (dense_decode m l)
      end
  end.

(** Evaluate [forward] on a concrete module and batch. *)
Ltac run_forward m x :=
  let r := eval vm_compute in (forward m x) in
  match r with
  | Some (?m', (?rc, ?info)) =>
      exists m', rc, info; split; [vm_compute; reflexivity|]
  end.

End Specs.

Module LoaderSpecs.

Import Tensor SAE.
Import String.
Local Open Scope string_scope.
Local Open Scope list_scope.

(** The shape [load_state_dict] demands for each entry of the checkpoint. *)
Definition declared_shape (n d : nat) (name : String.string) : list nat :=
  if String.eqb name "pre_bias" then [d]
  else if String.eqb name "latent_bias" then [n]
  else if String.eqb name "stats_last_nonzero" then [n]
  else if String.eqb name "encoder.weight" then [n; d]
  else [d; n].

(** The module holds exactly what the checkpoint stores. *)
Definition populated_from (sd : Loader.state_dict) (model : FastAutoencoder) : Prop :=
  exists pb lb st ew dw,
    Loader.lookup "pre_bias" sd = Some pb /\
    Loader.lookup "latent_bias" sd = Some lb /\
    Loader.lookup "stats_last_nonzero" sd = Some st /\
    Loader.lookup "encoder.weight" sd = Some ew /\
    Loader.lookup "decoder.weight" sd = Some dw /\
    pre_bias model = Loader.to_floats (Loader.data pb) /\
    latent_bias model = Loader.to_floats (Loader.data lb) /\
    stats_last_nonzero model = Loader.to_longs (Loader.data st) /\
    encoder model = Loader.reshape2 (n_dirs model) (d_model model)
                                    (Loader.to_floats (Loader.data ew)) /\
    decoder model = Loader.reshape2 (d_model model) (n_dirs model)
                                    (Loader.to_floats (Loader.data dw)).

End LoaderSpecs.

(* ================================================================== *)
(** * Successive passes and auxiliary notions for further properties   *)
(* ================================================================== *)

Module Passes.

Import Tensor SAE.
Local Open Scope Qc_scope.

(** Latent dimension [j] occurs in the primary code of some item. *)
Definition selected (j : nat) (info : forward_info) : bool :=
  existsb (Nat.eqb j) (concat (topk_indices info)).

(** Successive calls [forward(x1); forward(x2); ...] on one module:
    the module after the last call and the dictionaries in call order. *)
Fixpoint forward_seq (m : FastAutoencoder) (xs : list (list vec))
  : option (FastAutoencoder * list forward_info) :=
  match xs with
  | [] => Some (m, [])
  | x :: rest =>
      match forward m x with
      | None => None
      | Some (m', (_, info)) =>
          match forward_seq m' rest with
          | None => None
          | Some (m'', infos) => Some (m'', info :: infos)
          end
      end
  end.

Fixpoint leading_false (l : list bool) : nat :=
  match l with
  | false :: r => S (leading_false r)
  | _ => O
  end.

(** Number of most recent passes in a row without a selection. *)
Definition trailing_idle (flags : list bool) : nat := leading_false (rev flags).

(** One pass seen from one counter: reset when selected, else one
    int64 increment. *)
Definition tick (c : Z) (sel : bool) : Z := if sel then 0%Z else add64 c 1.

(** [sum_j values[j] * row[indices[j]]]: the entry of
    [sum_j values[j] * decoder.weight[:, indices[j]]] on one row. *)
Definition weighted_columns (row : vec) (indices : list nat) (values : vec) : Qc :=
  fold_right Qcplus 0 (zip_with (fun i v => nth i row 0 * v) indices values).

End Passes.

(* ================================================================== *)
(** * The page script: colours, filters, legend, plotted points        *)
(* ================================================================== *)

(** Shallow embedding of the pure part of [scripts.js].  A JavaScript
    string is the list of its UTF-16 code units; a number is an exact
    rational; [undefined] / a missing property is [None]; a thrown
    TypeError is [None] of the enclosing computation.  The DOM and
    Plotly calls are not modelled: each function is modelled up to the
    value it hands to them. *)

Module Viz.

Import Tensor.
Import Ascii String.
Local Open Scope list_scope.
Local Open Scope string_scope.

Definition jsstring := list N.

(** A string literal of the script. *)
Fixpoint lit (s : String.string) : jsstring :=
  match s with
  | EmptyString => []
  | String c s' => N_of_ascii c :: lit s'
  end.

Definition jseq (a b : jsstring) : bool :=
  if list_eq_dec N.eq_dec a b then true else false.

Fixpoint starts_with (key s : jsstring) : bool :=
  match key, s with
  | [], _ => true
  | k :: key', c :: s' => N.eqb c k && starts_with key' s'
  | _ :: _, [] => false
  end.

(** [s.includes(key)] on strings. *)
Fixpoint includes (s key : jsstring) : bool :=
  starts_with key s || match s with [] => false | _ :: s' => includes s' key end.

(** [a.includes(x)] on an array of strings. *)
Definition array_includes (a : list jsstring) (x : jsstring) : bool :=
  existsb (jseq x) a.

(** [genreColors], in the order of [Object.entries]. *)
Definition genreColors : list (jsstring * jsstring) :=
  [(lit "hip hop", lit "#FF5733");
   (lit "rap", lit "#C70039");
   (lit "r&b", lit "#900C3F");
   (lit "pop", lit "#FFC300");
   (lit "country", lit "#5DADE2");
   (lit "rock", lit "#2E4053");
   (lit "electronic", lit "#58D68D");
   (lit "dance", lit "#F1C40F");
   (lit "trap", lit "#E74C3C");
   (lit "punk", lit "#9B59B6");
   (lit "metal", lit "#7D3C98");
   (lit "folk", lit "#1ABC9C");
   (lit "indie", lit "#3498DB");
   (lit "soul", lit "#E67E22");
   (lit "jazz", lit "#D35400");
   (lit "blues", lit "#2980B9");
   (lit "reggae", lit "#27AE60");
   (lit "alternative rock", lit "#8E44AD");
   (lit "post-punk", lit "#34495E");
   (lit "progressive rock", lit "#16A085");
   (lit "grunge", lit "#2C3E50");
   (lit "hard rock", lit "#E74C3C")].

Definition defaultColor : jsstring := lit "#95A5A6".
Definition neuronBaseColor : jsstring := lit "#3498DB".
Definition nonActivatedColor : jsstring := lit "#E0E0E0".

(** [genreColors[key]] *)
Definition color_of (key : jsstring) : option jsstring :=
  option_map snd (find (fun kv => jseq key (fst kv)) genreColors).

(** A song of [data.json]; [genres] and [primary_artist] may be absent. *)
Record song := mkSong {
  id : nat;
  title : jsstring;
  artist : jsstring;
  primary_artist : option jsstring;
  genres : option (list jsstring)
}.

(** An entry of [allNeuronSongs[neuronIdx]]. *)
Record top_song := mkTop {
  index : nat;
  top_title : jsstring;
  top_artist : jsstring;
  top_activation : Qc
}.

Record sae_data := mkSaeData {
  neurons : list (list top_song);
  activations : list vec
}.

Record visualization_data := mkData {
  songs : list song;
  embeddings : nat -> option (Qc * Qc);
  sae : option sae_data
}.

Record marker := mkMarker { color : jsstring; size : Qc; opacity : Qc }.

Record point := mkPoint {
  px : Qc;
  py : Qc;
  text : jsstring;
  pmarker : marker;
  songIndex : nat;
  activation : option Qc
}.

(** What [createVisualization] leaves in the plot element: the
    message for an empty selection, the message "Error preparing plot
    data", or the points of the trace it hands to Plotly. *)
Inductive plot :=
| NoSongsMessage
| ErrorMessage
| Scatter (plotData : list point).

Section Script.

(** [String.prototype.trim] and [String.prototype.toLowerCase]. *)
Variable trim : jsstring -> jsstring.
Variable toLowerCase : jsstring -> jsstring.

(** The inner loop of [getColor]: the first entry of [genreColors]
    whose key the lowered genre includes. *)
Definition first_entry (genre : jsstring) : option (jsstring * jsstring) :=
  let genreLower := toLowerCase (trim genre) in
  find (fun kv => includes genreLower (fst kv)) genreColors.

Fixpoint getColor_loop (genres : list jsstring) : jsstring :=
  match genres with
  | [] => defaultColor
  | genre :: rest =>
      match first_entry genre with
      | Some (_, value) => value
      | None => getColor_loop rest
      end
  end.

(** [getColor(genres)] *)
Definition getColor (genres : option (list jsstring)) : jsstring :=
  match genres with
  | None => defaultColor
  | Some [] => defaultColor
  | Some gs => getColor_loop gs
  end.

(** [displaySongDetails]: the colours of the genre tags of a song. *)
Definition genre_tag_colors (s : song) : list jsstring :=
  match genres s with
  | Some gs => map (fun genre => getColor (Some [genre])) gs
  | None => []
  end.

(** [selected.includes('all') || selected.length === 0] *)
Definition include_all (selected : list jsstring) : bool :=
  array_includes selected (lit "all") || (List.length selected =? 0)%nat.

(** The callback of [allSongs.filter] in [filterData]. *)
Definition song_matches (selectedGenres selectedArtists : list jsstring) (s : song)
  : bool :=
  let includeAllGenres := include_all selectedGenres in
  let includeAllArtists := include_all selectedArtists in
  let genreMatch :=
    if includeAllGenres then true
    else match genres s with
         | Some gs => existsb (array_includes selectedGenres) gs
         | None => false
         end in
  let artistMatch :=
    if includeAllArtists then true
    else match primary_artist s with
         | Some a => array_includes selectedArtists a
         | None => false
         end in
  genreMatch && artistMatch.

(** [filterData]: the new value of [filteredSongs], computed from
    [originalSongs] and the two selections. *)
Definition filterData (originalSongs : list song)
  (selectedGenres selectedArtists : list jsstring) : list song :=
  if include_all selectedGenres && include_all selectedArtists
  then originalSongs
  else filter (song_matches selectedGenres selectedArtists) originalSongs.

(** [createGenreLegend], genre branch: what one genre string does to
    the set [usedGenres] (kept in insertion order). *)
Definition legend_step (usedGenres : list jsstring) (genre : jsstring) : list jsstring :=
  let genreLower := toLowerCase (trim genre) in
  match find (fun key => includes genreLower key && negb (array_includes usedGenres key))
             (map fst genreColors) with
  | Some key => (usedGenres ++ [key])%list
  | None => usedGenres
  end.

Definition legend_song (usedGenres : list jsstring) (s : song) : list jsstring :=
  match genres s with
  | Some gs => fold_left legend_step gs usedGenres
  | None => usedGenres
  end.

(** The set [usedGenres] when the loop over [filteredSongs] ends. *)
Definition usedGenres (filteredSongs : list song) : list jsstring :=
  fold_left legend_song filteredSongs [].

(** The marker of a point in [createVisualization]. *)
Definition neuron_marker (activationThreshold : Qc) (act : option Qc) : marker :=
  match act with
  | Some a =>
      if Qcleb activationThreshold a
      then let intensity := if Qcleb 1 a then 1%Qc else a in
           mkMarker neuronBaseColor (qc 8 1 + qc 8 1 * intensity)%Qc
                    (qc 4 10 + qc 6 10 * intensity)%Qc
      else mkMarker nonActivatedColor (qc 6 1) (qc 3 10)
  | None => mkMarker nonActivatedColor (qc 6 1) (qc 3 10)
  end.

Definition genre_marker (s : song) : marker :=
  mkMarker (getColor (genres s)) (qc 8 1) (qc 8 10).

Definition point_text (s : song) : jsstring :=
  (title s ++ lit " - " ++
   match primary_artist s with Some a => a | None => lit "undefined" end)%list.

(** The callback of [filteredSongs.map]: [Some None] is [null], [None]
    a TypeError. *)
Definition plot_item (data : visualization_data) (currentNeuron : Z)
  (activationThreshold : Qc) (idx : nat) (s : song) : option (option point) :=
  match embeddings data (id s) with
  | None => Some None
  | Some (x, y) =>
      match (if (0 <=? currentNeuron)%Z then sae data else None) with
      | Some sd =>
          match nth_error (activations sd) (id s) with
          | None => None
          | Some row =>
              let act := nth_error row (Z.to_nat currentNeuron) in
              Some (Some (mkPoint x y (point_text s)
                                  (neuron_marker activationThreshold act) idx act))
          end
      | None =>
          Some (Some (mkPoint x y (point_text s) (genre_marker s) idx (Some 0%Qc)))
      end
  end.

Fixpoint map_indexed {A B} (f : nat -> A -> B) (start : nat) (l : list A) : list B :=
  match l with
  | [] => []
  | a :: l' => f start a :: map_indexed f (S start) l'
  end.

Fixpoint drop_null {A} (l : list (option A)) : list A :=
  match l with
  | [] => []
  | Some a :: l' => a :: drop_null l'
  | None :: l' => drop_null l'
  end.

(** [createVisualization] up to the trace handed to Plotly. *)
Definition createVisualization (data : visualization_data) (filteredSongs : list song)
  (currentNeuron : Z) (activationThreshold : Qc) : plot :=
  match filteredSongs with
  | [] => NoSongsMessage
  | _ =>
      match mapM (fun o => o)
                 (map_indexed (plot_item data currentNeuron activationThreshold)
                              0 filteredSongs) with
      | None => ErrorMessage
      | Some items =>
          match drop_null items with
          | [] => ErrorMessage
          | plotData => Scatter plotData
          end
      end
  end.

End Script.

(** The entry [prepareAllNeuronSongs] makes of a pair of activation
    and song index; [None] when [songs[songIndex]] is undefined and
    reading its title throws. *)
Definition top_song_of (data : visualization_data) (p : Qc * nat) : option top_song :=
  match nth_error (songs data) (snd p) with
  | None => None
  | Some s => Some (mkTop (snd p) (title s) (artist s) (fst p))
  end.

(** One round of the loop of [prepareAllNeuronSongs]: the pairs of
    song index and activation sorted by decreasing activation ([sort]
    is stable), the first ten, each with the title and artist of its
    song.  [None]: an entry [activations[neuronIdx]] is undefined, so
    that the comparator yields NaN and the order is left to the
    engine, or building an entry throws. *)
Definition neuron_top_songs (data : visualization_data) (sd : sae_data)
  (neuronIdx : nat) : option (list top_song) :=
  match mapM (fun acts => nth_error acts neuronIdx) (activations sd) with
  | None => None
  | Some column =>
      let songActivations := sort_desc (enumerate column) in
      mapM (top_song_of data) (firstn 10 songActivations)
  end.

(** [prepareAllNeuronSongs]: the new value of [allNeuronSongs], which
    stays [null] ([Some None]) when the data has no [sae] part. *)
Definition prepareAllNeuronSongs (data : visualization_data)
  : option (option (list (list top_song))) :=
  match sae data with
  | None => Some None
  | Some sd =>
      option_map Some
        (mapM (neuron_top_songs data sd) (seq 0 (List.length (neurons sd))))
  end.


End Viz.

(* ================================================================== *)
(** * Auxiliary notions for the page script                            *)
(* ================================================================== *)

Module VizSpecs.

Import Tensor Viz.
Local Open Scope list_scope.

(** The entries of a palette that can be reached: those whose key has
    no key listed before it as a substring. *)
Fixpoint reachable (seen : list jsstring) (palette : list (jsstring * jsstring))
  : list (jsstring * jsstring) :=
  match palette with
  | [] => []
  | (key, value) :: rest =>
      if existsb (includes key) seen then reachable (key :: seen) rest
      else (key, value) :: reachable (key :: seen) rest
  end.

(** The genre strings the legend loop visits, in order. *)
Definition visited (filteredSongs : list song) : list jsstring :=
  concat (map (fun s => match genres s with Some gs => gs | None => [] end)
              filteredSongs).

(** The keys of the palette the lowered genre includes. *)
Definition matching (trim toLowerCase : jsstring -> jsstring) (genre : jsstring)
  : list jsstring :=
  filter (includes (toLowerCase (trim genre))) (map fst genreColors).

Definition has_embedding (data : visualization_data) (s : song) : bool :=
  match embeddings data (id s) with Some _ => true | None => false end.

(** Order of the entries of a list of top songs. *)
Definition by_activation (a b : top_song) : Prop :=
  (top_activation b <= top_activation a)%Qc.

(** A song that is plotted while a neuron is selected, and whose row
    of activations is missing. *)
Definition row_missing (data : visualization_data) (currentNeuron : Z) (s : song)
  : bool :=
  has_embedding data s &&
  match (if (0 <=? currentNeuron)%Z then sae data else None) with
  | Some sd => match nth_error (activations sd) (id s) with
               | Some _ => false
               | None => true
               end
  | None => false
  end.

End VizSpecs.

(* ================================================================== *)
(** * Facts about the tensor primitives                                *)
(* ================================================================== *)

Module TensorFacts.

Import Tensor Specs.
Local Open Scope Qc_scope.

Lemma Qcleb_le x y : Qcleb x y = true <-> x <= y.
Proof.
  unfold Qcleb. rewrite Qcle_alt.
  destruct (x ?= y); split; intro H; try reflexivity; try discriminate.
  exfalso. now apply H.
Qed.

Lemma Qcleb_gt x y : Qcleb x y = false -> y < x.
Proof.
  intro H. apply Qcnot_le_lt. intro Hle.
  apply Qcleb_le in Hle. congruence.
Qed.

Lemma relu_nonneg x : 0 <= relu x.
Proof.
  unfold relu. destruct (Qcleb x 0) eqn:E.
  - apply Qcle_refl.
  - apply Qclt_le_weak. now apply Qcleb_gt.
Qed.

Lemma relu_id x : 0 <= x -> relu x = x.
Proof.
  intro H. unfold relu. destruct (Qcleb x 0) eqn:E; [|reflexivity].
  apply Qcleb_le in E. now apply Qcle_antisym.
Qed.

Lemma relu_pos x : 0 < relu x -> relu x = x.
Proof.
  unfold relu. destruct (Qcleb x 0); [|reflexivity].
  intro H. exfalso. revert H. apply Qcle_not_lt, Qcle_refl.
Qed.

(** ** [mapM] *)

Lemma mapM_length {A B} (f : A -> option B) l r :
  mapM f l = Some r -> length r = length l.
Proof.
  revert r. induction l as [|a l IH]; simpl; intros r H.
  - now inversion H.
  - destruct (f a); [|discriminate]. destruct (mapM f l); [|discriminate].
    inversion H. simpl. f_equal. now apply IH.
Qed.

Lemma mapM_nth {A B} (f : A -> option B) l r i a :
  mapM f l = Some r -> nth_error l i = Some a ->
  exists b, f a = Some b /\ nth_error r i = Some b.
Proof.
  revert r i. induction l as [|a0 l IH]; simpl; intros r i H Hi.
  - destruct i; discriminate.
  - destruct (f a0) eqn:Ef; [|discriminate].
    destruct (mapM f l) eqn:El; [|discriminate]. inversion H; subst.
    destruct i; simpl in *.
    + inversion Hi; subst. eauto.
    + eapply IH; eauto.
Qed.

Lemma mapM_total {A B} (f : A -> option B) (g : A -> B) l :
  (forall a, In a l -> f a = Some (g a)) -> mapM f l = Some (map g l).
Proof.
  induction l as [|a l IH]; simpl; intro H; [reflexivity|].
  rewrite (H a) by now left. rewrite IH; [reflexivity|].
  intros; apply H; now right.
Qed.

Lemma mapM_ext {A B} (f g : A -> option B) l :
  (forall a, In a l -> f a = g a) -> mapM f l = mapM g l.
Proof.
  induction l as [|a l IH]; simpl; intro H; [reflexivity|].
  rewrite (H a) by now left. rewrite IH; [reflexivity|].
  intros; apply H; now right.
Qed.

Lemma mapM_app {A B} (f : A -> option B) l1 l2 :
  mapM f (l1 ++ l2) =
  match mapM f l1, mapM f l2 with
  | Some r1, Some r2 => Some (r1 ++ r2)
  | _, _ => None
  end.
Proof.
  induction l1 as [|a l1 IH]; simpl.
  - now destruct (mapM f l2).
  - destruct (f a); [|reflexivity]. rewrite IH.
    destruct (mapM f l1); [|reflexivity]. now destruct (mapM f l2).
Qed.


Lemma mapM_defined {A B} (f : A -> option B) (P : B -> Prop) l :
  (forall a, In a l -> exists b, f a = Some b /\ P b) ->
  exists r, mapM f l = Some r /\ Forall P r.
Proof.
  induction l as [|a l IH]; simpl; intro H.
  - exists []. split; constructor.
  - destruct (H a (or_introl eq_refl)) as (b & -> & Hb).
    destruct IH as (r & -> & Hr); [intros; apply H; now right|].
    exists (b :: r). split; [reflexivity|now constructor].
Qed.

Lemma mapM_nth_d {A B} (f : A -> option B) l r i (da : A) (db : B) :
  mapM f l = Some r -> (i < length l)%nat -> f (nth i l da) = Some (nth i r db).
Proof.
  intros H Hi.
  destruct (nth_error l i) as [a|] eqn:Ea; [|apply nth_error_None in Ea; lia].
  destruct (mapM_nth f l r i a H Ea) as (b & Hb & Er).
  rewrite (nth_error_nth _ _ da Ea), (nth_error_nth _ _ db Er). exact Hb.
Qed.

(** ** [zip_with], [set_nth], [scatter_] *)

Lemma zip_with_length {A B C} (f : A -> B -> C) u v :
  length (zip_with f u v) = Nat.min (length u) (length v).
Proof.
  revert v. induction u as [|a u IH]; destruct v; simpl; auto.
Qed.

Lemma zip_with_nth {A B C} (f : A -> B -> C) u v i da db dc :
  (i < length u)%nat -> (i < length v)%nat ->
  nth i (zip_with f u v) dc = f (nth i u da) (nth i v db).
Proof.
  revert v i. induction u as [|a u IH]; intros [|b v] [|i]; simpl; intros;
    try lia; auto. apply IH; lia.
Qed.

Lemma nth_map_lt {A B} (f : A -> B) l i (da : A) (db : B) :
  (i < length l)%nat -> nth i (map f l) db = f (nth i l da).
Proof.
  intro H. rewrite (nth_indep (map f l) db (f da)) by now rewrite length_map.
  apply map_nth.
Qed.

Lemma set_nth_length {A} i (x : A) l : length (set_nth i x l) = length l.
Proof.
  revert i. induction l as [|a l IH]; intros [|i]; simpl; auto.
Qed.

Lemma set_nth_same {A} i (x d : A) l :
  (i < length l)%nat -> nth i (set_nth i x l) d = x.
Proof.
  revert i. induction l as [|a l IH]; intros [|i]; simpl; intros; try lia; auto.
  apply IH; lia.
Qed.

Lemma set_nth_other {A} i j (x d : A) l :
  i <> j -> nth j (set_nth i x l) d = nth j l d.
Proof.
  revert i j. induction l as [|a l IH]; intros [|i] [|j]; simpl; intros;
    try congruence; auto.
Qed.

(** Scattering the values [f i] to the positions [i] of [idx]: the
    result holds [f i] at every listed position and is unchanged
    elsewhere, whether or not positions repeat. *)
Lemma scatter_map {A} (f : nat -> A) idx dst :
  Forall (fun i => (i < length dst)%nat) idx ->
  exists r, scatter_ dst idx (map f idx) = Some r /\
            length r = length dst /\
            (forall i d, In i idx -> nth i r d = f i) /\
            (forall i d, ~ In i idx -> nth i r d = nth i dst d).
Proof.
  revert dst. induction idx as [|j idx IH]; intros dst H.
  - exists dst. simpl. repeat split; auto. intros i d [].
  - inversion H as [|? ? Hj Hrest]; subst. simpl.
    destruct (Nat.ltb_spec j (length dst)); [|lia].
    destruct (IH (set_nth j (f j) dst)) as (r & Hr & Hlen & Hin & Hout).
    { rewrite set_nth_length. exact Hrest. }
    exists r. rewrite set_nth_length in Hlen. repeat split; auto.
    + intros i d [->|Hi].
      * destruct (in_dec Nat.eq_dec i idx) as [Hi|Hi]; [now apply Hin|].
        rewrite Hout by assumption. now apply set_nth_same.
      * now apply Hin.
    + intros i d Hni. rewrite Hout by (intro; apply Hni; now right).
      apply set_nth_other. intro; subst; apply Hni; now left.
Qed.

Lemma scatter_fill_spec {A} (x : A) idx dst :
  Forall (fun i => (i < length dst)%nat) idx ->
  exists r, scatter_fill dst idx x = Some r /\
            length r = length dst /\
            (forall i d, In i idx -> (i < length dst)%nat -> nth i r d = x) /\
            (forall i d, ~ In i idx -> nth i r d = nth i dst d).
Proof.
  revert dst. induction idx as [|j idx IH]; intros dst H.
  - exists dst. simpl. repeat split; auto. intros i d [].
  - inversion H as [|? ? Hj Hrest]; subst. simpl.
    destruct (Nat.ltb_spec j (length dst)); [|lia].
    destruct (IH (set_nth j x dst)) as (r & Hr & Hlen & Hin & Hout).
    { rewrite set_nth_length. exact Hrest. }
    exists r. rewrite set_nth_length in Hlen, Hin. repeat split; auto.
    + intros i d [->|Hi] Hlt.
      * destruct (in_dec Nat.eq_dec i idx) as [Hi|Hi]; [now apply Hin|].
        rewrite Hout by assumption. now apply set_nth_same.
      * now apply Hin.
    + intros i d Hni. rewrite Hout by (intro; apply Hni; now right).
      apply set_nth_other. intro; subst; apply Hni; now left.
Qed.

Lemma zeros_length n : length (zeros n) = n.
Proof. apply repeat_length. Qed.

Lemma zeros_nth n i : nth i (zeros n) 0 = 0.
Proof.
  unfold zeros. revert i. induction n; intros [|i]; simpl; auto.
Qed.

(** ** [unique] *)

Lemma list_max_ge l j : In j l -> (j <= list_max l)%nat.
Proof.
  induction l as [|a l IH]; simpl; [tauto|].
  intros [->|H]; [lia|]. specialize (IH H). lia.
Qed.

Lemma unique_In l j : In j (unique l) <-> In j l.
Proof.
  unfold unique. rewrite filter_In, in_seq, existsb_exists. split.
  - intros (_ & x & Hx & E). apply Nat.eqb_eq in E. now subst.
  - intro H. split.
    + pose proof (list_max_ge l j H). lia.
    + exists j. split; [assumption|apply Nat.eqb_refl].
Qed.

(** ** [enumerate] *)

Lemma combine_seq_In (v : vec) s x i :
  In (x, i) (combine v (seq s (length v))) <->
  (s <= i)%nat /\ nth_error v (i - s) = Some x.
Proof.
  revert s. induction v as [|a v IH]; intro s; simpl.
  - split; [tauto|]. intros [_ H]. destruct (i - s)%nat; discriminate.
  - rewrite IH. split.
    + intros [E|[Hle Hn]].
      * inversion E; subst. split; [lia|]. now rewrite Nat.sub_diag.
      * split; [lia|]. replace (i - s)%nat with (S (i - S s)) by lia. exact Hn.
    + intros [Hle Hn]. destruct (Nat.eq_dec s i) as [->|Hne].
      * rewrite Nat.sub_diag in Hn. simpl in Hn. left. congruence.
      * right. split; [lia|].
        replace (i - s)%nat with (S (i - S s)) in Hn by lia. exact Hn.
Qed.

Lemma enumerate_In v x i :
  In (x, i) (enumerate v) <-> nth_error v i = Some x.
Proof.
  unfold enumerate. rewrite combine_seq_In, Nat.sub_0_r.
  split; [tauto|]. intro; split; [lia|assumption].
Qed.

Lemma enumerate_length v : length (enumerate v) = length v.
Proof.
  unfold enumerate. rewrite length_combine, length_seq. apply Nat.min_id.
Qed.

Lemma combine_snd {A B} (u : list A) (w : list B) :
  length u = length w -> map snd (combine u w) = w.
Proof.
  revert w. induction u as [|a u IH]; intros [|b w]; simpl; intro H;
    try discriminate; auto. f_equal. apply IH. lia.
Qed.

Lemma enumerate_snd v : map snd (enumerate v) = seq 0 (length v).
Proof.
  unfold enumerate. apply combine_snd. now rewrite length_seq.
Qed.

Lemma nth_error_nth_Qc (v : vec) i x : nth_error v i = Some x -> nth i v 0 = x.
Proof. intro H. now apply nth_error_nth. Qed.

(** ** Sorting *)

Lemma insert_desc_perm p l : Permutation (insert_desc p l) (p :: l).
Proof.
  induction l as [|q l IH]; simpl; [reflexivity|].
  destruct (Qcleb (fst q) (fst p)); [reflexivity|].
  rewrite IH. apply perm_swap.
Qed.

Lemma sort_desc_perm l : Permutation (sort_desc l) l.
Proof.
  induction l as [|p l IH]; simpl; [reflexivity|].
  rewrite insert_desc_perm. now constructor.
Qed.

Lemma insert_desc_sorted p l :
  StronglySorted ge_val l -> StronglySorted ge_val (insert_desc p l).
Proof.
  induction 1 as [|q l Hs IH Hall]; simpl.
  - repeat constructor.
  - destruct (Qcleb (fst q) (fst p)) eqn:E.
    + apply Qcleb_le in E. constructor; [now constructor|].
      constructor; [exact E|].
      eapply Forall_impl; [|exact Hall]. intros r Hr. unfold ge_val in *.
      eapply Qcle_trans; eassumption.
    + apply Qcleb_gt in E. constructor; [exact IH|].
      eapply Permutation_Forall; [symmetry; apply insert_desc_perm|].
      constructor; [|exact Hall]. unfold ge_val. now apply Qclt_le_weak.
Qed.

Lemma sort_desc_sorted l : StronglySorted ge_val (sort_desc l).
Proof.
  induction l as [|p l IH]; simpl; [constructor|now apply insert_desc_sorted].
Qed.

Lemma insert_asc_perm p l : Permutation (insert_asc p l) (p :: l).
Proof.
  induction l as [|q l IH]; simpl; [reflexivity|].
  destruct (Qcleb (fst p) (fst q)); [reflexivity|].
  rewrite IH. apply perm_swap.
Qed.

Lemma sort_asc_perm l : Permutation (fold_right insert_asc [] l) l.
Proof.
  induction l as [|p l IH]; simpl; [reflexivity|].
  rewrite insert_asc_perm. now constructor.
Qed.

Lemma insert_asc_sorted p l :
  StronglySorted le_val l -> StronglySorted le_val (insert_asc p l).
Proof.
  induction 1 as [|q l Hs IH Hall]; simpl.
  - repeat constructor.
  - destruct (Qcleb (fst p) (fst q)) eqn:E.
    + apply Qcleb_le in E. constructor; [now constructor|].
      constructor; [exact E|].
      eapply Forall_impl; [|exact Hall]. intros r Hr. unfold le_val in *.
      eapply Qcle_trans; eassumption.
    + apply Qcleb_gt in E. constructor; [exact IH|].
      eapply Permutation_Forall; [symmetry; apply insert_asc_perm|].
      constructor; [|exact Hall]. unfold le_val. now apply Qclt_le_weak.
Qed.

Lemma sort_asc_sorted l : StronglySorted le_val (fold_right insert_asc [] l).
Proof.
  induction l as [|p l IH]; simpl; [constructor|now apply insert_asc_sorted].
Qed.

Lemma StronglySorted_app_inv {A} (R : A -> A -> Prop) l1 l2 a b :
  StronglySorted R (l1 ++ l2) -> In a l1 -> In b l2 -> R a b.
Proof.
  induction l1 as [|c l1 IH]; simpl; intros H Ha Hb; [tauto|].
  inversion H as [|? ? Hs Hall]; subst. destruct Ha as [->|Ha].
  - rewrite Forall_forall in Hall. apply Hall, in_or_app. now right.
  - now apply IH.
Qed.

Lemma StronglySorted_app_l {A} (R : A -> A -> Prop) l1 l2 :
  StronglySorted R (l1 ++ l2) -> StronglySorted R l1.
Proof.
  induction l1 as [|c l1 IH]; simpl; intro H; [constructor|].
  inversion H as [|? ? Hs Hall]; subst. constructor; [now apply IH|].
  apply Forall_app in Hall. tauto.
Qed.

Lemma StronglySorted_app_r {A} (R : A -> A -> Prop) l1 l2 :
  StronglySorted R (l1 ++ l2) -> StronglySorted R l2.
Proof.
  induction l1 as [|c l1 IH]; simpl; intro H; [exact H|].
  inversion H; subst. now apply IH.
Qed.

Lemma NoDup_app_l {A} (l1 l2 : list A) : NoDup (l1 ++ l2) -> NoDup l1.
Proof.
  induction l1 as [|a l1 IH]; simpl; intro H; [constructor|].
  inversion H; subst. constructor; [|now apply IH].
  intro Hin. apply H2, in_or_app. now left.
Qed.

Lemma NoDup_app_r {A} (l1 l2 : list A) : NoDup (l1 ++ l2) -> NoDup l2.
Proof.
  induction l1 as [|a l1 IH]; simpl; intro H; [exact H|].
  inversion H; subst. now apply IH.
Qed.

(** ** [topk] *)

Lemma topk_defined kk v :
  (0 <= kk <= Z.of_nat (length v))%Z -> exists r, topk kk v = Some r.
Proof.
  intro H. unfold topk.
  destruct (Z.ltb_spec kk 0); [lia|].
  destruct (Z.ltb_spec (Z.of_nat (length v)) kk); [lia|]. simpl. eauto.
Qed.

Lemma pairs_fst_snd (v : vec) (s : list (Qc * nat)) :
  (forall p, In p s -> In p (enumerate v)) ->
  map fst s = map (fun i => nth i v 0) (map snd s).
Proof.
  induction s as [|[x i] s IH]; simpl; intro H; [reflexivity|].
  f_equal.
  - symmetry. apply nth_error_nth_Qc, enumerate_In, H. now left.
  - apply IH. intros; apply H; now right.
Qed.

Lemma sorted_values (l : list (Qc * nat)) :
  StronglySorted ge_val l -> StronglySorted (fun a b => b <= a) (map fst l).
Proof.
  induction 1 as [|a l Hs IH Hall]; simpl; constructor; [exact IH|].
  rewrite Forall_forall in *. intros b Hb. apply in_map_iff in Hb.
  destruct Hb as (c & <- & Hc). now apply Hall.
Qed.

Lemma topk_spec kk v vals idx :
  topk kk v = Some (vals, idx) -> topk_post kk v vals idx.
Proof.
  unfold topk. destruct (Z.ltb_spec kk 0); [discriminate|].
  destruct (Z.ltb_spec (Z.of_nat (length v)) kk); [discriminate|]. simpl.
  intro E. inversion E; subst; clear E.
  set (s := sort_desc (enumerate v)).
  assert (Hperm : Permutation s (enumerate v)) by apply sort_desc_perm.
  assert (Hsorted : StronglySorted ge_val s) by apply sort_desc_sorted.
  assert (Hlen : length s = length v).
  { rewrite (Permutation_length Hperm). apply enumerate_length. }
  assert (Hsplit : s = firstn (Z.to_nat kk) s ++ skipn (Z.to_nat kk) s)
    by (symmetry; apply firstn_skipn).
  assert (Hsub : forall p, In p (firstn (Z.to_nat kk) s) -> In p (enumerate v)).
  { intros p Hp. eapply Permutation_in; [exact Hperm|].
    rewrite Hsplit. apply in_or_app. now left. }
  assert (Hnd : NoDup (map snd s)).
  { eapply Permutation_NoDup; [symmetry; apply Permutation_map; exact Hperm|].
    rewrite enumerate_snd. apply seq_NoDup. }
  constructor.
  - rewrite length_map, length_firstn. lia.
  - rewrite length_map, length_firstn. lia.
  - rewrite Hsplit, map_app in Hnd. now apply NoDup_app_l in Hnd.
  - rewrite Forall_forall. intros i Hi. apply in_map_iff in Hi.
    destruct Hi as ([x j] & Ej & Hin). simpl in Ej; subst j.
    apply Hsub, enumerate_In in Hin.
    apply nth_error_Some. congruence.
  - now apply pairs_fst_snd.
  - intros p q Hp Hnp Hq.
    apply in_map_iff in Hq. destruct Hq as ([y j] & Ej & Hq). simpl in Ej; subst j.
    assert (Hy : nth q v 0 = y).
    { apply nth_error_nth_Qc, enumerate_In, Hsub, Hq. }
    destruct (nth_error v p) as [x|] eqn:Ex;
      [|apply nth_error_None in Ex; lia].
    assert (Hx : nth p v 0 = x) by now apply nth_error_nth_Qc.
    assert (Hin : In (x, p) s).
    { eapply Permutation_in; [symmetry; exact Hperm|]. now apply enumerate_In. }
    rewrite Hsplit in Hin. apply in_app_or in Hin. destruct Hin as [Hin|Hin].
    + exfalso. apply Hnp. apply in_map_iff. exists (x, p). auto.
    + rewrite Hsplit in Hsorted.
      pose proof (StronglySorted_app_inv _ _ _ _ _ Hsorted Hq Hin) as Hge.
      unfold ge_val in Hge. simpl in Hge. now rewrite Hx, Hy.
  - rewrite Hsplit in Hsorted. apply StronglySorted_app_l in Hsorted.
    now apply sorted_values.
  - intro Hk. rewrite firstn_all2 by lia.
    rewrite <- enumerate_snd. now apply Permutation_map.
Qed.

End TensorFacts.

(* ================================================================== *)
(** * Facts about the module                                           *)
(* ================================================================== *)

Module SAEFacts.

Import Tensor SAE Specs TensorFacts.
Local Open Scope Qc_scope.

Lemma wf_inv m :
  wf m = true ->
  length (encoder m) = n_dirs m /\
  length (decoder m) = d_model m /\
  length (pre_bias m) = d_model m /\
  length (latent_bias m) = n_dirs m /\
  length (stats_last_nonzero m) = n_dirs m.
Proof.
  unfold wf. rewrite !andb_true_iff, !Nat.eqb_eq. tauto.
Qed.

Lemma encode_row_defined m x :
  wf m = true -> length x = d_model m ->
  exists pre, encode_row m x = Some pre /\ length pre = n_dirs m.
Proof.
  intros Hwf Hx. destruct (wf_inv m Hwf) as (He & _ & Hpb & Hlb & _).
  unfold encode_row, broadcast_op.
  rewrite Hx, Hpb, Nat.eqb_refl. unfold linear.
  rewrite zip_with_length, Hx, Hpb, Nat.min_id, Nat.eqb_refl.
  eexists; split; [reflexivity|].
  unfold vadd. rewrite zip_with_length, length_map, He, Hlb. apply Nat.min_id.
Qed.

Lemma encode_batch_defined m x :
  wf m = true -> Forall (fun row => length row = d_model m) x ->
  exists pre, mapM (encode_row m) x = Some pre /\
              length pre = length x /\
              Forall (fun row => length row = n_dirs m) pre.
Proof.
  intros Hwf. induction 1 as [|a x Ha Hx IH]; simpl.
  - exists []. repeat split; constructor.
  - destruct (encode_row_defined m a Hwf Ha) as (p & -> & Hp).
    destruct IH as (pre & -> & Hl & Hall).
    exists (p :: pre). simpl. repeat split; auto.
Qed.

Lemma sparse_row_spec kk v :
  (0 <= kk <= Z.of_nat (length v))%Z ->
  exists vals idx out,
    sparse_row kk v = Some ((vals, idx), out) /\ sparse_post kk v vals idx out.
Proof.
  intro Hk. destruct (topk_defined kk v Hk) as ([raw idx] & Htk).
  pose proof (topk_spec _ _ _ _ Htk) as P.
  unfold sparse_row, topk_relu. rewrite Htk.
  assert (Hvals : map relu raw = map (fun i => relu (nth i v 0)) idx).
  { rewrite (tk_vals _ _ _ _ P), map_map. reflexivity. }
  unfold scatter_zeros. simpl fst. simpl snd. rewrite Hvals.
  destruct (scatter_map (fun i => relu (nth i v 0)) idx (zeros (length v)))
    as (out & Hsc & Hlen & Hin & Hout).
  { rewrite zeros_length. exact (tk_range _ _ _ _ P). }
  rewrite Hsc. exists (map (fun i => relu (nth i v 0)) idx), idx, out.
  split; [reflexivity|]. rewrite zeros_length in Hlen.
  constructor; auto.
  - exact (tk_len_idx _ _ _ _ P).
  - rewrite length_map. exact (tk_len_idx _ _ _ _ P).
  - exact (tk_nodup _ _ _ _ P).
  - exact (tk_range _ _ _ _ P).
  - rewrite Forall_forall. intros y Hy. apply in_map_iff in Hy.
    destruct Hy as (i & <- & _). apply relu_nonneg.
  - exact (tk_largest _ _ _ _ P).
  - intros i Hi. rewrite Hout by assumption. apply zeros_nth.
  - intro Hfull. pose proof (tk_full _ _ _ _ P Hfull) as Hperm.
    apply nth_ext with (d := 0) (d' := 0); [now rewrite length_map|].
    intros i Hi. rewrite Hlen in Hi.
    rewrite Hin.
    + change 0 with (relu 0) at 2. now rewrite map_nth.
    + eapply Permutation_in; [symmetry; exact Hperm|]. apply in_seq. lia.
Qed.

Lemma sparse_row_inv kk v vals idx out :
  sparse_row kk v = Some ((vals, idx), out) ->
  (0 <= kk <= Z.of_nat (length v))%Z.
Proof.
  unfold sparse_row, topk_relu, topk.
  destruct (Z.ltb_spec kk 0); [discriminate|].
  destruct (Z.ltb_spec (Z.of_nat (length v)) kk); [discriminate|]. lia.
Qed.

Lemma sparse_row_post kk v vals idx out :
  sparse_row kk v = Some ((vals, idx), out) -> sparse_post kk v vals idx out.
Proof.
  intro H. destruct (sparse_row_spec kk v (sparse_row_inv _ _ _ _ _ H))
    as (vals' & idx' & out' & E & P).
  rewrite H in E. inversion E; subst. exact P.
Qed.

Lemma sparse_batch_defined kk n (pre : list vec) :
  (0 <= kk <= Z.of_nat n)%Z ->
  Forall (fun row => length row = n) pre ->
  exists prim, mapM (sparse_row kk) pre = Some prim /\
               Forall (fun p => length (snd p) = n) prim.
Proof.
  intros Hk. induction 1 as [|a pre Ha Hpre IH]; simpl.
  - exists []. split; constructor.
  - destruct (sparse_row_spec kk a) as (vals & idx & out & -> & P); [now rewrite Ha|].
    destruct IH as (prim & -> & Hall).
    eexists; split; [reflexivity|]. constructor; [|exact Hall].
    simpl. rewrite (sp_out_len _ _ _ _ _ P). exact Ha.
Qed.

Lemma decode_row_defined m l :
  length l = n_dirs m -> exists r, decode_row m l = Some r.
Proof.
  intro H. unfold decode_row, linear. rewrite H, Nat.eqb_refl. eauto.
Qed.

Lemma decode_batch_defined m (ls : list vec) :
  Forall (fun l => length l = n_dirs m) ls ->
  exists r, mapM (decode_row m) ls = Some r.
Proof.
  induction 1 as [|a ls Ha Hls IH]; simpl; [eauto|].
  destruct (decode_row_defined m a Ha) as (r & ->).
  destruct IH as (rs & ->). eauto.
Qed.

(** ** The counter update *)

Lemma update_stats_spec stats selected :
  Forall (Forall (fun i => (i < length stats)%nat)) selected ->
  exists stats',
    update_stats stats selected = Some stats' /\
    length stats' = length stats /\
    forall j, (j < length stats)%nat ->
      (In j (concat selected) -> nth j stats' 0%Z = 0%Z) /\
      (~ In j (concat selected) -> nth j stats' 0%Z = add64 (nth j stats 0%Z) 1).
Proof.
  intro Hsel. unfold update_stats.
  set (stats1 := map (fun c => add64 c 1) stats).
  assert (Hlen1 : length stats1 = length stats) by apply length_map.
  assert (Hnth1 : forall j, (j < length stats)%nat ->
                            nth j stats1 0%Z = add64 (nth j stats 0%Z) 1).
  { intros j Hj. unfold stats1.
    rewrite (nth_indep _ 0%Z (add64 0 1)) by now rewrite length_map.
    apply (map_nth (fun c => add64 c 1)). }
  assert (Hrange : Forall (fun i => (i < length stats1)%nat) (unique (concat selected))).
  { rewrite Forall_forall. intros i Hi. rewrite unique_In in Hi.
    apply in_concat in Hi. destruct Hi as (l & Hl & Hi).
    rewrite Forall_forall in Hsel. specialize (Hsel l Hl).
    rewrite Forall_forall in Hsel. rewrite Hlen1. now apply Hsel. }
  destruct (Nat.ltb_spec 0 (length (unique (concat selected)))) as [Hpos|Hzero].
  - destruct (scatter_fill_spec 0%Z _ _ Hrange) as (r & -> & Hlen & Hin & Hout).
    exists r. split; [reflexivity|]. split; [congruence|].
    intros j Hj. split; intro H.
    + apply Hin; [now apply unique_In|lia].
    + rewrite Hout; [now apply Hnth1|]. now rewrite unique_In.
  - exists stats1. split; [reflexivity|]. split; [assumption|].
    assert (Hnil : unique (concat selected) = []).
    { destruct (unique (concat selected)); [reflexivity|simpl in Hzero; lia]. }
    intros j Hj. split; intro H.
    + rewrite <- unique_In in H. rewrite Hnil in H. destruct H.
    + now apply Hnth1.
Qed.

End SAEFacts.

(* ================================================================== *)
(** * The forward pass                                                 *)
(* ================================================================== *)

Module ForwardPass.

Import Tensor SAE Specs TensorFacts SAEFacts Examples.
Local Open Scope Qc_scope.

Lemma multik_branch_defined m pre :
  (0 <= k m)%Z -> Forall (fun row => length row = n_dirs m) pre ->
  exists ml, multik_branch m pre = Some ml /\
             match ml with
             | Some l => Forall (fun r => length r = n_dirs m) l
             | None => True
             end.
Proof.
  intros Hk Hpre. unfold multik_branch. destruct (truthy (multik m)).
  - destruct (mapM_defined
                (fun row => sparse_row (Z.min (4 * k m) (Z.of_nat (length row))) row)
                (fun p => length (snd p) = n_dirs m) pre) as (r & -> & Hr).
    { intros row Hrow. rewrite Forall_forall in Hpre. specialize (Hpre row Hrow).
      destruct (sparse_row_spec (Z.min (4 * k m) (Z.of_nat (length row))) row)
        as (vals & idx & out & E & P); [lia|].
      eexists; split; [exact E|]. simpl. rewrite (sp_out_len _ _ _ _ _ P). exact Hpre. }
    eexists; split; [reflexivity|].
    rewrite Forall_forall in *. intros l Hl. apply in_map_iff in Hl.
    destruct Hl as (p & <- & Hp). now apply Hr.
  - exists None. split; [reflexivity|exact I].
Qed.

Lemma decode_opt_defined m ml :
  match ml with
  | Some l => Forall (fun r => length r = n_dirs m) l
  | None => True
  end -> exists r, decode_opt m ml = Some r.
Proof.
  destruct ml as [l|]; simpl; intro H; [|eauto].
  destruct (decode_batch_defined m l H) as (r & ->). eauto.
Qed.

Lemma auxk_branch_unfold m stats' pre :
  auxk_branch m stats' pre =
  match auxk m with
  | None => Some None
  | Some a => match mapM (aux_row m stats' a) pre with
              | None => None
              | Some asel => Some (Some asel)
              end
  end.
Proof. reflexivity. Qed.

Lemma aux_row_defined m stats' a row :
  (0 <= a)%Z -> exists r, aux_row m stats' a row = Some r.
Proof.
  intro Ha. unfold aux_row, topk_relu.
  destruct (topk_defined (Z.min a (Z.of_nat (length (vmul row (dead_mask m stats')))))
                         (vmul row (dead_mask m stats'))) as ([vals idx] & ->); [lia|].
  eauto.
Qed.

Lemma auxk_branch_defined m stats' pre :
  match auxk m with Some a => (0 <= a)%Z | None => True end ->
  exists aux, auxk_branch m stats' pre = Some aux /\
              (auxk m = None -> aux = None) /\
              (forall a, auxk m = Some a ->
                 exists asel, aux = Some asel /\ mapM (aux_row m stats' a) pre = Some asel).
Proof.
  intro Ha. rewrite auxk_branch_unfold. destruct (auxk m) as [a|].
  - destruct (mapM_defined (aux_row m stats' a) (fun _ => True) pre) as (r & Hr & _).
    { intros row _. destruct (aux_row_defined m stats' a row Ha) as (r & ->). eauto. }
    rewrite Hr. exists (Some r). split; [reflexivity|]. split; [discriminate|].
    intros a' E. inversion E; subst. eauto.
  - exists None. split; [reflexivity|]. split; [reflexivity|discriminate].
Qed.

(** [forward] returns in every ready situation, and its result is
    assembled from the per-row encoder, the per-row selection, the
    counter update and the auxiliary branch. *)
Lemma forward_returns m x :
  forward_ready m x ->
  exists pre prim stats' recons mrecons aux,
    mapM (encode_row m) x = Some pre /\
    Forall (fun row => length row = n_dirs m) pre /\
    mapM (sparse_row (k m)) pre = Some prim /\
    update_stats (stats_last_nonzero m) (map snd (map fst prim)) = Some stats' /\
    length stats' = n_dirs m /\
    (forall j, (j < n_dirs m)%nat ->
       (In j (concat (map snd (map fst prim))) -> nth j stats' 0%Z = 0%Z) /\
       (~ In j (concat (map snd (map fst prim))) ->
        nth j stats' 0%Z = add64 (nth j (stats_last_nonzero m) 0%Z) 1)) /\
    auxk_branch m stats' pre = Some aux /\
    forward m x =
      Some (with_stats m stats',
            (recons,
             mkInfo (map snd (map fst prim)) (map fst (map fst prim)) mrecons
                    (option_map (map snd) aux) (option_map (map fst) aux)
                    pre (map snd prim))).
Proof.
  intros (Hwf & Hx & Hk & Ha).
  destruct (wf_inv m Hwf) as (_ & _ & _ & _ & Hst).
  destruct (encode_batch_defined m x Hwf Hx) as (pre & Hpre & Hlen & Hpre_len).
  destruct (sparse_batch_defined (k m) (n_dirs m) pre Hk Hpre_len) as (prim & Hprim & Hout).
  destruct (multik_branch_defined m pre (proj1 Hk) Hpre_len) as (ml & Hml & Hml_len).
  assert (Hsel : Forall (Forall (fun i => (i < length (stats_last_nonzero m))%nat))
                        (map snd (map fst prim))).
  { rewrite Forall_forall. intros idx Hidx. rewrite map_map in Hidx.
    apply in_map_iff in Hidx. destruct Hidx as ([[vals idx'] out] & E & Hin).
    simpl in E; subst idx'.
    apply In_nth_error in Hin. destruct Hin as (i & Hi).
    assert (Hi' : (i < length pre)%nat).
    { rewrite <- (mapM_length _ _ _ Hprim). apply nth_error_Some. congruence. }
    pose proof (mapM_nth_d _ _ _ i [] (([], []), []) Hprim Hi') as E.
    rewrite (nth_error_nth _ _ _ Hi) in E.
    pose proof (sparse_row_post _ _ _ _ _ E) as P.
    eapply Forall_impl; [|exact (sp_range _ _ _ _ _ P)].
    intros j Hj. simpl in Hj. rewrite Hst.
    rewrite Forall_forall in Hpre_len.
    rewrite <- (Hpre_len (nth i pre [])); [exact Hj|]. now apply nth_In. }
  destruct (update_stats_spec _ _ Hsel) as (stats' & Hup & Hlen' & Hstats).
  destruct (decode_batch_defined m (map snd prim)) as (recons & Hrec).
  { rewrite Forall_forall in *. intros l Hl. apply in_map_iff in Hl.
    destruct Hl as (p & <- & Hp). now apply Hout. }
  destruct (decode_opt_defined m ml Hml_len) as (mrecons & Hmrec).
  destruct (auxk_branch_defined m stats' pre Ha) as (aux & Haux & _).
  exists pre, prim, stats', recons, mrecons, aux.
  repeat split; auto; try congruence.
  - apply Hstats. lia.
  - apply Hstats. lia.
  - unfold forward. rewrite Hpre, Hprim, Hml. cbv zeta.
    rewrite Hup, Hrec, Hmrec, Haux. reflexivity.
Qed.

Lemma topk_relu_spec kk v vals idx :
  topk_relu kk v = Some (vals, idx) ->
  length idx = Z.to_nat kk /\ length vals = Z.to_nat kk /\
  NoDup idx /\ Forall (fun i => (i < length v)%nat) idx /\
  vals = map (fun i => relu (nth i v 0)) idx /\
  Forall (fun y => 0 <= y) vals /\
  (forall p q, (p < length v)%nat -> ~ In p idx -> In q idx -> nth p v 0 <= nth q v 0).
Proof.
  unfold topk_relu. destruct (topk kk v) as [[raw idx']|] eqn:E; [|discriminate].
  intro H. inversion H; subst; clear H.
  pose proof (topk_spec _ _ _ _ E) as P.
  assert (Hvals : map relu raw = map (fun i => relu (nth i v 0)) idx).
  { rewrite (tk_vals _ _ _ _ P), map_map. reflexivity. }
  repeat split.
  - exact (tk_len_idx _ _ _ _ P).
  - rewrite length_map. exact (tk_len_vals _ _ _ _ P).
  - exact (tk_nodup _ _ _ _ P).
  - exact (tk_range _ _ _ _ P).
  - exact Hvals.
  - rewrite Forall_forall. intros y Hy. apply in_map_iff in Hy.
    destruct Hy as (r & <- & _). apply relu_nonneg.
  - exact (tk_largest _ _ _ _ P).
Qed.

Lemma add64_small c :
  (- 2 ^ 63 <= c < 2 ^ 63 - 1)%Z -> add64 c 1 = (c + 1)%Z.
Proof.
  intro H. unfold add64, wrap64.
  rewrite Z.mod_small; lia.
Qed.

Lemma relu_zero : relu 0 = 0.
Proof. reflexivity. Qed.

Lemma masked_nth m stats' (pre : vec) j :
  (j < length pre)%nat -> (j < length stats')%nat ->
  nth j (vmul pre (dead_mask m stats')) 0 =
  if (dead_steps_threshold m <? nth j stats' 0%Z)%Z then nth j pre 0 else 0.
Proof.
  intros Hp Hs. unfold vmul, dead_mask.
  rewrite (zip_with_nth Qcmult pre _ j 0 0 0) by (rewrite ?length_map; assumption).
  rewrite (nth_map_lt _ stats' j 0%Z 0) by assumption.
  destruct (dead_steps_threshold m <? nth j stats' 0%Z)%Z.
  - apply Qcmult_1_r.
  - apply Qcmult_0_r.
Qed.

Lemma scenario_ready : forward_ready scenario_model scenario_input.
Proof.
  repeat split; simpl; try lia; repeat constructor.
Qed.

(** C1. For every module with tensors of the declared shapes, every
    batch of [d_model]-vectors and every [0 <= k <= n_dirs], [forward]
    returns, and for each item of the batch the primary code is made of
    exactly [k] pairs: [k] distinct positions below [n_dirs], holding
    [k] largest entries of the item's pre-activation (no entry left out
    is larger than a selected one), with the values clamped at zero, so
    none is negative; the scattered row carries the clamped values at
    the selected positions and zero elsewhere.  On the pre-activation
    [0.1, 0.9, -0.3] with [k = 2] the selected positions are [1, 0], the
    values [0.9, 0.1], and position 2 receives zero. *)
Theorem forward_primary_code :
  (forall m x, forward_ready m x ->
     exists m' recons info,
       forward m x = Some (m', (recons, info)) /\
       length (latents_pre_act info) = length x /\
       length (topk_indices info) = length x /\
       length (topk_values info) = length x /\
       length (latents_post_act info) = length x /\
       forall i, (i < length x)%nat ->
         let pre := nth i (latents_pre_act info) [] in
         let idx := nth i (topk_indices info) [] in
         let vals := nth i (topk_values info) [] in
         let post := nth i (latents_post_act info) [] in
         encode_row m (nth i x []) = Some pre /\
         length pre = n_dirs m /\
         length idx = Z.to_nat (k m) /\
         length vals = Z.to_nat (k m) /\
         NoDup idx /\
         Forall (fun j => (j < n_dirs m)%nat) idx /\
         Forall (fun y => 0 <= y) vals /\
         vals = map (fun j => relu (nth j pre 0)) idx /\
         (forall p q, (p < n_dirs m)%nat -> ~ In p idx -> In q idx ->
                      nth p pre 0 <= nth q pre 0) /\
         length post = n_dirs m /\
         (forall j, In j idx -> nth j post 0 = relu (nth j pre 0)) /\
         (forall j, ~ In j idx -> nth j post 0 = 0))
  /\
  sparse_row 2 [qc 1 10; qc 9 10; qc (-3) 10] =
    Some (([qc 9 10; qc 1 10], [1; 0]%nat), [qc 1 10; qc 9 10; 0])
  /\
  primary_view (forward scenario_model scenario_input) =
    Some ([[1 # 10; 9 # 10; -3 # 10]%Q], [[1; 0]%nat],
          [[9 # 10; 1 # 10]%Q], [[1 # 10; 9 # 10; 0 # 1]%Q]).
Proof.
  split; [|split; vm_compute; reflexivity].
  intros m x Hready.
  destruct (forward_returns m x Hready)
    as (pre & prim & stats' & recons & mrecons & aux & Hpre & Hpre_len & Hprim & _ & _ & _ & _ & Hfw).
  pose proof (mapM_length _ _ _ Hpre) as Lpre.
  pose proof (mapM_length _ _ _ Hprim) as Lprim.
  eexists _, _, _. split; [exact Hfw|].
  cbn [latents_pre_act topk_indices topk_values latents_post_act].
  rewrite !length_map, Lprim, Lpre.
  do 4 (split; [reflexivity|]).
  intros i Hi.
  pose proof (mapM_nth_d _ _ _ i [] [] Hpre Hi) as Ei.
  assert (Hi' : (i < length pre)%nat) by lia.
  pose (d := (([] : vec, [] : list nat), [] : vec)).
  pose proof (mapM_nth_d _ _ _ i [] d Hprim Hi') as Es.
  assert (Hlen : length (nth i pre []) = n_dirs m).
  { rewrite Forall_forall in Hpre_len. apply Hpre_len. now apply nth_In. }
  change (@nil (list nat)) with [snd (fst d)].
  change (nth i (map snd (map fst prim)) [])
    with (nth i (map snd (map fst prim)) (snd (fst d))).
  change (nth i (map fst (map fst prim)) [])
    with (nth i (map fst (map fst prim)) (fst (fst d))).
  change (nth i (map snd prim) []) with (nth i (map snd prim) (snd d)).
  rewrite !map_map.
  rewrite (map_nth (fun p => snd (fst p))), (map_nth (fun p => fst (fst p))), (map_nth snd).
  destruct (nth i prim d) as [[vals idx] out] eqn:En. simpl.
  pose proof (sparse_row_post _ _ _ _ _ Es) as P.
  rewrite <- Hlen.
  repeat split; try reflexivity.
  - exact Ei.
  - exact (sp_len_idx _ _ _ _ _ P).
  - exact (sp_len_vals _ _ _ _ _ P).
  - exact (sp_nodup _ _ _ _ _ P).
  - exact (sp_range _ _ _ _ _ P).
  - exact (sp_nonneg _ _ _ _ _ P).
  - exact (sp_vals _ _ _ _ _ P).
  - exact (sp_largest _ _ _ _ _ P).
  - exact (sp_out_len _ _ _ _ _ P).
  - exact (sp_out_in _ _ _ _ _ P).
  - exact (sp_out_notin _ _ _ _ _ P).
Qed.

Lemma forward_primary_code_witness :
  forward_ready scenario_model scenario_input /\
  exists m' recons info,
    forward scenario_model scenario_input = Some (m', (recons, info)) /\
    length (topk_indices info) = 1%nat.
Proof.
  split; [exact scenario_ready|].
  destruct (proj1 forward_primary_code scenario_model scenario_input scenario_ready)
    as (m' & recons & info & E & _ & L & _).
  exists m', recons, info. split; [exact E|exact L].
Defined.

(** C2. After one forward pass over a batch, every latent dimension
    that occurs among the batch's primary-code positions has its counter
    at 0, and every other dimension has its counter incremented by one
    (the per-call convention: one int64 increment per call of [forward],
    whatever the number of items); nothing else in the module changes. *)
Theorem forward_dead_steps m x :
  forward_ready m x ->
  exists m' recons info,
    forward m x = Some (m', (recons, info)) /\
    m' = with_stats m (stats_last_nonzero m') /\
    length (stats_last_nonzero m') = n_dirs m /\
    forall j, (j < n_dirs m)%nat ->
      (In j (concat (topk_indices info)) ->
       nth j (stats_last_nonzero m') 0%Z = 0%Z) /\
      (~ In j (concat (topk_indices info)) ->
       nth j (stats_last_nonzero m') 0%Z = add64 (nth j (stats_last_nonzero m) 0%Z) 1 /\
       ((- 2 ^ 63 <= nth j (stats_last_nonzero m) 0 < 2 ^ 63 - 1)%Z ->
        nth j (stats_last_nonzero m') 0%Z = (nth j (stats_last_nonzero m) 0 + 1)%Z)).
Proof.
  intro Hready.
  destruct (forward_returns m x Hready)
    as (pre & prim & stats' & recons & mrecons & aux & _ & _ & _ & _ & Hlen & Hst & _ & Hfw).
  eexists _, _, _. split; [exact Hfw|].
  cbn [topk_indices]. split; [reflexivity|]. split; [exact Hlen|].
  intros j Hj. destruct (Hst j Hj) as [Hin Hout]. split; [exact Hin|].
  intro Hn. specialize (Hout Hn). split; [exact Hout|].
  intro Hr. simpl. rewrite <- (add64_small _ Hr). exact Hout.
Qed.

Lemma forward_dead_steps_witness :
  forward_ready scenario_model scenario_input /\
  exists m', option_map fst (forward scenario_model scenario_input) = Some m' /\
             stats_last_nonzero m' = [0; 0; 1]%Z.
Proof.
  split; [exact scenario_ready|].
  destruct (forward_dead_steps scenario_model scenario_input scenario_ready)
    as (m' & recons & info & E & _).
  exists m'. rewrite E. split; [reflexivity|].
  revert E. vm_compute. intro E. inversion E. reflexivity.
Defined.

(** C3 as the code has it.  When [auxk] is set, the auxiliary code of
    every item has exactly [min(auxk, n_dirs)] pairs, whether or not any
    dimension is dead: the top entries of the pre-activation multiplied
    by the 0/1 mask of the dead dimensions (counters as they are after
    this pass's update), clamped at zero.  Live dimensions are not
    removed but zeroed, so they can be selected with value 0; every
    pair with a positive value sits on a dead dimension and carries its
    pre-activation, and when no dimension is dead all values are 0. *)
Theorem forward_auxiliary_code m x a :
  forward_ready m x -> auxk m = Some a ->
  exists m' recons info ai av,
    forward m x = Some (m', (recons, info)) /\
    auxk_indices info = Some ai /\ auxk_values info = Some av /\
    length ai = length x /\ length av = length x /\
    forall i, (i < length x)%nat ->
      let pre := nth i (latents_pre_act info) [] in
      let idx := nth i ai [] in
      let vals := nth i av [] in
      let masked := vmul pre (dead_mask m' (stats_last_nonzero m')) in
      length idx = Z.to_nat (Z.min a (Z.of_nat (n_dirs m))) /\
      length vals = Z.to_nat (Z.min a (Z.of_nat (n_dirs m))) /\
      NoDup idx /\
      Forall (fun j => (j < n_dirs m)%nat) idx /\
      Forall (fun y => 0 <= y) vals /\
      vals = map (fun j => relu (nth j masked 0)) idx /\
      (forall p q, (p < n_dirs m)%nat -> ~ In p idx -> In q idx ->
                   nth p masked 0 <= nth q masked 0) /\
      (forall j, In j idx -> 0 < relu (nth j masked 0) ->
                 dead m' j /\ relu (nth j masked 0) = nth j pre 0) /\
      ((forall j, (j < n_dirs m)%nat -> ~ dead m' j) -> Forall (fun y => y = 0) vals).
Proof.
  intros Hready Ha.
  destruct (forward_returns m x Hready)
    as (pre & prim & stats' & recons & mrecons & aux & Hpre & Hpre_len & _ & _ & Hlen & _ & Haux & Hfw).
  pose proof (mapM_length _ _ _ Hpre) as Lpre.
  rewrite auxk_branch_unfold, Ha in Haux.
  destruct (mapM (aux_row m stats' a) pre) as [asel|] eqn:Hsel; [|discriminate].
  inversion Haux; subst aux; clear Haux.
  pose proof (mapM_length _ _ _ Hsel) as Lsel.
  exists (with_stats m stats'), recons.
  eexists. exists (map snd asel), (map fst asel).
  split; [exact Hfw|]. cbn [auxk_indices auxk_values latents_pre_act option_map].
  do 2 (split; [reflexivity|]). rewrite !length_map.
  do 2 (split; [congruence|]).
  intros i Hi. assert (Hi' : (i < length pre)%nat) by lia.
  pose (d := ([] : vec, [] : list nat)).
  pose proof (mapM_nth_d _ _ _ i [] d Hsel Hi') as Es.
  assert (Hrow : length (nth i pre []) = n_dirs m).
  { rewrite Forall_forall in Hpre_len. apply Hpre_len. now apply nth_In. }
  change (nth i (map snd asel) []) with (nth i (map snd asel) (snd d)).
  change (nth i (map fst asel) []) with (nth i (map fst asel) (fst d)).
  rewrite !map_nth.
  destruct (nth i asel d) as [vals idx] eqn:En.
  cbn [fst snd stats_last_nonzero with_stats].
  unfold aux_row in Es. cbv zeta in Es |- *.
  change (dead_mask (with_stats m stats') stats') with (dead_mask m stats').
  unfold vec in *.
  assert (Hmask : forall j, (j < n_dirs m)%nat ->
            nth j (vmul (nth i pre []) (dead_mask m stats')) 0 =
            if (dead_steps_threshold m <? nth j stats' 0%Z)%Z
            then nth j (nth i pre []) 0 else 0).
  { intros j Hj. apply masked_nth; lia. }
  assert (Hmlen : length (vmul (nth i pre []) (dead_mask m stats')) = n_dirs m).
  { unfold vmul, dead_mask. rewrite zip_with_length, length_map, Hrow, Hlen.
    apply Nat.min_id. }
  remember (vmul (nth i pre []) (dead_mask m stats')) as masked eqn:Em.
  destruct (topk_relu_spec _ _ _ _ Es) as (L1 & L2 & Hnd & Hrange & Hvals & Hnn & Hlarge).
  rewrite Hmlen in L1, L2, Hrange, Hlarge.
  repeat split; auto.
  - unfold dead. cbn [stats_last_nonzero with_stats dead_steps_threshold].
    rewrite Forall_forall in Hrange. specialize (Hrange j H).
    rewrite (Hmask j Hrange) in H0.
    destruct (Z.ltb_spec (dead_steps_threshold m) (nth j stats' 0%Z)); [assumption|].
    rewrite relu_zero in H0. exfalso. revert H0. apply Qcle_not_lt, Qcle_refl.
  - rewrite Forall_forall in Hrange. specialize (Hrange j H).
    rewrite (Hmask j Hrange) in *.
    destruct (Z.ltb_spec (dead_steps_threshold m) (nth j stats' 0%Z)).
    + now apply relu_pos.
    + rewrite relu_zero in H0. exfalso. revert H0. apply Qcle_not_lt, Qcle_refl.
  - intro Hnodead. rewrite Hvals. rewrite Forall_forall. intros y Hy.
    apply in_map_iff in Hy. destruct Hy as (j & <- & Hj).
    rewrite Forall_forall in Hrange. specialize (Hrange j Hj).
    rewrite (Hmask j Hrange).
    destruct (Z.ltb_spec (dead_steps_threshold m) (nth j stats' 0%Z)) as [Hd|Hd].
    + exfalso. apply (Hnodead j Hrange). exact Hd.
    + apply relu_zero.
Qed.

Lemma forward_auxiliary_code_witness :
  forward_ready scenario_model scenario_input /\
  auxk scenario_model = Some 1%Z /\
  exists ai, option_map (fun r => auxk_indices (snd (snd r)))
                        (forward scenario_model scenario_input) = Some (Some ai) /\
             length ai = 1%nat.
Proof.
  split; [exact scenario_ready|]. split; [reflexivity|].
  destruct (forward_auxiliary_code scenario_model scenario_input 1
              scenario_ready eq_refl)
    as (m' & recons & info & ai & av & E & Ei & _ & L & _).
  exists ai. rewrite E. simpl. rewrite Ei. split; [reflexivity|exact L].
Defined.

(** C3 as stated fails: on the scenario module no latent dimension is
    dead after the pass (counters [0, 0, 1], threshold 266), yet the
    auxiliary code is present and not empty; it holds one position
    with value 0, a live dimension whichever of the tied zeros
    [topk] picks (position 0 here). *)
Lemma auxiliary_code_not_restricted_to_dead :
  exists m' recons info,
    forward scenario_model scenario_input = Some (m', (recons, info)) /\
    (forall j, (j < n_dirs m')%nat -> ~ dead m' j) /\
    auxk_indices info = Some [[0%nat]] /\
    option_map (map to_Q) (auxk_values info) = Some [[0 # 1]%Q].
Proof.
  run_forward scenario_model scenario_input.
  split; [|split; vm_compute; reflexivity].
  intros j Hj. unfold dead. cbn in *.
  destruct j as [|[|[|j]]]; simpl; lia.
Qed.

End ForwardPass.

(* ================================================================== *)
(** * The three decoders                                               *)
(* ================================================================== *)

Module Decoders.

Import Tensor SAE Specs TensorFacts SAEFacts Examples.
Local Open Scope Qc_scope.

Lemma decode_row_dense m l :
  length l = n_dirs m -> decode_row m l = Some (dense_decode m l).
Proof.
  intro H. unfold decode_row, linear. now rewrite H, Nat.eqb_refl.
Qed.

Lemma decode_row_inv m l r :
  decode_row m l = Some r -> length l = n_dirs m /\ r = dense_decode m l.
Proof.
  unfold decode_row, linear.
  destruct (Nat.eqb_spec (length l) (n_dirs m)); [|discriminate].
  intro H. inversion H. auto.
Qed.

(** ** [decode_clamp] and [decode_at_k] *)

(** C4 as the code has it.  For every dense latent vector of length
    [n_dirs], [decode_clamp] keeps the top [min(64, n_dirs)] entries,
    clamped at zero and scattered into a zero vector of length [n_dirs]:
    the budget is the constant 64, whatever the second argument is.  The
    second argument multiplies the scattered vector (a number scales
    every entry, a tensor of length [n_dirs] scales entrywise) before
    the product with [decoder.weight] and the addition of [pre_bias]. *)
Theorem decode_clamp_fixed_budget m v :
  length v = n_dirs m ->
  exists vals idx s,
    sparse_row (Z.min 64 (Z.of_nat (n_dirs m))) v = Some ((vals, idx), s) /\
    sparse_post (Z.min 64 (Z.of_nat (n_dirs m))) v vals idx s /\
    (forall c, decode_clamp m v (ClampScalar c) =
               Some (dense_decode m (map (fun y => y * c) s))) /\
    (forall t, length t = n_dirs m ->
               decode_clamp m v (ClampTensor t) = Some (dense_decode m (vmul s t))).
Proof.
  intro Hv.
  destruct (sparse_row_spec (Z.min 64 (Z.of_nat (n_dirs m))) v)
    as (vals & idx & s & E & P); [lia|].
  exists vals, idx, s. split; [exact E|]. split; [exact P|].
  pose proof (sp_out_len _ _ _ _ _ P) as Hs.
  unfold decode_clamp. rewrite Hv, E. split.
  - intro c. simpl. apply decode_row_dense. rewrite length_map. congruence.
  - intros t Ht. simpl. unfold broadcast_op.
    rewrite Hs, Hv, Ht, Nat.eqb_refl. apply decode_row_dense.
    unfold vmul. rewrite zip_with_length, Hs, Hv, Ht. apply Nat.min_id.
Qed.

Lemma decode_clamp_fixed_budget_witness :
  length [qc 1 1; qc 2 1] = n_dirs identity_model /\
  exists s, option_map snd (sparse_row 2 [qc 1 1; qc 2 1]) = Some s /\
            decode_clamp identity_model [qc 1 1; qc 2 1] (ClampScalar (qc 1 1)) =
            Some (dense_decode identity_model (map (fun y => y * qc 1 1) s)).
Proof.
  split; [reflexivity|].
  destruct (decode_clamp_fixed_budget identity_model [qc 1 1; qc 2 1] eq_refl)
    as (vals & idx & s & E & _ & Hc & _).
  exists s. split; [|apply Hc].
  change (Z.min 64 (Z.of_nat (n_dirs identity_model))) with 2%Z in E.
  now rewrite E.
Defined.

(** C4 as stated fails: with width 1 on the latent vector [1, 2] and
    the identity decoder, keeping the top entry would reconstruct
    [0, 2]; [decode_clamp] returns [1, 2]. *)
Lemma decode_clamp_ignores_width :
  option_map to_Q (decode_clamp identity_model [qc 1 1; qc 2 1] (ClampScalar (qc 1 1)))
    = Some [1 # 1; 2 # 1]%Q /\
  option_map to_Q (decode_clamp_spec identity_model [qc 1 1; qc 2 1] 1)
    = Some [0 # 1; 2 # 1]%Q /\
  decode_clamp identity_model [qc 1 1; qc 2 1] (ClampScalar (qc 1 1))
    <> decode_clamp_spec identity_model [qc 1 1; qc 2 1] 1.
Proof.
  split; [vm_compute; reflexivity|]. split; [vm_compute; reflexivity|].
  intro H. apply (f_equal (option_map to_Q)) in H. vm_compute in H. discriminate.
Qed.

(** C5 as the code has it.  For every dense latent vector [v] of length
    [n_dirs], [decode_at_k(v, n_dirs)] is the direct dense decoding of
    [v] clamped at zero; it is the dense decoding of [v] itself when no
    entry of [v] is negative. *)
Theorem decode_at_k_full_width m v :
  length v = n_dirs m ->
  decode_at_k m v (Z.of_nat (n_dirs m)) = Some (dense_decode m (map relu v)) /\
  (Forall (fun y => 0 <= y) v ->
   decode_at_k m v (Z.of_nat (n_dirs m)) = Some (dense_decode m v)).
Proof.
  intro Hv.
  assert (E : decode_at_k m v (Z.of_nat (n_dirs m)) = Some (dense_decode m (map relu v))).
  { unfold decode_at_k. rewrite Hv, Z.min_id.
    destruct (sparse_row_spec (Z.of_nat (n_dirs m)) v) as (vals & idx & s & -> & P); [lia|].
    rewrite (sp_full _ _ _ _ _ P) by lia.
    apply decode_row_dense. now rewrite length_map. }
  split; [exact E|]. intro Hnn. rewrite E. do 2 f_equal.
  rewrite <- (map_id v) at 2. apply map_ext_in. intros y Hy.
  apply relu_id. rewrite Forall_forall in Hnn. now apply Hnn.
Qed.

Lemma decode_at_k_full_width_witness :
  length [qc 1 1; qc 2 1] = n_dirs identity_model /\
  decode_at_k identity_model [qc 1 1; qc 2 1] 2 =
  Some (dense_decode identity_model (map relu [qc 1 1; qc 2 1])).
Proof.
  split; [reflexivity|].
  exact (proj1 (decode_at_k_full_width identity_model [qc 1 1; qc 2 1] eq_refl)).
Defined.

(** C5 as stated fails: on the latent vector [-1, 2] with the identity
    decoder, dense decoding gives [-1, 2] and [decode_at_k(v, 2)] gives
    [0, 2]. *)
Lemma decode_at_k_clamps_negative :
  option_map to_Q (decode_at_k identity_model [qc (-1) 1; qc 2 1] 2)
    = Some [0 # 1; 2 # 1]%Q /\
  to_Q (dense_decode identity_model [qc (-1) 1; qc 2 1]) = [-1 # 1; 2 # 1]%Q /\
  decode_at_k identity_model [qc (-1) 1; qc 2 1] 2
    <> Some (dense_decode identity_model [qc (-1) 1; qc 2 1]).
Proof.
  split; [vm_compute; reflexivity|]. split; [vm_compute; reflexivity|].
  intro H. apply (f_equal (option_map to_Q)) in H. vm_compute in H. discriminate.
Qed.

(** ** [decode_sparse] *)

Lemma lincomb_cons a x u b y v :
  lincomb a (x :: u) b (y :: v) = (a * x + b * y) :: lincomb a u b v.
Proof. reflexivity. Qed.

Lemma lincomb_length a u b v :
  length u = length v -> length (lincomb a u b v) = length u.
Proof.
  intro H. unfold lincomb, vadd, vscale.
  rewrite zip_with_length, !length_map, H. apply Nat.min_id.
Qed.

Lemma lincomb_zeros a b n : lincomb a (zeros n) b (zeros n) = zeros n.
Proof.
  induction n as [|n IH]; [reflexivity|].
  change (zeros (S n)) with (0 :: zeros n). rewrite lincomb_cons, IH.
  f_equal. ring.
Qed.

Lemma lincomb_set_nth a b i s1 s2 d1 d2 :
  length d1 = length d2 ->
  lincomb a (set_nth i s1 d1) b (set_nth i s2 d2) =
  set_nth i (a * s1 + b * s2) (lincomb a d1 b d2).
Proof.
  revert i d2. induction d1 as [|x d1 IH]; intros i [|y d2] H;
    try discriminate; [now destruct i|].
  destruct i as [|i]; simpl set_nth; rewrite !lincomb_cons; [reflexivity|].
  simpl set_nth. f_equal. apply IH. simpl in H. lia.
Qed.

Lemma scatter_length {A} idx (dst src r : list A) :
  scatter_ dst idx src = Some r -> length r = length dst.
Proof.
  revert dst src. induction idx as [|i idx IH]; intros dst src; simpl.
  - intro H. now inversion H.
  - destruct src as [|s src]; [discriminate|].
    destruct (i <? length dst)%nat; [|discriminate].
    intro H. apply IH in H. now rewrite set_nth_length in H.
Qed.

(** Scattering is linear in the scattered values. *)
Lemma scatter_lincomb a b idx :
  forall d1 d2 v1 v2 l1 l2,
    length d1 = length d2 -> length v1 = length v2 ->
    scatter_ d1 idx v1 = Some l1 -> scatter_ d2 idx v2 = Some l2 ->
    scatter_ (lincomb a d1 b d2) idx (lincomb a v1 b v2) = Some (lincomb a l1 b l2).
Proof.
  induction idx as [|i idx IH]; intros d1 d2 v1 v2 l1 l2 Hd Hv; simpl.
  - intros E1 E2. inversion E1; inversion E2; subst. reflexivity.
  - destruct v1 as [|s1 v1]; [discriminate|].
    destruct v2 as [|s2 v2]; [discriminate|].
    rewrite lincomb_cons, (lincomb_length _ _ _ _ Hd), <- Hd.
    destruct (i <? length d1)%nat; [|discriminate].
    intros E1 E2. rewrite <- lincomb_set_nth by assumption.
    apply IH; auto; now rewrite !set_nth_length.
Qed.

Lemma dot_lincomb row a l1 b l2 :
  length l1 = length l2 ->
  dot row (lincomb a l1 b l2) = a * dot row l1 + b * dot row l2.
Proof.
  revert l1 l2. induction row as [|w row IH]; intros l1 l2 H.
  - unfold dot. simpl. ring.
  - destruct l1 as [|x l1], l2 as [|y l2]; try discriminate.
    + unfold dot. simpl. ring.
    + rewrite lincomb_cons. unfold dot in *. simpl.
      rewrite IH by (simpl in H; lia). ring.
Qed.

Lemma dense_decode_lincomb m a l1 b l2 :
  length l1 = length l2 ->
  vsub (dense_decode m (lincomb a l1 b l2)) (pre_bias m) =
  lincomb a (vsub (dense_decode m l1) (pre_bias m))
          b (vsub (dense_decode m l2) (pre_bias m)).
Proof.
  intro H. unfold dense_decode.
  generalize (pre_bias m) as pb. induction (decoder m) as [|row W IH]; intro pb.
  - reflexivity.
  - destruct pb as [|p pb]; [reflexivity|].
    simpl. unfold vsub, vadd in *. simpl. rewrite lincomb_cons. f_equal.
    + rewrite dot_lincomb by assumption. ring.
    + apply IH.
Qed.

(** C6. [decode_sparse] is affine in its values: for fixed positions,
    value vectors [v1], [v2] of equal length that [decode_sparse]
    accepts, and scalars [a], [b], it accepts [a * v1 + b * v2], and
    the result minus [pre_bias] is [a] times (the result for [v1] minus
    [pre_bias]) plus [b] times (the result for [v2] minus [pre_bias]). *)
Theorem decode_sparse_linear m idx v1 v2 a b r1 r2 :
  length v1 = length v2 ->
  decode_sparse m idx v1 = Some r1 ->
  decode_sparse m idx v2 = Some r2 ->
  exists r,
    decode_sparse m idx (lincomb a v1 b v2) = Some r /\
    vsub r (pre_bias m) =
    lincomb a (vsub r1 (pre_bias m)) b (vsub r2 (pre_bias m)).
Proof.
  intros Hv. unfold decode_sparse.
  destruct (scatter_ (zeros (n_dirs m)) idx v1) as [l1|] eqn:E1; [|discriminate].
  destruct (scatter_ (zeros (n_dirs m)) idx v2) as [l2|] eqn:E2; [|discriminate].
  intros D1 D2.
  apply decode_row_inv in D1. destruct D1 as [L1 ->].
  apply decode_row_inv in D2. destruct D2 as [L2 ->].
  pose proof (scatter_lincomb a b idx _ _ _ _ _ _ eq_refl Hv E1 E2) as E.
  rewrite lincomb_zeros in E. rewrite E.
  exists (dense_decode m (lincomb a l1 b l2)). split.
  - apply decode_row_dense. rewrite lincomb_length; congruence.
  - apply dense_decode_lincomb. congruence.
Qed.

Lemma decode_sparse_linear_witness :
  exists r1 r2 r,
    decode_sparse identity_model [1; 0]%nat [qc 1 1; qc 2 1] = Some r1 /\
    decode_sparse identity_model [1; 0]%nat [qc 3 1; qc 4 1] = Some r2 /\
    decode_sparse identity_model [1; 0]%nat
      (lincomb (qc 2 1) [qc 1 1; qc 2 1] (qc 3 1) [qc 3 1; qc 4 1]) = Some r /\
    vsub r (pre_bias identity_model) =
    lincomb (qc 2 1) (vsub r1 (pre_bias identity_model))
            (qc 3 1) (vsub r2 (pre_bias identity_model)).
Proof.
  destruct (decode_sparse identity_model [1; 0]%nat [qc 1 1; qc 2 1]) as [r1|] eqn:E1;
    [|vm_compute in E1; discriminate].
  destruct (decode_sparse identity_model [1; 0]%nat [qc 3 1; qc 4 1]) as [r2|] eqn:E2;
    [|vm_compute in E2; discriminate].
  destruct (decode_sparse_linear identity_model [1; 0]%nat [qc 1 1; qc 2 1]
              [qc 3 1; qc 4 1] (qc 2 1) (qc 3 1) r1 r2 eq_refl E1 E2) as (r & E & H).
  exists r1, r2, r. repeat split; assumption.
Defined.

End Decoders.

(* ================================================================== *)
(** * Batched activations and the per-neuron ranking                   *)
(* ================================================================== *)

Module Activations.

Import Tensor SAE Specs TensorFacts SAEFacts Examples.
Local Open Scope Qc_scope.

Lemma mapM_concat {A B} (f : A -> option B) (ls : list (list A)) :
  mapM f (concat ls) = option_map (@concat B) (mapM (mapM f) ls).
Proof.
  induction ls as [|l ls IH]; simpl; [reflexivity|].
  rewrite mapM_app, IH.
  destruct (mapM f l); [|reflexivity].
  now destruct (mapM (mapM f) ls).
Qed.

(** The chunks cut by the loop, laid end to end, are the input from
    the first chunk's start on. *)
Lemma chunks_concat {A} (x : list A) (b : nat) :
  (0 < b)%nat ->
  forall fuel i, (length x - i <= fuel)%nat ->
    concat (map (fun j => firstn b (skipn j x)) (range_from fuel i (length x) b)) =
    skipn i x.
Proof.
  intros Hb. induction fuel as [|fuel IH]; intros i Hf; simpl.
  - symmetry. apply skipn_all2. lia.
  - destruct (Nat.ltb_spec i (length x)) as [Hi|Hi]; simpl.
    + rewrite IH by lia.
      replace (skipn (i + b) x) with (skipn b (skipn i x))
        by (rewrite skipn_skipn; f_equal; lia).
      apply firstn_skipn.
    + symmetry. apply skipn_all2. lia.
Qed.

(** For a positive chunk size, [compute_activations] is the row-wise
    activation of the whole collection; it raises on an empty one. *)
Lemma compute_activations_rowwise m x bs :
  (0 < bs)%Z ->
  compute_activations m x bs =
  match x with
  | [] => None
  | _ :: _ => mapM (activation_row m) x
  end.
Proof.
  intro Hbs. unfold compute_activations.
  destruct (Z.leb_spec bs 0); [lia|].
  set (b := Z.to_nat bs). assert (Hb : (0 < b)%nat) by (unfold b; lia).
  set (chunks := map (fun i => firstn b (skipn i x)) (range_step (length x) b)).
  assert (Hcat : concat chunks = x).
  { unfold chunks, range_step. rewrite (chunks_concat x b Hb) by lia. reflexivity. }
  pose proof (mapM_concat (activation_row m) chunks) as Hm. rewrite Hcat in Hm.
  destruct x as [|a x].
  - reflexivity.
  - rewrite Hm.
    destruct (mapM (mapM (activation_row m)) chunks) as [acts|] eqn:E; [|reflexivity].
    apply mapM_length in E.
    assert (Hne : length chunks <> 0%nat).
    { unfold chunks, range_step. simpl. discriminate. }
    destruct acts; [simpl in E; congruence|reflexivity].
Qed.

Lemma activation_row_defined m x :
  wf m = true -> length x = d_model m ->
  exists pre, encode_row m x = Some pre /\ length pre = n_dirs m /\
              activation_row m x = Some (map relu pre).
Proof.
  intros Hwf Hx. destruct (encode_row_defined m x Hwf Hx) as (pre & E & L).
  exists pre. unfold activation_row. rewrite E. auto.
Qed.

(** C7. The result of [compute_activations] does not depend on the
    chunk size: any two positive chunk sizes give the same matrix (or
    the same failure).  On a non-empty collection of [d_model]-vectors
    the matrix has one row per item, in the order of the items, each
    row the encoder output of its item clamped at zero.  In particular
    1000 items with chunk size 100 give what chunk size 1000 gives. *)
Theorem compute_activations_chunk_independent :
  (forall m x bs1 bs2, (0 < bs1)%Z -> (0 < bs2)%Z ->
     compute_activations m x bs1 = compute_activations m x bs2 /\
     (wf m = true -> x <> [] -> Forall (fun row => length row = d_model m) x ->
      exists rows,
        compute_activations m x bs1 = Some rows /\
        length rows = length x /\
        forall i, (i < length x)%nat ->
          exists pre, encode_row m (nth i x []) = Some pre /\
                      nth i rows [] = map relu pre))
  /\
  (forall m x, length x = 1000%nat ->
     compute_activations m x 100 = compute_activations m x 1000).
Proof.
  split.
  - intros m x bs1 bs2 H1 H2.
    rewrite !compute_activations_rowwise by assumption. split; [reflexivity|].
    intros Hwf Hne Hx. destruct x as [|a x]; [congruence|].
    destruct (mapM_defined (activation_row m) (fun _ => True) (a :: x))
      as (rows & Hrows & _).
    { intros row Hrow. rewrite Forall_forall in Hx.
      destruct (activation_row_defined m row Hwf (Hx row Hrow)) as (pre & _ & _ & ->).
      eauto. }
    exists rows. split; [exact Hrows|].
    split; [now apply mapM_length in Hrows|].
    intros i Hi.
    pose proof (mapM_nth_d _ _ _ i [] [] Hrows Hi) as Ei.
    rewrite Forall_forall in Hx.
    destruct (activation_row_defined m (nth i (a :: x) []) Hwf) as (pre & Ep & _ & Ea).
    { apply Hx. now apply nth_In. }
    exists pre. split; [exact Ep|].
    unfold vec in *. rewrite Ea in Ei. now inversion Ei.
  - intros m x _. now rewrite !compute_activations_rowwise by lia.
Qed.

Lemma compute_activations_chunk_independent_witness :
  (0 < 1)%Z /\ (0 < 2)%Z /\
  compute_activations scenario_model two_items 1 =
  compute_activations scenario_model two_items 2.
Proof.
  split; [lia|]. split; [lia|].
  exact (proj1 (proj1 compute_activations_chunk_independent
                      scenario_model two_items 1%Z 2%Z eq_refl eq_refl)).
Defined.

(** ** [get_topk_activations] *)

Lemma compute_activations_defined m x bs :
  wf m = true -> x <> [] -> Forall (fun row => length row = d_model m) x ->
  (0 < bs)%Z ->
  exists acts, compute_activations m x bs = Some acts /\
               length acts = length x /\
               Forall (fun row => length row = n_dirs m) acts.
Proof.
  intros Hwf Hne Hx Hbs. rewrite compute_activations_rowwise by assumption.
  destruct x as [|a x]; [congruence|].
  destruct (mapM_defined (activation_row m)
              (fun row => length row = n_dirs m) (a :: x)) as (acts & E & Hall).
  { intros row Hrow. rewrite Forall_forall in Hx.
    destruct (activation_row_defined m row Hwf (Hx row Hrow)) as (pre & _ & L & ->).
    eexists; split; [reflexivity|]. now rewrite length_map. }
  exists acts. split; [exact E|]. split; [now apply mapM_length in E|exact Hall].
Qed.

Lemma column_defined (acts : list vec) n j :
  Forall (fun row => length row = n) acts -> (j < n)%nat ->
  column j acts = Some (map (fun row => nth j row 0) acts).
Proof.
  intros Hall Hj. unfold column. apply mapM_total.
  intros row Hrow. rewrite Forall_forall in Hall.
  apply nth_error_nth'. rewrite (Hall row Hrow). exact Hj.
Qed.

Lemma StronglySorted_app {A} (R : A -> A -> Prop) l1 l2 :
  StronglySorted R l1 -> StronglySorted R l2 ->
  (forall a b, In a l1 -> In b l2 -> R a b) ->
  StronglySorted R (l1 ++ l2).
Proof.
  induction 1 as [|a l1 Hs IH Hall]; simpl; intros H2 Hc; [exact H2|].
  constructor.
  - apply IH; [exact H2|]. intros; apply Hc; auto.
  - apply Forall_app. split; [exact Hall|].
    rewrite Forall_forall. intros b Hb. apply Hc; auto.
Qed.

Lemma StronglySorted_rev {A} (R : A -> A -> Prop) l :
  StronglySorted R l -> StronglySorted (fun a b => R b a) (rev l).
Proof.
  induction 1 as [|a l Hs IH Hall]; simpl; [constructor|].
  apply StronglySorted_app; [exact IH|repeat constructor|].
  intros x y Hx [<-|[]]. rewrite Forall_forall in Hall.
  apply Hall. now apply in_rev.
Qed.

Lemma argsort_length v : length (argsort v) = length v.
Proof.
  unfold argsort. rewrite length_map.
  rewrite (Permutation_length (sort_asc_perm (enumerate v))).
  apply enumerate_length.
Qed.

(** One round of the loop for a positive budget: the [min(k, items)]
    best items of the column, best first. *)
Lemma neuron_ranking_spec m (acts : list vec) j :
  Forall (fun row => length row = n_dirs m) acts -> (j < n_dirs m)%nat ->
  (1 <= k m)%Z ->
  exists idx v,
    neuron_ranking m acts j = Some (idx, v) /\
    length idx = Z.to_nat (Z.min (k m) (Z.of_nat (length acts))) /\
    length v = Z.to_nat (Z.min (k m) (Z.of_nat (length acts))) /\
    NoDup idx /\
    Forall (fun i => (i < length acts)%nat) idx /\
    v = map (fun i => nth j (nth i acts []) 0) idx /\
    StronglySorted (fun a b => b <= a) v.
Proof.
  intros Hall Hj Hk. unfold neuron_ranking.
  rewrite (column_defined acts (n_dirs m) j Hall Hj).
  set (c := map (fun row => nth j row 0) acts).
  assert (Lc : length c = length acts) by apply length_map.
  set (kk := Z.min (k m) (Z.of_nat (length c))).
  set (sorted := fold_right insert_asc [] (enumerate c)).
  assert (Hperm : Permutation sorted (enumerate c)) by apply sort_asc_perm.
  assert (Hsorted : StronglySorted le_val sorted) by apply sort_asc_sorted.
  assert (Ls : length sorted = length c).
  { rewrite (Permutation_length Hperm). apply enumerate_length. }
  set (t := (length c - Z.to_nat kk)%nat).
  assert (Hsub : forall p, In p (skipn t sorted) -> In p (enumerate c)).
  { intros p Hp. eapply Permutation_in; [exact Hperm|].
    rewrite <- (firstn_skipn t sorted). apply in_or_app. now right. }
  assert (Hidx : rev (slice_last kk (argsort c)) = map snd (rev (skipn t sorted))).
  { unfold slice_last. destruct (Z.ltb_spec 0 kk) as [Hpos|Hnp].
    - rewrite argsort_length. fold t. unfold argsort. fold sorted.
      now rewrite skipn_map, map_rev.
    - destruct acts as [|r acts].
      + unfold t, sorted, c, argsort. simpl. now rewrite skipn_nil.
      + exfalso. unfold kk in Hnp. rewrite Lc in Hnp. simpl length in Hnp. lia. }
  rewrite Hidx.
  exists (map snd (rev (skipn t sorted))),
         (map (fun i => nth i c 0) (map snd (rev (skipn t sorted)))).
  split; [reflexivity|].
  assert (Hlen : length (rev (skipn t sorted)) = Z.to_nat kk).
  { rewrite length_rev, length_skipn, Ls. unfold t, kk. lia. }
  assert (Hvals : map fst (rev (skipn t sorted)) =
                  map (fun i => nth i c 0) (map snd (rev (skipn t sorted)))).
  { apply pairs_fst_snd. intros p Hp. apply Hsub. now apply in_rev. }
  rewrite <- Lc. fold kk.
  repeat split.
  - now rewrite length_map.
  - now rewrite !length_map.
  - rewrite map_rev. apply NoDup_rev. rewrite <- skipn_map.
    assert (Hnd : NoDup (map snd sorted)).
    { eapply Permutation_NoDup; [symmetry; apply Permutation_map; exact Hperm|].
      rewrite enumerate_snd. apply seq_NoDup. }
    rewrite <- (firstn_skipn t (map snd sorted)) in Hnd.
    now apply NoDup_app_r in Hnd.
  - rewrite Forall_forall. intros i Hi. apply in_map_iff in Hi.
    destruct Hi as ([y i'] & E & Hin). simpl in E; subst i'.
    apply in_rev, Hsub, enumerate_In in Hin.
    apply nth_error_Some. congruence.
  - rewrite !map_map. apply map_ext_in. intros [y i] Hin. simpl.
    apply in_rev, Hsub, enumerate_In in Hin.
    assert (Hi : (i < length acts)%nat).
    { rewrite <- Lc. apply nth_error_Some. congruence. }
    unfold c. apply (nth_map_lt (fun row => nth j row 0) acts i [] 0 Hi).
  - rewrite <- Hvals. apply sorted_values.
    apply (StronglySorted_rev le_val).
    rewrite <- (firstn_skipn t sorted) in Hsorted.
    now apply StronglySorted_app_r in Hsorted.
Qed.

(** For a sparsity hyperparameter of at least 1 and a non-empty
    collection, the ranking holds, for each of the [n_dirs] latent
    dimensions, exactly [min(k, num_items)] distinct item indices with
    their activation values, ordered by decreasing value. *)
Lemma get_topk_activations_ranking m x bs :
  wf m = true -> x <> [] -> Forall (fun row => length row = d_model m) x ->
  (0 < bs)%Z -> (1 <= k m)%Z ->
  exists acts idxs vals,
    compute_activations m x bs = Some acts /\
    get_topk_activations m x bs = Some (idxs, vals) /\
    length idxs = n_dirs m /\ length vals = n_dirs m /\
    forall j, (j < n_dirs m)%nat ->
      let idx := nth j idxs [] in
      let v := nth j vals [] in
      length idx = Z.to_nat (Z.min (k m) (Z.of_nat (length x))) /\
      length v = Z.to_nat (Z.min (k m) (Z.of_nat (length x))) /\
      NoDup idx /\
      Forall (fun i => (i < length x)%nat) idx /\
      v = map (fun i => nth j (nth i acts []) 0) idx /\
      StronglySorted (fun a b => b <= a) v.
Proof.
  intros Hwf Hne Hx Hbs Hk.
  destruct (compute_activations_defined m x bs Hwf Hne Hx Hbs) as (acts & E & L & Hall).
  unfold get_topk_activations. rewrite E.
  destruct (mapM_defined (neuron_ranking m acts) (fun _ => True)
              (seq 0 (n_dirs m))) as (per & Hper & _).
  { intros j Hj. apply in_seq in Hj.
    destruct (neuron_ranking_spec m acts j Hall) as (idx & v & -> & _); [lia|assumption|].
    eauto. }
  rewrite Hper. exists acts, (map fst per), (map snd per).
  pose proof (mapM_length _ _ _ Hper) as Lper. rewrite length_seq in Lper.
  split; [reflexivity|]. split; [reflexivity|]. rewrite !length_map.
  split; [exact Lper|]. split; [exact Lper|].
  intros j Hj.
  pose (d := ([] : list nat, [] : vec)).
  pose proof (mapM_nth_d _ _ _ j 0%nat d Hper) as Ej.
  rewrite length_seq, seq_nth in Ej by assumption. specialize (Ej Hj). simpl in Ej.
  destruct (neuron_ranking_spec m acts j Hall Hj Hk)
    as (idx & v & En & H1 & H2 & H3 & H4 & H5 & H6).
  rewrite En in Ej. inversion Ej as [Ed]. clear Ej.
  change (nth j (map fst per) []) with (nth j (map fst per) (fst d)).
  change (nth j (map snd per) []) with (nth j (map snd per) (snd d)).
  rewrite !map_nth, <- Ed. cbn [fst snd]. rewrite <- L.
  repeat split; assumption.
Qed.

(** C10 fails for a sparsity hyperparameter of 0: [min(0, 2) = 0] item
    indices are due for each latent dimension, but the slice [[-0:]] is
    the whole column, so both items are returned for each of the three
    dimensions (the activations are [1, 2, 3] and [2, 1, 5]). *)
Theorem get_topk_activations_zero_k :
  k zero_k_model = 0%Z /\
  length two_items = 2%nat /\
  option_map (fun r => (fst r, map to_Q (snd r)))
             (get_topk_activations zero_k_model two_items 1024) =
  Some ([[1; 0]; [0; 1]; [1; 0]]%nat,
        [[2 # 1; 1 # 1]; [2 # 1; 1 # 1]; [5 # 1; 3 # 1]]%Q).
Proof.
  split; [reflexivity|]. split; [reflexivity|]. vm_compute. reflexivity.
Qed.

End Activations.

(* ================================================================== *)
(** * The loader                                                       *)
(* ================================================================== *)

Module LoaderFacts.

Import Tensor SAE Specs LoaderSpecs Loader Examples.
Import String.
Local Open Scope string_scope.
Local Open Scope list_scope.

Lemma shape_eqb_eq a b : shape_eqb a b = true <-> a = b.
Proof.
  unfold shape_eqb. destruct (list_eq_dec Nat.eq_dec a b); split; congruence.
Qed.

Lemma fetch_ok sd name sh d :
  fetch sd name sh = Ok d <->
  exists t, lookup name sd = Some t /\ shape t = sh /\ d = data t.
Proof.
  unfold fetch. destruct (lookup name sd) as [t|].
  - destruct (shape_eqb (shape t) sh) eqn:E.
    + apply shape_eqb_eq in E. split.
      * intro H. inversion H. eauto.
      * intros (t' & Ht & _ & ->). inversion Ht. reflexivity.
    + split; [discriminate|]. intros (t' & Ht & Hs & _).
      inversion Ht as [Et]. rewrite <- Et in Hs.
      apply shape_eqb_eq in Hs. congruence.
  - split; [discriminate|]. intros (t' & Ht & _). discriminate.
Qed.

(** [load_state_dict] returns only when every entry is present with
    the declared shape, and then every tensor of the module comes from
    the checkpoint. *)
Lemma load_state_dict_ok m sd m' :
  load_state_dict m sd = Ok m' ->
  n_dirs m' = n_dirs m /\ d_model m' = d_model m /\
  k m' = k m /\ auxk m' = auxk m /\
  (forall name t, In name expected_keys -> lookup name sd = Some t ->
                  shape t = declared_shape (n_dirs m) (d_model m) name) /\
  populated_from sd m'.
Proof.
  unfold load_state_dict, bind.
  destruct (fetch sd "pre_bias" [d_model m]) as [pb|] eqn:E1; [|discriminate].
  destruct (fetch sd "latent_bias" [n_dirs m]) as [lb|] eqn:E2; [|discriminate].
  destruct (fetch sd "stats_last_nonzero" [n_dirs m]) as [st|] eqn:E3; [|discriminate].
  destruct (fetch sd "encoder.weight" [n_dirs m; d_model m]) as [ew|] eqn:E4; [|discriminate].
  destruct (fetch sd "decoder.weight" [d_model m; n_dirs m]) as [dw|] eqn:E5; [|discriminate].
  destruct (forallb _ sd); [|discriminate].
  intro H. inversion H; subst; clear H. cbn [n_dirs d_model k auxk].
  apply fetch_ok in E1, E2, E3, E4, E5.
  destruct E1 as (t1 & L1 & S1 & ->), E2 as (t2 & L2 & S2 & ->),
           E3 as (t3 & L3 & S3 & ->), E4 as (t4 & L4 & S4 & ->),
           E5 as (t5 & L5 & S5 & ->).
  repeat split.
  - intros name t Hin Ht. unfold expected_keys in Hin. simpl in Hin.
    destruct Hin as [<-|[<-|[<-|[<-|[<-|[]]]]]]; unfold declared_shape; simpl;
      congruence.
  - exists t1, t2, t3, t4, t5. cbn. repeat split; assumption.
Qed.

Lemma try_load_ok fs w0 path n d kk a model :
  try_load fs w0 path n d kk a = Ok model ->
  (0 <= n)%Z /\ (0 <= d)%Z /\
  exists sd, fs path = Pickled sd /\
             n_dirs model = Z.to_nat n /\ d_model model = Z.to_nat d /\
             k model = kk /\ auxk model = a /\
             (forall name t, In name expected_keys -> lookup name sd = Some t ->
                shape t = declared_shape (Z.to_nat n) (Z.to_nat d) name) /\
             populated_from sd model.
Proof.
  unfold try_load, bind, init, torch_load.
  destruct (Z.ltb_spec n 0) as [Hn|Hn]; [discriminate|].
  destruct (Z.ltb_spec d 0) as [Hd|Hd]; [discriminate|]. simpl orb. cbv iota.
  destruct (fs path) as [| |sd]; try discriminate.
  intro E. apply load_state_dict_ok in E. cbn [n_dirs d_model k auxk] in E.
  destruct E as (H1 & H2 & H3 & H4 & H5 & H6).
  split; [assumption|]. split; [assumption|]. exists sd. auto 10.
Qed.

Lemma reshape2_shape rows cols (d : list Qc) :
  List.length d = (rows * cols)%nat ->
  List.length (reshape2 rows cols d) = rows /\
  rows_of_length cols (reshape2 rows cols d) = true.
Proof.
  intro H. unfold reshape2. split; [now rewrite length_map, length_seq|].
  unfold rows_of_length. apply forallb_forall. intros r Hr.
  apply in_map_iff in Hr. destruct Hr as (i & <- & Hi). apply in_seq in Hi.
  apply Nat.eqb_eq. rewrite length_firstn, length_skipn, H. nia.
Qed.

Lemma to_floats_length d : List.length (to_floats d) = storage_length d.
Proof. destruct d; simpl; [reflexivity|apply length_map]. Qed.

Lemma to_longs_length d : List.length (to_longs d) = storage_length d.
Proof. destruct d; simpl; [apply length_map|reflexivity]. Qed.

(** A module populated from well-formed tensors of the declared
    shapes has tensors of the declared shapes. *)
Lemma populated_wf sd model :
  populated_from sd model ->
  (forall name t, In name expected_keys -> lookup name sd = Some t ->
     shape t = declared_shape (n_dirs model) (d_model model) name) ->
  (forall name t, lookup name sd = Some t -> tensor_ok t = true) ->
  wf model = true.
Proof.
  intros (pb & lb & st & ew & dw & L1 & L2 & L3 & L4 & L5 & F1 & F2 & F3 & F4 & F5)
         Hshape Hok.
  assert (K : forall name t, In name expected_keys -> lookup name sd = Some t ->
              storage_length (data t) =
              numel (declared_shape (n_dirs model) (d_model model) name)).
  { intros name t Hin Ht. rewrite <- (Hshape name t Hin Ht).
    apply Nat.eqb_eq. exact (Hok name t Ht). }
  pose proof (K _ _ (or_introl eq_refl) L1) as K1.
  pose proof (K _ _ (or_intror (or_introl eq_refl)) L2) as K2.
  pose proof (K _ _ (or_intror (or_intror (or_introl eq_refl))) L3) as K3.
  pose proof (K _ _ (or_intror (or_intror (or_intror (or_introl eq_refl)))) L4) as K4.
  pose proof (K _ _ (or_intror (or_intror (or_intror (or_intror (or_introl eq_refl))))) L5) as K5.
  unfold declared_shape in *. simpl in K1, K2, K3, K4, K5.
  rewrite !Nat.mul_1_r in *.
  destruct (reshape2_shape (n_dirs model) (d_model model) (to_floats (data ew)))
    as [A1 A2]; [now rewrite to_floats_length|].
  destruct (reshape2_shape (d_model model) (n_dirs model) (to_floats (data dw)))
    as [B1 B2]; [now rewrite to_floats_length|].
  unfold wf. rewrite F1, F2, F3, F4, F5, A1, A2, B1, B2.
  rewrite !to_floats_length, to_longs_length, K1, K2, K3, !Nat.eqb_refl.
  reflexivity.
Qed.

(** C8. [load_sae_model] never lets an exception out.  Either it prints
    the success line and returns a module, or it prints one error line
    and returns [None].  It returns [None] with an error line when the
    file is missing, when the file cannot be unpickled, and when some
    stored tensor has a shape other than the one the declared
    hyperparameters give it; so for a checkpoint whose
    [encoder.weight] was written for [d_model = 8] and a caller that
    declares [d_model = 4].  A returned module is never partial: all
    five tensors come from the checkpoint, with the declared shapes. *)
Theorem load_sae_model_failure_is_reported :
  (forall fs w0 path n d kk a,
     (exists model, load_sae_model fs w0 path n d kk a = ([Loaded path], Some model)) \/
     (exists e, load_sae_model fs w0 path n d kk a = ([LoadError e], None)))
  /\
  (forall fs w0 path n d kk a,
     fs path = NoFile \/ fs path = Unreadable ->
     exists e, load_sae_model fs w0 path n d kk a = ([LoadError e], None))
  /\
  (forall fs w0 path n d kk a sd name t,
     fs path = Pickled sd -> In name expected_keys -> lookup name sd = Some t ->
     shape t <> declared_shape (Z.to_nat n) (Z.to_nat d) name ->
     exists e, load_sae_model fs w0 path n d kk a = ([LoadError e], None))
  /\
  (forall fs w0 path n kk a sd t,
     fs path = Pickled sd -> lookup "encoder.weight" sd = Some t ->
     shape t = [Z.to_nat n; 8%nat] ->
     exists e, load_sae_model fs w0 path n 4 kk a = ([LoadError e], None))
  /\
  (forall fs w0 path n d kk a out model,
     load_sae_model fs w0 path n d kk a = (out, Some model) ->
     out = [Loaded path] /\
     exists sd, fs path = Pickled sd /\
                n_dirs model = Z.to_nat n /\ d_model model = Z.to_nat d /\
                k model = kk /\ auxk model = a /\
                populated_from sd model /\
                ((forall name t, lookup name sd = Some t -> tensor_ok t = true) ->
                 wf model = true)).
Proof.
  assert (Cases : forall fs w0 path n d kk a,
            (exists model, try_load fs w0 path n d kk a = Ok model /\
               load_sae_model fs w0 path n d kk a = ([Loaded path], Some model)) \/
            (exists e, load_sae_model fs w0 path n d kk a = ([LoadError e], None))).
  { intros. unfold load_sae_model.
    destruct (try_load fs w0 path n d kk a) as [model|e]; [left|right]; eauto. }
  assert (Mismatch : forall fs w0 path n d kk a sd name t,
            fs path = Pickled sd -> In name expected_keys -> lookup name sd = Some t ->
            shape t <> declared_shape (Z.to_nat n) (Z.to_nat d) name ->
            exists e, load_sae_model fs w0 path n d kk a = ([LoadError e], None)).
  { intros fs w0 path n d kk a sd name t Hfs Hin Ht Hne.
    destruct (Cases fs w0 path n d kk a) as [(model & Htry & _)|H]; [|exact H].
    exfalso. apply try_load_ok in Htry.
    destruct Htry as (_ & _ & sd' & Hfs' & _ & _ & _ & _ & Hshape & _).
    rewrite Hfs in Hfs'. inversion Hfs'; subst sd'.
    apply Hne. now apply Hshape. }
  split; [|split; [|split; [|split]]].
  - intros. destruct (Cases fs w0 path n d kk a) as [(model & _ & H)|H]; eauto.
  - intros fs w0 path n d kk a Hfs.
    destruct (Cases fs w0 path n d kk a) as [(model & Htry & _)|H]; [|exact H].
    exfalso. apply try_load_ok in Htry.
    destruct Htry as (_ & _ & sd & Hsd & _). destruct Hfs; congruence.
  - exact Mismatch.
  - intros fs w0 path n kk a sd t Hfs Ht Hshape.
    apply (Mismatch fs w0 path n 4%Z kk a sd "encoder.weight" t Hfs); auto.
    + unfold expected_keys. simpl. auto.
    + rewrite Hshape. unfold declared_shape. simpl. intro E. inversion E.
  - intros fs w0 path n d kk a out model Hload.
    destruct (Cases fs w0 path n d kk a) as [(model' & Htry & H)|(e & H)];
      rewrite H in Hload; inversion Hload; subst. split; [reflexivity|].
    apply try_load_ok in Htry.
    destruct Htry as (_ & _ & sd & Hfs & Hn & Hd & Hk & Ha & Hshape & Hpop).
    exists sd. repeat split; auto.
    intro Hok. apply (populated_wf sd model Hpop); [|exact Hok].
    rewrite Hn, Hd. exact Hshape.
Qed.

Lemma load_sae_model_failure_is_reported_witness :
  disk "model.pth" = Pickled checkpoint_d8 /\
  (exists t, lookup "encoder.weight" checkpoint_d8 = Some t /\ shape t = [3; 8]%nat) /\
  (exists e, load_sae_model disk zero_init "model.pth" 3 4 2 (Some 1%Z)
             = ([LoadError e], None)) /\
  (exists e, load_sae_model disk zero_init "missing.pth" 3 4 2 (Some 1%Z)
             = ([LoadError e], None)).
Proof.
  split; [reflexivity|]. split; [eexists; split; reflexivity|]. split.
  - exact (proj1 (proj2 (proj2 (proj2 load_sae_model_failure_is_reported)))
             disk zero_init "model.pth" 3%Z 2%Z (Some 1%Z) checkpoint_d8 _
             eq_refl eq_refl eq_refl).
  - exact (proj1 (proj2 load_sae_model_failure_is_reported)
             disk zero_init "missing.pth" 3%Z 4%Z 2%Z (Some 1%Z) (or_introl eq_refl)).
Defined.

End LoaderFacts.

(* ================================================================== *)
(** * Decoder normalization                                            *)
(* ================================================================== *)

Module NormalizeFacts.

Import Normalize.
Local Open Scope R_scope.

Lemma mapM_map {A B C} (g : A -> B) (f : B -> option C) l :
  Tensor.mapM f (map g l) = Tensor.mapM (fun a => f (g a)) l.
Proof.
  induction l as [|a l IH]; simpl; [reflexivity|]. now rewrite IH.
Qed.

Lemma sum_sq_nonneg v : 0 <= sum_sq v.
Proof.
  induction v as [|x v IH]; simpl; [lra|]. nra.
Qed.

Lemma sum_sq_scaled v n :
  n <> 0 -> sum_sq (map (fun x => x / n) v) = sum_sq v / (n * n).
Proof.
  intro Hn. induction v as [|x v IH]; simpl.
  - field. exact Hn.
  - rewrite IH. field. exact Hn.
Qed.

Lemma col_norms_nth cols W j :
  (j < cols)%nat -> nth j (col_norms cols W) 0 = sqrt (sum_sq (col j W)).
Proof.
  intro Hj. unfold col_norms.
  rewrite (TensorFacts.nth_map_lt _ (seq 0 cols) j 0%nat 0) by now rewrite length_seq.
  now rewrite seq_nth.
Qed.

Lemma zip_fdiv_nth (row norms : rvec) j :
  (j < length row)%nat -> (j < length norms)%nat ->
  nth j (Tensor.zip_with fdiv row norms) None = fdiv (nth j row 0) (nth j norms 0).
Proof.
  intros. now apply TensorFacts.zip_with_nth.
Qed.

(** C9 as the code has it.  After [unit_norm_decoder_], every column
    of [decoder.weight] (one column per latent dimension) whose norm
    was not zero has Euclidean norm exactly 1 over the reals; the
    matrix keeps its shape. *)
Theorem unit_norm_decoder_columns n (W : rmat) j :
  Forall (fun row => length row = n) W -> (j < n)%nat ->
  sqrt (sum_sq (col j W)) <> 0 ->
  col_norm_after j (unit_norm_decoder_ n W) = Some 1 /\
  length (unit_norm_decoder_ n W) = length W /\
  Forall (fun row => length row = n) (unit_norm_decoder_ n W).
Proof.
  intros Hshape Hj Hnz.
  set (N := sqrt (sum_sq (col j W))) in *.
  assert (Hlen : length (col_norms n W) = n).
  { unfold col_norms. now rewrite length_map, length_seq. }
  split; [|split].
  - unfold col_norm_after, unit_norm_decoder_, div_rows. rewrite mapM_map.
    rewrite (TensorFacts.mapM_total _ (fun row => nth j row 0 / N) W).
    + f_equal. change (map (fun row => nth j row 0 / N) W)
        with (map (fun row : rvec => (fun x => x / N) (nth j row 0)) W).
      rewrite <- (map_map (fun row : rvec => nth j row 0) (fun x => x / N)).
      change (map (fun row : rvec => nth j row 0) W) with (col j W).
      rewrite sum_sq_scaled by exact Hnz.
      unfold N. rewrite sqrt_sqrt by apply sum_sq_nonneg.
      assert (Hs : sum_sq (col j W) <> 0).
      { intro E. apply Hnz. unfold N. rewrite E. apply sqrt_0. }
      replace (sum_sq (col j W) / sum_sq (col j W)) with 1 by (field; exact Hs).
      apply sqrt_1.
    + intros row Hrow. rewrite Forall_forall in Hshape.
      rewrite zip_fdiv_nth by (rewrite ?Hlen, ?(Hshape row Hrow); exact Hj).
      rewrite col_norms_nth by exact Hj. fold N. unfold fdiv.
      destruct (Req_dec_T N 0); [contradiction|reflexivity].
  - unfold unit_norm_decoder_, div_rows. apply length_map.
  - unfold unit_norm_decoder_, div_rows. rewrite Forall_forall in *.
    intros row' Hrow'. apply in_map_iff in Hrow'. destruct Hrow' as (row & <- & Hrow).
    rewrite TensorFacts.zip_with_length, Hlen, (Hshape row Hrow). apply Nat.min_id.
Qed.

Lemma unit_norm_decoder_columns_witness :
  Forall (fun row => length row = 1%nat) [[3]; [4]] /\ (0 < 1)%nat /\
  sqrt (sum_sq (col 0 [[3]; [4]])) <> 0 /\
  col_norm_after 0 (unit_norm_decoder_ 1 [[3]; [4]]) = Some 1.
Proof.
  assert (H1 : Forall (fun row : rvec => length row = 1%nat) [[3]; [4]])
    by (repeat constructor).
  assert (H2 : sqrt (sum_sq (col 0 [[3]; [4]])) <> 0).
  { simpl. apply Rgt_not_eq. apply sqrt_lt_R0. lra. }
  split; [exact H1|]. split; [lia|]. split; [exact H2|].
  exact (proj1 (unit_norm_decoder_columns 1 [[3]; [4]] 0 H1 (Nat.lt_0_1) H2)).
Defined.

(** C9 as stated fails on a column of zeros: its norm is 0, the
    division yields values that are not finite, and the column has no
    norm 1 afterwards. *)
Lemma unit_norm_decoder_zero_column :
  col_norm_after 0 (unit_norm_decoder_ 1 [[0]]) = None /\
  col_norm_after 0 (unit_norm_decoder_ 1 [[0]]) <> Some 1.
Proof.
  assert (E : col_norm_after 0 (unit_norm_decoder_ 1 [[0]]) = None).
  { unfold col_norm_after, unit_norm_decoder_, div_rows, col_norms. simpl.
    unfold fdiv. destruct (Req_dec_T (sqrt (0 * 0 + 0)) 0) as [_|Hne]; [reflexivity|].
    exfalso. apply Hne. replace (0 * 0 + 0) with 0 by ring. apply sqrt_0. }
  split; [exact E|]. rewrite E. discriminate.
Qed.

End NormalizeFacts.

(* ================================================================== *)
(** * Further properties of the forward pass                           *)
(* ================================================================== *)

Module ForwardMore.

Import Tensor SAE Specs Passes TensorFacts SAEFacts ForwardPass Decoders.
Import Activations Examples.
Local Open Scope Qc_scope.

(** Everything a returned [forward] was built from. *)
Lemma forward_inv m x m' recons info :
  forward m x = Some (m', (recons, info)) ->
  exists pre prim ml stats' aux,
    mapM (encode_row m) x = Some pre /\
    mapM (sparse_row (k m)) pre = Some prim /\
    multik_branch m pre = Some ml /\
    update_stats (stats_last_nonzero m) (map snd (map fst prim)) = Some stats' /\
    mapM (decode_row m) (map snd prim) = Some recons /\
    decode_opt m ml = Some (multik_recons info) /\
    auxk_branch m stats' pre = Some aux /\
    m' = with_stats m stats' /\
    topk_indices info = map snd (map fst prim) /\
    topk_values info = map fst (map fst prim) /\
    auxk_indices info = option_map (map snd) aux /\
    auxk_values info = option_map (map fst) aux /\
    latents_pre_act info = pre /\
    latents_post_act info = map snd prim.
Proof.
  unfold forward.
  destruct (mapM (encode_row m) x) as [pre|] eqn:E1; [|discriminate].
  destruct (mapM (sparse_row (k m)) pre) as [prim|] eqn:E2; [|discriminate]. cbv zeta.
  destruct (multik_branch m pre) as [ml|] eqn:E3; [|discriminate].
  destruct (update_stats _ _) as [stats'|] eqn:E4; [|discriminate].
  destruct (mapM (decode_row m) (map snd prim)) as [rc|] eqn:E5; [|discriminate].
  destruct (decode_opt m ml) as [mr|] eqn:E6; [|discriminate].
  destruct (auxk_branch m stats' pre) as [aux|] eqn:E7; [|discriminate].
  intro H. inversion H; subst; clear H.
  exists pre, prim, ml, stats', aux. cbn. repeat split; auto.
Qed.

Lemma nth_prim_fields (prim : list ((vec * list nat) * vec)) i :
  nth i (map snd (map fst prim)) [] = snd (fst (nth i prim (([], []), []))) /\
  nth i (map fst (map fst prim)) [] = fst (fst (nth i prim (([], []), []))) /\
  nth i (map snd prim) [] = snd (nth i prim (([], []), [])).
Proof.
  pose (d := (([] : vec, [] : list nat), [] : vec)).
  rewrite !map_map. split; [|split].
  - exact (map_nth (fun p => snd (fst p)) prim d i).
  - exact (map_nth (fun p => fst (fst p)) prim d i).
  - exact (map_nth snd prim d i).
Qed.

(** Item by item: the pre-activation, the selection and the
    reconstruction of a returned [forward]. *)
Lemma forward_structure m x :
  forward_ready m x ->
  exists m' recons info,
    forward m x = Some (m', (recons, info)) /\
    length recons = length x /\
    length (latents_pre_act info) = length x /\
    forall i, (i < length x)%nat ->
      let pre := nth i (latents_pre_act info) [] in
      encode_row m (nth i x []) = Some pre /\
      length pre = n_dirs m /\
      sparse_row (k m) pre =
        Some ((nth i (topk_values info) [], nth i (topk_indices info) []),
              nth i (latents_post_act info) []) /\
      decode_row m (nth i (latents_post_act info) []) = Some (nth i recons []).
Proof.
  intro Hready.
  destruct (forward_returns m x Hready)
    as (pre0 & prim0 & st0 & recons & mrecons & aux0 & _ & Hpre_len & _ & _ & _ & _ & _ & Hfw).
  destruct (forward_inv _ _ _ _ _ Hfw)
    as (pre & prim & ml & stats' & aux & Hpre & Hprim & _ & _ & Hrec & _ & _ & _
        & Hti & Htv & _ & _ & Hlp & Hpost).
  cbn [latents_pre_act] in Hlp. subst pre0.
  pose proof (mapM_length _ _ _ Hpre) as Lpre.
  pose proof (mapM_length _ _ _ Hprim) as Lprim.
  pose proof (mapM_length _ _ _ Hrec) as Lrec. rewrite length_map in Lrec.
  eexists _, _, _. split; [exact Hfw|].
  rewrite Hti, Htv, Hpost. cbn [latents_pre_act].
  split; [congruence|]. split; [exact Lpre|].
  intros i Hi. cbv zeta.
  destruct (nth_prim_fields prim i) as (F1 & F2 & F3). rewrite F1, F2, F3.
  assert (Hi' : (i < length pre)%nat) by lia.
  pose proof (mapM_nth_d _ _ _ i [] [] Hpre Hi) as Ei.
  pose proof (mapM_nth_d _ _ _ i [] (([], []), []) Hprim Hi') as Es.
  assert (Hi'' : (i < length (map snd prim))%nat) by (rewrite length_map; lia).
  pose proof (mapM_nth_d _ _ _ i [] [] Hrec Hi'') as Ed.
  unfold vec in *. rewrite F3 in Ed.
  split; [exact Ei|]. split.
  - rewrite Forall_forall in Hpre_len. apply Hpre_len. now apply nth_In.
  - split; [|exact Ed]. rewrite Es.
    now destruct (nth i prim ([], [], [])) as [[a b] c].
Qed.

(** X1. What [forward] returns as reconstruction of an item is what
    [decode_sparse] returns on the item's primary code, and what
    [decode_at_k] returns on the item's pre-activation with the
    module's own [k]. *)
Theorem forward_recons_is_decode m x :
  forward_ready m x ->
  exists m' recons info,
    forward m x = Some (m', (recons, info)) /\
    length recons = length x /\
    forall i, (i < length x)%nat ->
      decode_sparse m (nth i (topk_indices info) []) (nth i (topk_values info) [])
        = Some (nth i recons []) /\
      decode_at_k m (nth i (latents_pre_act info) []) (k m) = Some (nth i recons []).
Proof.
  intro Hready. pose proof Hready as (_ & _ & Hk & _).
  destruct (forward_structure m x Hready) as (m' & recons & info & Hfw & Lr & _ & Hitems).
  exists m', recons, info. split; [exact Hfw|]. split; [exact Lr|].
  intros i Hi. destruct (Hitems i Hi) as (_ & Hlen & Hs & Hd).
  split.
  - unfold decode_sparse. unfold sparse_row in Hs.
    destruct (topk_relu (k m) _) as [sel|]; [|discriminate].
    destruct (scatter_zeros _ sel) as [out|] eqn:Hsc; [|discriminate].
    inversion Hs as [[Hsel Hout]]. subst sel.
    unfold scatter_zeros in Hsc. cbn [fst snd] in Hsc.
    rewrite Hlen, Hout in Hsc. rewrite Hsc. exact Hd.
  - unfold decode_at_k. rewrite Hlen, Z.min_l by lia. rewrite Hs. exact Hd.
Qed.

Lemma forward_recons_is_decode_witness :
  forward_ready scenario_model scenario_input /\
  exists recons info,
    option_map snd (forward scenario_model scenario_input) = Some (recons, info) /\
    decode_sparse scenario_model (nth 0 (topk_indices info) [])
                  (nth 0 (topk_values info) []) = Some (nth 0 recons []).
Proof.
  split; [exact scenario_ready|].
  destruct (forward_recons_is_decode scenario_model scenario_input scenario_ready)
    as (m' & recons & info & E & _ & H).
  exists recons, info. rewrite E. split; [reflexivity|].
  exact (proj1 (H 0%nat (Nat.lt_0_1))).
Defined.

(** X2. The multi-k reconstruction is absent exactly when [multik] is
    falsy ([None] or 0).  When it is present it holds, for each item,
    what [decode_at_k] returns on the item's pre-activation with the
    budget [4 * k]. *)
Theorem forward_multik_recons m x :
  forward_ready m x ->
  exists m' recons info,
    forward m x = Some (m', (recons, info)) /\
    (truthy (multik m) = false -> multik_recons info = None) /\
    (truthy (multik m) = true ->
     exists mr, multik_recons info = Some mr /\ length mr = length x /\
       forall i, (i < length x)%nat ->
         decode_at_k m (nth i (latents_pre_act info) []) (4 * k m)
         = Some (nth i mr [])).
Proof.
  intro Hready.
  destruct (forward_structure m x Hready) as (m' & recons & info & Hfw & _ & Lp & _).
  exists m', recons, info. split; [exact Hfw|].
  destruct (forward_inv _ _ _ _ _ Hfw)
    as (pre & prim & ml & stats' & aux & Hpre & _ & Hml & _ & _ & Hdec & _ & _
        & _ & _ & _ & _ & Hlp & _).
  rewrite Hlp in *. unfold multik_branch in Hml.
  destruct (truthy (multik m)); split; try discriminate.
  - intros _.
    destruct (mapM (fun row => sparse_row (Z.min (4 * k m) (Z.of_nat (length row))) row)
                   pre) as [r|] eqn:Hr; [|discriminate].
    inversion Hml; subst ml; clear Hml. simpl in Hdec.
    destruct (mapM (decode_row m) (map snd r)) as [mr|] eqn:Hmr; [|discriminate].
    inversion Hdec as [Hmk]. exists mr. split; [reflexivity|].
    pose proof (mapM_length _ _ _ Hr) as Lr.
    pose proof (mapM_length _ _ _ Hmr) as Lmr. rewrite length_map in Lmr.
    unfold vec in *.
    split; [lia|]. intros i Hi.
    assert (Hi1 : (i < length pre)%nat) by lia.
    pose proof (mapM_nth_d _ _ _ i [] (([], []), []) Hr Hi1) as Es. cbv beta in Es.
    assert (Hi2 : (i < length (map snd r))%nat) by (rewrite length_map; lia).
    pose proof (mapM_nth_d _ _ _ i [] [] Hmr Hi2) as Ed.
    destruct (nth_prim_fields r i) as (_ & _ & F3).
    unfold vec in *. rewrite F3 in Ed.
    unfold decode_at_k. rewrite Es.
    now destruct (nth i r ([], [], [])) as [[a b] c].
  - intros _. inversion Hml; subst ml. simpl in Hdec. now inversion Hdec.
Qed.

Lemma forward_multik_recons_witness :
  forward_ready scenario_model scenario_input /\
  truthy (multik scenario_model) = false /\
  option_map (fun r => multik_recons (snd (snd r)))
             (forward scenario_model scenario_input) = Some None.
Proof.
  split; [exact scenario_ready|]. split; [reflexivity|].
  destruct (forward_multik_recons scenario_model scenario_input scenario_ready)
    as (m' & recons & info & E & H & _).
  rewrite E. simpl. now rewrite (H eq_refl).
Defined.

Lemma with_stats_ready m x s :
  forward_ready m x -> length s = n_dirs m -> forward_ready (with_stats m s) x.
Proof.
  intros (Hwf & Hx & Hk & Ha) Hs.
  split; [|split; [exact Hx|split; [exact Hk|exact Ha]]].
  unfold wf in *. apply andb_true_iff in Hwf. destruct Hwf as [Hwf _].
  cbn [encoder decoder pre_bias latent_bias n_dirs d_model
       stats_last_nonzero with_stats].
  rewrite Hwf, Hs, Nat.eqb_refl. reflexivity.
Qed.

(** X3. The counters do not influence what [forward] computes for the
    primary code: with any other counter vector of length [n_dirs] the
    reconstruction, the selected positions and values, the dense
    pre-activation, the scattered rows and the multi-k reconstruction
    are the same.  (Only the auxiliary code reads the counters.) *)
Theorem forward_ignores_counters m x s :
  forward_ready m x -> length s = n_dirs m ->
  exists m1 m2 recons i1 i2,
    forward m x = Some (m1, (recons, i1)) /\
    forward (with_stats m s) x = Some (m2, (recons, i2)) /\
    topk_indices i1 = topk_indices i2 /\
    topk_values i1 = topk_values i2 /\
    latents_pre_act i1 = latents_pre_act i2 /\
    latents_post_act i1 = latents_post_act i2 /\
    multik_recons i1 = multik_recons i2.
Proof.
  intros Hready Hs.
  destruct (forward_returns m x Hready)
    as (? & ? & ? & r1 & ? & ? & _ & _ & _ & _ & _ & _ & _ & Hf1).
  destruct (forward_returns _ x (with_stats_ready m x s Hready Hs))
    as (? & ? & ? & r2 & ? & ? & _ & _ & _ & _ & _ & _ & _ & Hf2).
  destruct (forward_inv _ _ _ _ _ Hf1)
    as (pre & prim & ml & st & aux & A1 & A2 & A3 & _ & A5 & A6 & _ & _
        & A9 & A10 & _ & _ & A13 & A14).
  destruct (forward_inv _ _ _ _ _ Hf2)
    as (pre' & prim' & ml' & st' & aux' & B1 & B2 & B3 & _ & B5 & B6 & _ & _
        & B9 & B10 & _ & _ & B13 & B14).
  change (encode_row (with_stats m s)) with (encode_row m) in B1.
  change (k (with_stats m s)) with (k m) in B2.
  change (multik_branch (with_stats m s)) with (multik_branch m) in B3.
  change (decode_row (with_stats m s)) with (decode_row m) in B5.
  change (decode_opt (with_stats m s)) with (decode_opt m) in B6.
  assert (E1 : pre' = pre) by congruence. subst pre'.
  assert (E2 : prim' = prim) by congruence. subst prim'.
  assert (E3 : ml' = ml) by congruence. subst ml'.
  assert (Hr : r2 = r1) by congruence. subst r2.
  eexists _, _, r1, _, _. split; [exact Hf1|]. split; [exact Hf2|].
  repeat split; congruence.
Qed.

Lemma forward_ignores_counters_witness :
  forward_ready scenario_model scenario_input /\
  length [300; 0; 7]%Z = n_dirs scenario_model /\
  option_map (fun r => fst (snd r)) (forward scenario_model scenario_input) =
  option_map (fun r => fst (snd r))
             (forward (with_stats scenario_model [300; 0; 7]%Z) scenario_input).
Proof.
  split; [exact scenario_ready|]. split; [reflexivity|].
  destruct (forward_ignores_counters scenario_model scenario_input [300; 0; 7]%Z
              scenario_ready eq_refl)
    as (m1 & m2 & recons & i1 & i2 & E1 & E2 & _).
  now rewrite E1, E2.
Defined.

(** X4. [forward] raises on every non-empty batch of [d_model]-vectors
    when [k] is negative or larger than [n_dirs]: the primary [topk]
    is called with [k] itself, not with [min(k, n_dirs)]. *)
Theorem forward_rejects_bad_k m x :
  wf m = true -> x <> [] -> Forall (fun row => length row = d_model m) x ->
  (k m < 0 \/ Z.of_nat (n_dirs m) < k m)%Z ->
  forward m x = None.
Proof.
  intros Hwf Hne Hx Hk. unfold forward.
  destruct (encode_batch_defined m x Hwf Hx) as (pre & -> & Lpre & Hpre).
  destruct pre as [|p pre]; [destruct x; [congruence|discriminate]|].
  inversion Hpre as [|? ? Hp _]; subst.
  assert (E : sparse_row (k m) p = None).
  { unfold sparse_row, topk_relu, topk. rewrite Hp.
    destruct Hk as [Hk|Hk].
    - destruct (Z.ltb_spec (k m) 0); [reflexivity|lia].
    - destruct (Z.ltb_spec (k m) 0); [reflexivity|].
      destruct (Z.ltb_spec (Z.of_nat (n_dirs m)) (k m)); [reflexivity|lia]. }
  simpl. now rewrite E.
Qed.

Lemma forward_rejects_bad_k_witness :
  wf identity_model = true /\ [[qc 1 1; qc 2 1]] <> [] /\
  Forall (fun row => length row = d_model identity_model) [[qc 1 1; qc 2 1]] /\
  forward (mkSAE 2 2 3 None None 266 (encoder identity_model) (decoder identity_model)
                 (zeros 2) (zeros 2) [0; 0]%Z) [[qc 1 1; qc 2 1]] = None.
Proof.
  split; [reflexivity|]. split; [discriminate|]. split; [repeat constructor|].
  apply forward_rejects_bad_k.
  - reflexivity.
  - discriminate.
  - repeat constructor.
  - right. simpl. lia.
Defined.

Lemma mapM_option_map {A B C} (f : A -> option B) (g : B -> C) l r :
  mapM f l = Some r -> mapM (fun a => option_map g (f a)) l = Some (map g r).
Proof.
  revert r. induction l as [|a l IH]; simpl; intros r H.
  - inversion H. reflexivity.
  - destruct (f a); [|discriminate]. destruct (mapM f l); [|discriminate].
    inversion H; subst. simpl. now rewrite (IH _ eq_refl).
Qed.

(** X5. The activation matrix of [compute_activations] and the
    dictionary of [forward] agree: each row of the matrix is the dense
    pre-activation [forward] reports for that item, clamped at zero,
    and the values of the item's primary code are the entries of that
    row at the selected positions. *)
Theorem forward_values_are_activations m x bs :
  forward_ready m x -> x <> [] -> (0 < bs)%Z ->
  exists m' recons info acts,
    forward m x = Some (m', (recons, info)) /\
    compute_activations m x bs = Some acts /\
    acts = map (map relu) (latents_pre_act info) /\
    forall i, (i < length x)%nat ->
      nth i (topk_values info) [] =
      map (fun j => nth j (nth i acts []) 0) (nth i (topk_indices info) []).
Proof.
  intros Hready Hne Hbs.
  destruct (forward_structure m x Hready) as (m' & recons & info & Hfw & _ & Lp & Hitems).
  destruct (forward_inv _ _ _ _ _ Hfw)
    as (pre & prim & ml & stats' & aux & Hpre & _ & _ & _ & _ & _ & _ & _
        & _ & _ & _ & _ & Hlp & _).
  exists m', recons, info, (map (map relu) (latents_pre_act info)).
  split; [exact Hfw|]. split; [|split; [reflexivity|]].
  - rewrite compute_activations_rowwise by assumption.
    destruct x as [|a x]; [congruence|]. rewrite Hlp.
    unfold activation_row. now apply mapM_option_map.
  - intros i Hi. destruct (Hitems i Hi) as (_ & _ & Hs & _).
    pose proof (sparse_row_post _ _ _ _ _ Hs) as P.
    rewrite (sp_vals _ _ _ _ _ P).
    change (@nil Qc) with (map relu []) at 2. rewrite map_nth.
    apply map_ext. intro j. symmetry.
    exact (map_nth relu (nth i (latents_pre_act info) []) 0 j).
Qed.

Lemma forward_values_are_activations_witness :
  forward_ready scenario_model scenario_input /\ scenario_input <> [] /\ (0 < 8)%Z /\
  exists info acts,
    option_map (fun r => snd (snd r)) (forward scenario_model scenario_input) = Some info /\
    compute_activations scenario_model scenario_input 8 = Some acts /\
    acts = map (map relu) (latents_pre_act info).
Proof.
  split; [exact scenario_ready|]. split; [discriminate|]. split; [lia|].
  destruct (forward_values_are_activations scenario_model scenario_input 8
              scenario_ready ltac:(discriminate) eq_refl)
    as (m' & recons & info & acts & E & Ec & Ha & _).
  exists info, acts. rewrite E. auto.
Defined.

End ForwardMore.

(* ================================================================== *)
(** * The dead-step counters over one and several passes               *)
(* ================================================================== *)

Module Counters.

Import Tensor SAE Specs Passes TensorFacts SAEFacts ForwardPass ForwardMore Examples.
Local Open Scope Qc_scope.

Lemma selected_In j info :
  selected j info = true <-> In j (concat (topk_indices info)).
Proof.
  unfold selected. rewrite existsb_exists. split.
  - intros (i & Hi & E). apply Nat.eqb_eq in E. now subst.
  - intro H. exists j. split; [exact H|apply Nat.eqb_refl].
Qed.

(** One pass, counter by counter. *)
Lemma forward_ticks m x :
  forward_ready m x ->
  exists m' recons info,
    forward m x = Some (m', (recons, info)) /\
    m' = with_stats m (stats_last_nonzero m') /\
    length (stats_last_nonzero m') = n_dirs m /\
    forall j, (j < n_dirs m)%nat ->
      nth j (stats_last_nonzero m') 0%Z =
      tick (nth j (stats_last_nonzero m) 0%Z) (selected j info).
Proof.
  intro Hready.
  destruct (forward_returns m x Hready)
    as (pre & prim & stats' & recons & mrecons & aux & _ & _ & _ & _ & Hlen & Hst & _ & Hfw).
  eexists _, _, _. split; [exact Hfw|]. split; [reflexivity|].
  split; [exact Hlen|]. intros j Hj. cbn [stats_last_nonzero with_stats].
  destruct (Hst j Hj) as [Hin Hout]. unfold tick.
  destruct (selected j _) eqn:Es.
  - apply Hin. apply selected_In in Es. exact Es.
  - apply Hout. intro H.
    assert (Et : selected j
                   (mkInfo (map snd (map fst prim)) (map fst (map fst prim)) mrecons
                           (option_map (map snd) aux) (option_map (map fst) aux)
                           pre (map snd prim)) = true)
      by (apply selected_In; exact H).
    congruence.
Qed.

(** X6. With a threshold that is not negative, a latent dimension
    selected in the batch is not dead after the pass, and a dimension
    that was not selected is dead after the pass exactly when its
    counter had reached the threshold before the pass. *)
Theorem forward_dead_after_pass m x :
  forward_ready m x -> (0 <= dead_steps_threshold m)%Z ->
  exists m' recons info,
    forward m x = Some (m', (recons, info)) /\
    forall j, (j < n_dirs m)%nat ->
      (selected j info = true -> ~ dead m' j) /\
      (selected j info = false ->
       (- 2 ^ 63 <= nth j (stats_last_nonzero m) 0 < 2 ^ 63 - 1)%Z ->
       (dead m' j <-> (dead_steps_threshold m <= nth j (stats_last_nonzero m) 0)%Z)).
Proof.
  intros Hready Hthr.
  destruct (forward_ticks m x Hready) as (m' & recons & info & Hfw & Hm & _ & Ht).
  exists m', recons, info. split; [exact Hfw|]. intros j Hj.
  specialize (Ht j Hj). unfold dead. rewrite Ht.
  replace (dead_steps_threshold m') with (dead_steps_threshold m) by (rewrite Hm; reflexivity).
  split; intro Hs; rewrite Hs; unfold tick.
  - lia.
  - intro Hr. rewrite (add64_small _ Hr). lia.
Qed.

Lemma forward_dead_after_pass_witness :
  forward_ready scenario_model scenario_input /\
  (0 <= dead_steps_threshold scenario_model)%Z /\
  exists m' info,
    option_map (fun r => (fst r, snd (snd r))) (forward scenario_model scenario_input)
      = Some (m', info) /\
    selected 1 info = true /\ ~ dead m' 1.
Proof.
  split; [exact scenario_ready|]. split; [simpl; lia|].
  destruct (forward_dead_after_pass scenario_model scenario_input scenario_ready
              ltac:(simpl; lia)) as (m' & recons & info & E & H).
  exists m', info. rewrite E. split; [reflexivity|].
  assert (Hs : selected 1 info = true).
  { revert E. vm_compute. intro E. inversion E. reflexivity. }
  split; [exact Hs|]. apply (proj1 (H 1%nat ltac:(simpl; lia)) Hs).
Defined.

Lemma ready_after m x x' m' r :
  forward_ready m x -> forward m x = Some (m', r) ->
  Forall (fun row => length row = d_model m) x' ->
  forward_ready m' x' /\ n_dirs m' = n_dirs m /\ d_model m' = d_model m.
Proof.
  intros Hready Hfw Hx'.
  destruct (forward_ticks m x Hready) as (m1 & recons & info & Hfw1 & Hm & Hlen & _).
  rewrite Hfw in Hfw1. inversion Hfw1; subst m1. rewrite Hm.
  split; [|split; reflexivity].
  apply with_stats_ready; [|exact Hlen].
  destruct Hready as (Hwf & _ & Hk & Ha).
  split; [exact Hwf|split; [exact Hx'|split; [exact Hk|exact Ha]]].
Qed.

(** Several passes, counter by counter. *)
Lemma forward_seq_ticks xs :
  forall m,
    wf m = true ->
    Forall (Forall (fun row => length row = d_model m)) xs ->
    (0 <= k m <= Z.of_nat (n_dirs m))%Z ->
    match auxk m with Some a => (0 <= a)%Z | None => True end ->
    exists m' infos,
      forward_seq m xs = Some (m', infos) /\
      length infos = length xs /\
      forall j, (j < n_dirs m)%nat ->
        nth j (stats_last_nonzero m') 0%Z =
        fold_left tick (map (selected j) infos) (nth j (stats_last_nonzero m) 0%Z).
Proof.
  induction xs as [|x xs IH]; intros m Hwf Hxs Hk Ha.
  - exists m, []. simpl. auto.
  - inversion Hxs as [|? ? Hx Hrest]; subst.
    assert (Hready : forward_ready m x)
      by (split; [exact Hwf|split; [exact Hx|split; [exact Hk|exact Ha]]]).
    destruct (forward_ticks m x Hready) as (m1 & recons & info & Hfw & Hm & Hlen & Ht).
    assert (Hready1 : forward_ready m1 x /\ n_dirs m1 = n_dirs m /\ d_model m1 = d_model m).
    { eapply ready_after; eauto. }
    destruct Hready1 as ((Hwf1 & _ & Hk1 & Ha1) & Hn & Hd).
    destruct (IH m1 Hwf1) as (m' & infos & Hseq & Hl & Hj); auto.
    { now rewrite Hd. }
    exists m', (info :: infos). simpl. rewrite Hfw, Hseq.
    split; [reflexivity|]. split; [now rewrite Hl|].
    intros j Hlt. rewrite Hj by lia. now rewrite (Ht j Hlt).
Qed.

Lemma fold_tick_fresh flags :
  (Z.of_nat (length flags) < 2 ^ 63)%Z ->
  fold_left tick flags 0%Z = Z.of_nat (trailing_idle flags).
Proof.
  unfold trailing_idle.
  induction flags as [|b flags IH] using rev_ind; intro Hlen; [reflexivity|].
  rewrite fold_left_app, rev_unit. simpl.
  rewrite length_app in Hlen. simpl in Hlen.
  destruct b; simpl; [reflexivity|].
  rewrite IH by lia.
  assert (Hb : (leading_false (rev flags) <= length flags)%nat).
  { rewrite <- length_rev. generalize (rev flags). intro l.
    induction l as [|[|] l IHl]; simpl; lia. }
  rewrite add64_small by lia. lia.
Qed.

(** X7. On a module whose counters are all 0 (as [__init__] leaves
    them), after any sequence of fewer than [2^63] forward passes the
    counter of a latent dimension is the number of most recent passes
    in a row in which the dimension was not selected. *)
Theorem forward_seq_counter_is_idle_time m xs :
  wf m = true ->
  Forall (Forall (fun row => length row = d_model m)) xs ->
  (0 <= k m <= Z.of_nat (n_dirs m))%Z ->
  match auxk m with Some a => (0 <= a)%Z | None => True end ->
  Forall (fun c => c = 0%Z) (stats_last_nonzero m) ->
  (Z.of_nat (length xs) < 2 ^ 63)%Z ->
  exists m' infos,
    forward_seq m xs = Some (m', infos) /\
    length infos = length xs /\
    forall j, (j < n_dirs m)%nat ->
      nth j (stats_last_nonzero m') 0%Z =
      Z.of_nat (trailing_idle (map (selected j) infos)).
Proof.
  intros Hwf Hxs Hk Ha Hfresh Hlen.
  destruct (forward_seq_ticks xs m Hwf Hxs Hk Ha) as (m' & infos & Hseq & Hl & Hj).
  exists m', infos. split; [exact Hseq|]. split; [exact Hl|].
  intros j Hlt. rewrite (Hj j Hlt).
  assert (H0 : nth j (stats_last_nonzero m) 0%Z = 0%Z).
  { rewrite Forall_forall in Hfresh. apply Hfresh. apply nth_In.
    destruct (wf_inv m Hwf) as (_ & _ & _ & _ & Hs). lia. }
  rewrite H0. apply fold_tick_fresh. now rewrite length_map, Hl.
Qed.

Lemma forward_seq_counter_is_idle_time_witness :
  exists m' infos,
    forward_seq scenario_model [scenario_input; scenario_input] = Some (m', infos) /\
    stats_last_nonzero m' = [0; 0; 2]%Z /\
    nth 2 (stats_last_nonzero m') 0%Z =
    Z.of_nat (trailing_idle (map (selected 2) infos)).
Proof.
  destruct (forward_seq_counter_is_idle_time scenario_model
              [scenario_input; scenario_input])
    as (m' & infos & E & _ & H).
  - reflexivity.
  - repeat constructor.
  - simpl. lia.
  - simpl. lia.
  - repeat constructor.
  - simpl. lia.
  - exists m', infos. split; [exact E|]. split.
    + revert E. vm_compute. intro E. inversion E. reflexivity.
    + apply H. simpl. lia.
Defined.

(** X8. With a threshold that is not negative, the auxiliary code
    never revives a dimension that fired in the same pass: every
    auxiliary pair with a positive value sits on a latent dimension
    that no item of the batch selected in its primary code. *)
Theorem aux_positive_not_primary m x a :
  forward_ready m x -> auxk m = Some a -> (0 <= dead_steps_threshold m)%Z ->
  exists m' recons info ai av,
    forward m x = Some (m', (recons, info)) /\
    auxk_indices info = Some ai /\ auxk_values info = Some av /\
    length ai = length x /\
    forall i t, (i < length x)%nat -> (t < length (nth i ai []))%nat ->
      0 < nth t (nth i av []) 0 ->
      selected (nth t (nth i ai []) 0%nat) info = false.
Proof.
  intros Hready Ha Hthr.
  destruct (forward_ticks m x Hready) as (m' & recons & info & Hfw & Hm & Hlen & Ht).
  destruct (forward_inv _ _ _ _ _ Hfw)
    as (pre & prim & ml & stats' & aux & Hpre & _ & _ & _ & _ & _ & Haux & Hm'
        & _ & _ & Hai & Hav & _ & _).
  assert (Hst : stats_last_nonzero m' = stats') by (rewrite Hm'; reflexivity).
  rewrite auxk_branch_unfold, Ha in Haux.
  destruct (mapM (aux_row m stats' a) pre) as [asel|] eqn:Hsel; [|discriminate].
  inversion Haux; subst aux; clear Haux. cbn [option_map] in Hai, Hav.
  exists m', recons, info, (map snd asel), (map fst asel).
  split; [exact Hfw|]. split; [exact Hai|]. split; [exact Hav|].
  pose proof (mapM_length _ _ _ Hsel) as Lsel.
  pose proof (mapM_length _ _ _ Hpre) as Lpre.
  split; [rewrite length_map; congruence|].
  intros i t Hi Htl Hpos.
  destruct (encode_batch_defined m x (proj1 Hready) (proj1 (proj2 Hready)))
    as (pre' & Hpre' & _ & Hpre_len).
  assert (pre' = pre) by congruence. subst pre'.
  assert (Hi' : (i < length pre)%nat) by lia.
  pose (d := ([] : vec, [] : list nat)).
  pose proof (mapM_nth_d _ _ _ i [] d Hsel Hi') as Es.
  change (nth i (map snd asel) []) with (nth i (map snd asel) (snd d)) in *.
  change (nth i (map fst asel) []) with (nth i (map fst asel) (fst d)) in *.
  rewrite map_nth in Htl, Hpos |- *.
  destruct (nth i asel d) as [vals idx]. cbn [fst snd] in *.
  unfold aux_row in Es. cbv zeta in Es. unfold vec in *.
  assert (Hrow : length (nth i pre []) = n_dirs m).
  { rewrite Forall_forall in Hpre_len. apply Hpre_len. now apply nth_In. }
  assert (Hmlen : length (vmul (nth i pre []) (dead_mask m stats')) = n_dirs m).
  { unfold vmul, dead_mask. rewrite zip_with_length, length_map, Hrow, <- Hst, Hlen.
    apply Nat.min_id. }
  destruct (topk_relu_spec _ _ _ _ Es) as (_ & _ & _ & Hrange & Hvals & _ & _).
  rewrite Hmlen in Hrange.
  set (j := nth t idx 0%nat).
  assert (Hj : (j < n_dirs m)%nat).
  { rewrite Forall_forall in Hrange. apply Hrange. now apply nth_In. }
  assert (Hv : nth t vals 0 = relu (nth j (vmul (nth i pre []) (dead_mask m stats')) 0)).
  { rewrite Hvals.
    exact (nth_map_lt (fun j => relu (nth j (vmul (nth i pre []) (dead_mask m stats')) 0))
                      idx t 0%nat 0 Htl). }
  rewrite Hv, masked_nth in Hpos by (rewrite ?Hrow, <- ?Hst, ?Hlen; exact Hj).
  destruct (Z.ltb_spec (dead_steps_threshold m) (nth j stats' 0%Z)) as [Hd|Hd].
  - destruct (selected j info) eqn:Es'; [|reflexivity].
    exfalso. specialize (Ht j Hj). rewrite Hst, Es' in Ht. simpl in Ht. lia.
  - exfalso. rewrite relu_zero in Hpos. revert Hpos. apply Qcle_not_lt, Qcle_refl.
Qed.

Lemma stale_ready : forward_ready stale_model scenario_input.
Proof.
  repeat split; simpl; try lia; repeat constructor.
Qed.

Lemma aux_positive_not_primary_witness :
  forward_ready stale_model scenario_input /\
  auxk stale_model = Some 1%Z /\
  (0 <= dead_steps_threshold stale_model)%Z /\
  exists info av,
    option_map (fun r => snd (snd r)) (forward stale_model scenario_input) = Some info /\
    auxk_indices info = Some [[0%nat]] /\ auxk_values info = Some av /\
    0 < nth 0 (nth 0 av []) 0 /\
    selected 0 info = false.
Proof.
  split; [exact stale_ready|]. split; [reflexivity|]. split; [simpl; lia|].
  destruct (aux_positive_not_primary stale_model scenario_input 1
              stale_ready eq_refl ltac:(simpl; lia))
    as (m' & recons & info & ai & av & E & Ei & Ev & L & H).
  exists info, av. rewrite E. split; [reflexivity|].
  assert (Hai : ai = [[0%nat]]).
  { revert E Ei. vm_compute. intros E Ei. inversion E; subst. now inversion Ei. }
  assert (Hpos : 0 < nth 0 (nth 0 av []) 0).
  { revert E Ev. vm_compute. intros E Ev. inversion E; subst. inversion Ev; subst.
    reflexivity. }
  subst ai. split; [exact Ei|]. split; [exact Ev|]. split; [exact Hpos|].
  exact (H 0%nat 0%nat (Nat.lt_0_1) (Nat.lt_0_1) Hpos).
Defined.

End Counters.

(* ================================================================== *)
(** * Further properties of the decoders                               *)
(* ================================================================== *)

Module DecodersMore.

Import Tensor SAE Specs Passes TensorFacts SAEFacts Decoders Examples.
Local Open Scope Qc_scope.

Lemma scatter_defined_iff {A} idx (dst src : list A) :
  (exists r, scatter_ dst idx src = Some r) <->
  Forall (fun i => (i < length dst)%nat) idx /\ (length idx <= length src)%nat.
Proof.
  revert dst src. induction idx as [|i idx IH]; intros dst src; simpl.
  - split; [intros _; split; [constructor|lia]|eauto].
  - destruct src as [|s src].
    + split; [intros (r & H); discriminate|]. intros [_ H]. simpl in H. lia.
    + destruct (Nat.ltb_spec i (length dst)) as [Hi|Hi].
      * rewrite IH, set_nth_length. simpl. split.
        -- intros [H1 H2]. split; [now constructor|lia].
        -- intros [H1 H2]. inversion H1; subst. split; [assumption|lia].
      * split; [intros (r & H); discriminate|].
        intros [H _]. inversion H; subst. lia.
Qed.

(** X9. [decode_sparse] returns exactly when every index is below
    [n_dirs] and there are at least as many values as indices; any
    index out of range, or a value vector that is too short, raises. *)
Theorem decode_sparse_defined_iff m idx vals :
  (exists r, decode_sparse m idx vals = Some r) <->
  Forall (fun i => (i < n_dirs m)%nat) idx /\ (length idx <= length vals)%nat.
Proof.
  pose proof (scatter_defined_iff idx (zeros (n_dirs m)) vals) as Hsc.
  rewrite zeros_length in Hsc. rewrite <- Hsc. clear Hsc.
  unfold decode_sparse. split.
  - intros (r & H). destruct (scatter_ _ idx vals) as [l|]; [eauto|discriminate].
  - intros (l & H). rewrite H.
    apply decode_row_defined. rewrite (scatter_length _ _ _ _ H). apply zeros_length.
Qed.

Lemma dot_zeros row n : dot row (zeros n) = 0.
Proof.
  revert n. induction row as [|w row IH]; intros [|n]; try reflexivity.
  change (zeros (S n)) with (0 :: zeros n). unfold dot in *. simpl.
  rewrite IH. ring.
Qed.

Lemma dot_set_nth row dst i s :
  (i < length dst)%nat ->
  dot row (set_nth i s dst) = dot row dst + nth i row 0 * (s - nth i dst 0).
Proof.
  revert dst i. induction row as [|w row IH]; intros dst i Hi.
  - unfold dot. destruct dst, i; simpl; ring.
  - destruct dst as [|y dst]; [simpl in Hi; lia|].
    destruct i as [|i]; unfold dot in *; simpl.
    + ring.
    + rewrite IH by (simpl in Hi; lia). ring.
Qed.

Lemma dot_scatter row idx :
  forall dst vals l,
    NoDup idx -> (forall i, In i idx -> nth i dst 0 = 0) ->
    scatter_ dst idx vals = Some l ->
    dot row l = dot row dst + weighted_columns row idx vals.
Proof.
  induction idx as [|i idx IH]; intros dst vals l Hnd Hz; simpl.
  - intro H. inversion H; subst. unfold weighted_columns. simpl. ring.
  - destruct vals as [|s vals]; [discriminate|].
    destruct (Nat.ltb_spec i (length dst)) as [Hi|Hi]; [|discriminate].
    intro H. inversion Hnd as [|? ? Hni Hnd']; subst.
    assert (Hz' : forall j, In j idx -> nth j (set_nth i s dst) 0 = 0).
    { intros j Hj. rewrite set_nth_other; [apply Hz; now right|].
      intro; subst; contradiction. }
    rewrite (IH _ _ _ Hnd' Hz' H).
    rewrite (dot_set_nth _ _ _ _ Hi), (Hz i (or_introl eq_refl)).
    unfold weighted_columns. simpl. ring.
Qed.

(** X10. For pairwise distinct indices, [decode_sparse] returns
    [pre_bias] plus the sum of the selected columns of
    [decoder.weight] weighted by the values. *)
Theorem decode_sparse_is_column_sum m idx vals r :
  NoDup idx -> decode_sparse m idx vals = Some r ->
  r = vadd (map (fun row => weighted_columns row idx vals) (decoder m)) (pre_bias m).
Proof.
  intros Hnd. unfold decode_sparse.
  destruct (scatter_ (zeros (n_dirs m)) idx vals) as [l|] eqn:E; [|discriminate].
  intro H. apply decode_row_inv in H. destruct H as [_ ->].
  unfold dense_decode. f_equal. apply map_ext. intro row.
  assert (Hz : forall i, In i idx -> nth i (zeros (n_dirs m)) 0 = 0)
    by (intros i _; apply zeros_nth).
  rewrite (dot_scatter row idx _ _ _ Hnd Hz E), dot_zeros. ring.
Qed.

Lemma decode_sparse_is_column_sum_witness :
  NoDup [1; 0]%nat /\
  exists r, decode_sparse identity_model [1; 0]%nat [qc 5 1; qc 7 1] = Some r /\
            to_Q r = [7 # 1; 5 # 1]%Q /\
            r = vadd (map (fun row => weighted_columns row [1; 0]%nat [qc 5 1; qc 7 1])
                          (decoder identity_model)) (pre_bias identity_model).
Proof.
  assert (Hnd : NoDup [1; 0]%nat).
  { repeat constructor; simpl; intuition discriminate. }
  split; [exact Hnd|].
  destruct (decode_sparse identity_model [1; 0]%nat [qc 5 1; qc 7 1]) as [r|] eqn:E;
    [|vm_compute in E; discriminate].
  exists r. split; [reflexivity|]. split.
  - revert E. vm_compute. intro E. inversion E. reflexivity.
  - exact (decode_sparse_is_column_sum identity_model _ _ r Hnd E).
Defined.

Lemma dense_decode_zeros m :
  wf m = true -> dense_decode m (zeros (n_dirs m)) = pre_bias m.
Proof.
  intro Hwf. destruct (wf_inv m Hwf) as (_ & Hd & Hpb & _).
  unfold dense_decode. rewrite <- Hpb in Hd. revert Hd.
  generalize (pre_bias m) as pb. induction (decoder m) as [|row W IH]; intros [|p pb] H;
    try discriminate; [reflexivity|].
  simpl. unfold vadd in *. simpl. rewrite dot_zeros.
  f_equal; [ring|]. apply IH. simpl in H. lia.
Qed.

(** X11. The budget of [decode_at_k]: a negative budget raises; a
    budget of 0 reconstructs [pre_bias]; a budget of [n_dirs] or more
    gives what the budget [n_dirs] gives. *)
Theorem decode_at_k_budget m v :
  (forall kk, (kk < 0)%Z -> decode_at_k m v kk = None) /\
  (wf m = true -> length v = n_dirs m -> decode_at_k m v 0 = Some (pre_bias m)) /\
  (forall kk, (Z.of_nat (n_dirs m) <= kk)%Z -> length v = n_dirs m ->
              decode_at_k m v kk = decode_at_k m v (Z.of_nat (n_dirs m))).
Proof.
  split; [|split].
  - intros kk Hk. unfold decode_at_k, sparse_row, topk_relu, topk.
    rewrite Z.min_l by lia.
    destruct (Z.ltb_spec kk 0); [reflexivity|lia].
  - intros Hwf Hv. unfold decode_at_k. rewrite Z.min_l by lia.
    destruct (sparse_row_spec 0 v) as (vals & idx & out & -> & P); [lia|].
    assert (Hidx : idx = []).
    { pose proof (sp_len_idx _ _ _ _ _ P) as L. simpl in L.
      now destruct idx. }
    assert (Hout : out = zeros (n_dirs m)).
    { apply nth_ext with (d := 0) (d' := 0).
      - rewrite (sp_out_len _ _ _ _ _ P), zeros_length. exact Hv.
      - intros i _. rewrite zeros_nth. apply (sp_out_notin _ _ _ _ _ P).
        rewrite Hidx. intros []. }
    rewrite Hout, decode_row_dense by apply zeros_length.
    now rewrite dense_decode_zeros.
  - intros kk Hk Hv. unfold decode_at_k. rewrite Hv, Z.min_r, Z.min_id by lia.
    reflexivity.
Qed.

Lemma decode_at_k_budget_witness :
  (-1 < 0)%Z /\ wf identity_model = true /\
  length [qc 3 1; qc 4 1] = n_dirs identity_model /\
  decode_at_k identity_model [qc 3 1; qc 4 1] (-1) = None /\
  decode_at_k identity_model [qc 3 1; qc 4 1] 0 = Some (pre_bias identity_model) /\
  decode_at_k identity_model [qc 3 1; qc 4 1] 5 =
  decode_at_k identity_model [qc 3 1; qc 4 1] 2.
Proof.
  destruct (decode_at_k_budget identity_model [qc 3 1; qc 4 1]) as (H1 & H2 & H3).
  split; [lia|]. split; [reflexivity|]. split; [reflexivity|].
  split; [apply H1; lia|]. split; [apply H2; reflexivity|].
  apply (H3 5%Z); [simpl; lia|reflexivity].
Defined.

End DecodersMore.

(* ================================================================== *)
(** * Further properties of the batched activations and the ranking    *)
(* ================================================================== *)

Module ActivationsMore.

Import Tensor SAE Specs TensorFacts SAEFacts Activations Examples.
Local Open Scope Qc_scope.

Lemma mapM_defined_iff {A B} (f : A -> option B) l :
  (exists r, mapM f l = Some r) <-> Forall (fun a => exists b, f a = Some b) l.
Proof.
  induction l as [|a l IH]; simpl.
  - split; [constructor|eauto].
  - split.
    + intros (r & H). destruct (f a) as [b|] eqn:E; [|discriminate].
      destruct (mapM f l) as [bs|]; [|discriminate].
      constructor; [eauto|]. apply IH. eauto.
    + intro H. inversion H as [|? ? (b & Hb) Hl]; subst.
      apply IH in Hl. destruct Hl as (bs & Hbs). rewrite Hb, Hbs. eauto.
Qed.

Lemma broadcast_single (a : Qc) (pb : vec) :
  map (Qcminus a) pb = zip_with Qcminus (repeat a (length pb)) pb.
Proof.
  induction pb as [|p pb IH]; simpl; [reflexivity|]. now rewrite IH.
Qed.

Lemma encode_row_single m a :
  wf m = true -> encode_row m [a] = encode_row m (repeat a (d_model m)).
Proof.
  intro Hwf. destruct (wf_inv m Hwf) as (_ & _ & Hpb & _).
  unfold encode_row, broadcast_op. rewrite repeat_length, Hpb, Nat.eqb_refl.
  simpl length. destruct (Nat.eqb_spec 1 (d_model m)) as [E|E].
  - rewrite <- E. reflexivity.
  - rewrite broadcast_single, Hpb. reflexivity.
Qed.

Lemma encode_row_defined_iff m x :
  wf m = true ->
  (exists pre, encode_row m x = Some pre) <->
  (length x = d_model m \/ length x = 1%nat).
Proof.
  intro Hwf. destruct (wf_inv m Hwf) as (_ & _ & Hpb & _). split.
  - intros (pre & H). unfold encode_row, broadcast_op in H. rewrite Hpb in H.
    destruct (Nat.eqb_spec (length x) (d_model m)) as [E|E]; [now left|].
    destruct x as [|a [|b x]].
    + destruct (pre_bias m) as [|p [|q pb]]; try discriminate.
      unfold linear in H. simpl in H, Hpb. rewrite <- Hpb in H. discriminate.
    + now right.
    + destruct (pre_bias m) as [|p [|q pb]]; try discriminate.
      unfold linear in H. simpl in H, Hpb. rewrite <- Hpb in H. discriminate.
  - intros [E|E].
    + destruct (encode_row_defined m x Hwf E) as (pre & H & _). eauto.
    + destruct x as [|a [|b x]]; try discriminate.
      rewrite (encode_row_single m a Hwf).
      destruct (encode_row_defined m (repeat a (d_model m)) Hwf (repeat_length _ _))
        as (pre & H & _). eauto.
Qed.

(** X12. With tensors of the declared shapes, [compute_activations]
    returns exactly when the chunk size is positive, the collection is
    not empty and every item has [d_model] entries or a single entry;
    an item with a single entry is not rejected but broadcast: it gives
    the row of the item that repeats this entry [d_model] times. *)
Theorem compute_activations_defined_iff m x bs :
  wf m = true ->
  ((exists acts, compute_activations m x bs = Some acts) <->
   (0 < bs)%Z /\ x <> [] /\
   Forall (fun row => length row = d_model m \/ length row = 1%nat) x) /\
  (forall a, compute_activations m [[a]] bs =
             compute_activations m [repeat a (d_model m)] bs).
Proof.
  intro Hwf. split.
  - destruct (Z.ltb_spec 0 bs) as [Hbs|Hbs].
    + rewrite compute_activations_rowwise by assumption.
      destruct x as [|a x].
      * split; [intros (r & H); discriminate|]. intros (_ & H & _). congruence.
      * rewrite mapM_defined_iff. split.
        -- intro H. split; [assumption|]. split; [discriminate|].
           eapply Forall_impl; [|exact H]. intros row (b & Hb).
           apply (encode_row_defined_iff m row Hwf). unfold activation_row in Hb.
           destruct (encode_row m row); [eauto|discriminate].
        -- intros (_ & _ & H). eapply Forall_impl; [|exact H]. intros row Hrow.
           apply (encode_row_defined_iff m row Hwf) in Hrow. destruct Hrow as (pre & E).
           unfold activation_row. rewrite E. simpl. eauto.
    + split; [|intros (H & _); lia].
      intros (r & H). unfold compute_activations in H.
      destruct (Z.leb_spec bs 0); [discriminate|lia].
  - intro a. destruct (Z.ltb_spec 0 bs) as [Hbs|Hbs].
    + rewrite !compute_activations_rowwise by assumption. simpl.
      unfold activation_row. now rewrite (encode_row_single m a Hwf).
    + unfold compute_activations. destruct (Z.leb_spec bs 0); [reflexivity|lia].
Qed.

Lemma compute_activations_defined_iff_witness :
  wf scenario_model = true /\
  (exists acts, compute_activations scenario_model [[qc 5 1]; [qc 7 1]] 1 = Some acts) /\
  compute_activations scenario_model [[qc 5 1]] 1 =
  compute_activations scenario_model [repeat (qc 5 1) (d_model scenario_model)] 1.
Proof.
  destruct (compute_activations_defined_iff scenario_model [[qc 5 1]; [qc 7 1]] 1 eq_refl)
    as [H _].
  split; [reflexivity|]. split.
  - apply H. split; [lia|]. split; [discriminate|].
    repeat constructor; now right.
  - exact (proj2 (compute_activations_defined_iff scenario_model [] 1 eq_refl) (qc 5 1)).
Defined.

(** One round of the ranking loop: no item left out has a larger
    activation than a listed one. *)
Lemma neuron_ranking_top m (acts : list vec) j :
  Forall (fun row => length row = n_dirs m) acts -> (j < n_dirs m)%nat ->
  (1 <= k m)%Z ->
  forall idx v, neuron_ranking m acts j = Some (idx, v) ->
  forall p q, (p < length acts)%nat -> ~ In p idx -> In q idx ->
              nth j (nth p acts []) 0 <= nth j (nth q acts []) 0.
Proof.
  intros Hall Hj Hk idx v. unfold neuron_ranking.
  rewrite (column_defined acts (n_dirs m) j Hall Hj).
  set (c := map (fun row => nth j row 0) acts).
  assert (Lc : length c = length acts) by apply length_map.
  assert (Hc : forall i, (i < length acts)%nat -> nth i c 0 = nth j (nth i acts []) 0).
  { intros i Hi. unfold c. apply (nth_map_lt (fun row => nth j row 0) acts i [] 0 Hi). }
  set (kk := Z.min (k m) (Z.of_nat (length c))).
  set (sorted := fold_right insert_asc [] (enumerate c)).
  assert (Hperm : Permutation sorted (enumerate c)) by apply sort_asc_perm.
  assert (Hsorted : StronglySorted le_val sorted) by apply sort_asc_sorted.
  set (t := (length c - Z.to_nat kk)%nat).
  intros E p q Hp Hnp Hq.
  cbv zeta in E. injection E as Hidx _. fold kk in Hidx. subst idx.
  destruct acts as [|r0 acts]; [simpl in Hp; lia|].
  assert (Hpos : (0 < kk)%Z) by (unfold kk; rewrite Lc; simpl length; lia).
  assert (Hsl : slice_last kk (argsort c) = map snd (skipn t sorted)).
  { unfold slice_last. destruct (Z.ltb_spec 0 kk); [|lia].
    rewrite argsort_length. fold t. unfold argsort. fold sorted.
    now rewrite skipn_map. }
  rewrite Hsl in Hnp, Hq.
  rewrite <- in_rev in Hq. rewrite <- in_rev in Hnp.
  apply in_map_iff in Hq. destruct Hq as ([y q'] & Eq & Hq). simpl in Eq; subst q'.
  assert (Hsub : forall pr, In pr sorted -> In pr (enumerate c)).
  { intros pr Hpr. eapply Permutation_in; [exact Hperm|exact Hpr]. }
  assert (Hy : nth q c 0 = y).
  { apply nth_error_nth_Qc, enumerate_In, Hsub.
    rewrite <- (firstn_skipn t sorted). apply in_or_app. now right. }
  assert (Hq_lt : (q < length (r0 :: acts))%nat).
  { rewrite <- Lc. apply nth_error_Some.
    assert (In (y, q) (enumerate c)).
    { apply Hsub. rewrite <- (firstn_skipn t sorted). apply in_or_app. now right. }
    apply enumerate_In in H. congruence. }
  destruct (nth_error c p) as [xp|] eqn:Ex; [|apply nth_error_None in Ex; lia].
  assert (Hx : nth p c 0 = xp) by now apply nth_error_nth_Qc.
  assert (Hin : In (xp, p) sorted).
  { eapply Permutation_in; [symmetry; exact Hperm|]. now apply enumerate_In. }
  rewrite <- (firstn_skipn t sorted) in Hin, Hsorted.
  apply in_app_or in Hin. destruct Hin as [Hin|Hin].
  - pose proof (StronglySorted_app_inv _ _ _ _ _ Hsorted Hin Hq) as Hle.
    unfold le_val in Hle. simpl in Hle.
    rewrite <- (Hc p Hp), <- (Hc q Hq_lt), Hx, Hy. exact Hle.
  - exfalso. apply Hnp. apply in_map_iff. exists (xp, p). auto.
Qed.

(** X13. For a sparsity hyperparameter of at least 1 and a non-empty
    collection of [d_model]-vectors, [get_topk_activations] returns,
    for each of the [n_dirs] latent dimensions, exactly
    [min(k, num_items)] distinct item indices with their activations,
    in order of decreasing activation, and no item left out has a
    larger activation on that dimension than a listed one. *)
Theorem get_topk_activations_top_items m x bs :
  wf m = true -> x <> [] -> Forall (fun row => length row = d_model m) x ->
  (0 < bs)%Z -> (1 <= k m)%Z ->
  exists acts idxs vals,
    compute_activations m x bs = Some acts /\
    get_topk_activations m x bs = Some (idxs, vals) /\
    length idxs = n_dirs m /\ length vals = n_dirs m /\
    forall j, (j < n_dirs m)%nat ->
      let idx := nth j idxs [] in
      let v := nth j vals [] in
      length idx = Z.to_nat (Z.min (k m) (Z.of_nat (length x))) /\
      length v = Z.to_nat (Z.min (k m) (Z.of_nat (length x))) /\
      NoDup idx /\
      Forall (fun i => (i < length x)%nat) idx /\
      v = map (fun i => nth j (nth i acts []) 0) idx /\
      StronglySorted (fun a b => b <= a) v /\
      (forall p q, (p < length x)%nat -> ~ In p idx -> In q idx ->
                   nth j (nth p acts []) 0 <= nth j (nth q acts []) 0).
Proof.
  intros Hwf Hne Hx Hbs Hk.
  destruct (get_topk_activations_ranking m x bs Hwf Hne Hx Hbs Hk)
    as (acts & idxs & vals & Ec & Eg & L1 & L2 & H).
  exists acts, idxs, vals. repeat (split; [assumption|]).
  intros j Hj. destruct (H j Hj) as (A1 & A2 & A3 & A4 & A5 & A6).
  repeat (split; [assumption|]).
  destruct (compute_activations_defined m x bs Hwf Hne Hx Hbs) as (acts' & Ec' & La & Hall).
  assert (acts' = acts) by congruence. subst acts'.
  unfold get_topk_activations in Eg. rewrite Ec in Eg.
  destruct (mapM (neuron_ranking m acts) (seq 0 (n_dirs m))) as [per|] eqn:Hper;
    [|discriminate].
  inversion Eg; subst idxs vals.
  pose (d := ([] : list nat, [] : vec)).
  assert (Hjs : (j < length (seq 0 (n_dirs m)))%nat) by now rewrite length_seq.
  pose proof (mapM_nth_d _ _ _ j 0%nat d Hper Hjs) as Ej.
  rewrite seq_nth in Ej by assumption. simpl in Ej.
  change (nth j (map fst per) []) with (nth j (map fst per) (fst d)).
  rewrite map_nth.
  destruct (nth j per d) as [idx v] eqn:En. cbn [fst].
  rewrite <- La. exact (neuron_ranking_top m acts j Hall Hj Hk idx v Ej).
Qed.

Lemma get_topk_activations_top_items_witness :
  wf scenario_model = true /\ two_items <> [] /\
  Forall (fun row => length row = d_model scenario_model) two_items /\
  (0 < 1024)%Z /\ (1 <= k scenario_model)%Z /\
  exists idxs vals,
    get_topk_activations scenario_model two_items 1024 = Some (idxs, vals) /\
    length idxs = 3%nat.
Proof.
  assert (Hx : Forall (fun row => length row = d_model scenario_model) two_items)
    by (repeat constructor).
  split; [reflexivity|]. split; [discriminate|]. split; [exact Hx|].
  split; [lia|]. split; [simpl; lia|].
  destruct (get_topk_activations_top_items scenario_model two_items 1024
              eq_refl ltac:(discriminate) Hx eq_refl ltac:(simpl; lia))
    as (acts & idxs & vals & _ & E & L & _).
  exists idxs, vals. split; [exact E|exact L].
Defined.

End ActivationsMore.

(* ================================================================== *)
(** * Further properties of the loader                                 *)
(* ================================================================== *)

Module LoaderMore.

Import Tensor SAE Specs LoaderSpecs Loader Examples LoaderFacts.
Import String.
Local Open Scope string_scope.
Local Open Scope list_scope.

Lemma fetch_defined sd name sh :
  (exists d, fetch sd name sh = Ok d) <->
  exists t, lookup name sd = Some t /\ shape t = sh.
Proof.
  split.
  - intros (d & H). apply fetch_ok in H. destruct H as (t & H1 & H2 & _). eauto.
  - intros (t & H1 & H2). exists (data t). apply fetch_ok. eauto.
Qed.

Lemma no_unexpected_key (sd : state_dict) :
  forallb (fun e => existsb (String.eqb (fst e)) expected_keys) sd = true <->
  forall name t, In (name, t) sd -> In name expected_keys.
Proof.
  rewrite forallb_forall. split.
  - intros H name t Hin. specialize (H _ Hin). cbn [fst] in H.
    apply existsb_exists in H. destruct H as (x & Hx & E).
    apply String.eqb_eq in E. now subst x.
  - intros H [name t] Hin. cbn [fst]. apply existsb_exists. exists name.
    split; [eapply H; exact Hin|apply String.eqb_refl].
Qed.

Lemma load_state_dict_defined m sd :
  (exists m', load_state_dict m sd = Ok m') <->
  (forall name, In name expected_keys ->
     exists t, lookup name sd = Some t /\
               shape t = declared_shape (n_dirs m) (d_model m) name) /\
  (forall name t, In (name, t) sd -> In name expected_keys).
Proof.
  split.
  - intros (m' & H). unfold load_state_dict, bind in H.
    destruct (fetch sd "pre_bias" [d_model m]) as [pb|] eqn:E1; [|discriminate].
    destruct (fetch sd "latent_bias" [n_dirs m]) as [lb|] eqn:E2; [|discriminate].
    destruct (fetch sd "stats_last_nonzero" [n_dirs m]) as [st|] eqn:E3; [|discriminate].
    destruct (fetch sd "encoder.weight" [n_dirs m; d_model m]) as [ew|] eqn:E4;
      [|discriminate].
    destruct (fetch sd "decoder.weight" [d_model m; n_dirs m]) as [dw|] eqn:E5;
      [|discriminate].
    destruct (forallb _ sd) eqn:E6; [|discriminate].
    split; [|now apply no_unexpected_key].
    intros name Hin. unfold expected_keys in Hin. simpl in Hin.
    destruct Hin as [<-|[<-|[<-|[<-|[<-|[]]]]]]; apply fetch_defined; eauto.
  - intros (Hkeys & Hextra). unfold load_state_dict, bind.
    assert (F : forall name, In name expected_keys ->
                exists d, fetch sd name (declared_shape (n_dirs m) (d_model m) name) = Ok d).
    { intros name Hin. apply fetch_defined. now apply Hkeys. }
    destruct (F "pre_bias") as (pb & E1); [simpl; auto|].
    destruct (F "latent_bias") as (lb & E2); [simpl; auto|].
    destruct (F "stats_last_nonzero") as (st & E3); [simpl; auto 6|].
    destruct (F "encoder.weight") as (ew & E4); [simpl; auto 6|].
    destruct (F "decoder.weight") as (dw & E5); [simpl; auto 8|].
    cbn in E1, E2, E3, E4, E5. rewrite E1, E2, E3, E4, E5.
    apply no_unexpected_key in Hextra. rewrite Hextra. eauto.
Qed.

(** X14. [load_sae_model] returns a module, and prints the success
    line, exactly when neither declared dimension is negative, the
    file unpickles to a dictionary, each of the five tensors of the
    module is stored there with the declared shape, and the dictionary
    holds no other key; in every other case it returns None. *)
Theorem load_sae_model_success_iff fs w0 path n d kk a :
  ((exists model, load_sae_model fs w0 path n d kk a = ([Loaded path], Some model)) <->
   (0 <= n)%Z /\ (0 <= d)%Z /\
   exists sd, fs path = Pickled sd /\
     (forall name, In name expected_keys ->
        exists t, lookup name sd = Some t /\
                  shape t = declared_shape (Z.to_nat n) (Z.to_nat d) name) /\
     (forall name t, In (name, t) sd -> In name expected_keys)) /\
  ((forall model, load_sae_model fs w0 path n d kk a <> ([Loaded path], Some model)) ->
   snd (load_sae_model fs w0 path n d kk a) = None).
Proof.
  split.
  - unfold load_sae_model, try_load, bind, init, torch_load.
    destruct (Z.ltb_spec n 0) as [Hn|Hn]; simpl orb; cbv iota.
    { split; [intros (mo & H); discriminate|]. intros (H & _). lia. }
    destruct (Z.ltb_spec d 0) as [Hd|Hd]; cbv iota.
    { split; [intros (mo & H); discriminate|]. intros (_ & H & _). lia. }
    destruct (fs path) as [| |sd].
    + split; [intros (mo & H); discriminate|]. intros (_ & _ & sd & H & _). discriminate.
    + split; [intros (mo & H); discriminate|]. intros (_ & _ & sd & H & _). discriminate.
    + match goal with |- context [load_state_dict ?m0 sd] => set (m := m0) end.
      pose proof (load_state_dict_defined m sd) as D. cbn [m n_dirs d_model] in D.
      split.
      * intros (mo & H). split; [assumption|]. split; [assumption|].
        exists sd. split; [reflexivity|]. apply D.
        destruct (load_state_dict m sd) as [m'|e]; [eauto|discriminate].
      * intros (_ & _ & sd' & Hsd & Hrest). inversion Hsd; subst sd'.
        apply D in Hrest. destruct Hrest as (m' & E). rewrite E. eauto.
  - intro H. unfold load_sae_model in *.
    destruct (try_load fs w0 path n d kk a) as [mo|e]; [|reflexivity].
    exfalso. apply (H mo). reflexivity.
Qed.

Lemma load_sae_model_success_iff_witness :
  exists model, load_sae_model disk zero_init "model.pth" 3 8 2 (Some 1%Z)
                = ([Loaded "model.pth"], Some model).
Proof.
  apply (proj1 (load_sae_model_success_iff disk zero_init "model.pth" 3 8 2 (Some 1%Z))).
  split; [lia|]. split; [lia|]. exists checkpoint_d8. split; [reflexivity|]. split.
  - intros name Hin. simpl in Hin.
    destruct Hin as [<-|[<-|[<-|[<-|[<-|[]]]]]]; eexists; split; reflexivity.
  - intros name t Hin. simpl in Hin. simpl.
    destruct Hin as [E|[E|[E|[E|[E|[]]]]]]; inversion E; auto 8.
Defined.

(** The values the constructor gives the weights before the
    checkpoint is read (the random initialisation of the two linear
    layers) have no influence on what [load_sae_model] prints and
    returns: every parameter and buffer of a returned module is
    overwritten. *)
Lemma load_sae_model_ignores_init fs w0 w0' path n d kk a :
  load_sae_model fs w0 path n d kk a = load_sae_model fs w0' path n d kk a.
Proof.
  unfold load_sae_model, try_load, bind, init, torch_load.
  destruct ((n <? 0)%Z || (d <? 0)%Z); [reflexivity|].
  destruct (fs path) as [| |sd]; reflexivity.
Qed.

End LoaderMore.

(* ================================================================== *)
(** * Further properties of the decoder normalization                  *)
(* ================================================================== *)

Module NormalizeMore.

Import Normalize NormalizeFacts.
Local Open Scope R_scope.

Lemma zip_fdiv_total (row norms : rvec) :
  Forall (fun x => x <> 0) norms ->
  Tensor.zip_with fdiv row norms = map Some (Tensor.zip_with Rdiv row norms).
Proof.
  intro H. revert row. induction H as [|x norms Hx _ IH]; intros [|a row]; simpl; auto.
  rewrite IH. unfold fdiv. destruct (Req_dec_T x 0); [contradiction|reflexivity].
Qed.

Lemma zip_fdiv_ones (row : rvec) :
  Tensor.zip_with fdiv row (repeat 1 (length row)) = map Some row.
Proof.
  induction row as [|a row IH]; simpl; [reflexivity|]. rewrite IH.
  unfold fdiv. destruct (Req_dec_T 1 0) as [E|_]; [lra|].
  now rewrite Rdiv_1_r.
Qed.

Lemma col_norms_length n W : length (col_norms n W) = n.
Proof. unfold col_norms. now rewrite length_map, length_seq. Qed.

Lemma col_norms_nonzero n W :
  (forall j, (j < n)%nat -> sqrt (sum_sq (col j W)) <> 0) ->
  Forall (fun x => x <> 0) (col_norms n W).
Proof.
  intro H. apply Forall_forall. intros x Hx. unfold col_norms in Hx.
  apply in_map_iff in Hx. destruct Hx as (j & <- & Hj). apply in_seq in Hj.
  apply H. lia.
Qed.

Lemma col_scaled n W j :
  Forall (fun row => length row = n) W -> (j < n)%nat ->
  col j (map (fun row => Tensor.zip_with Rdiv row (col_norms n W)) W) =
  map (fun x => x / sqrt (sum_sq (col j W))) (col j W).
Proof.
  intros Hshape Hj. unfold col. rewrite !map_map. apply map_ext_in.
  intros row Hrow. rewrite Forall_forall in Hshape.
  rewrite (TensorFacts.zip_with_nth Rdiv row (col_norms n W) j 0 0 0)
    by (rewrite ?col_norms_length, ?(Hshape row Hrow); exact Hj).
  now rewrite col_norms_nth.
Qed.

Lemma scaled_norm_one v :
  sqrt (sum_sq v) <> 0 ->
  sqrt (sum_sq (map (fun x => x / sqrt (sum_sq v)) v)) = 1.
Proof.
  intro Hnz. rewrite sum_sq_scaled by exact Hnz.
  rewrite sqrt_sqrt by apply sum_sq_nonneg.
  assert (Hs : sum_sq v <> 0).
  { intro E. apply Hnz. rewrite E. apply sqrt_0. }
  replace (sum_sq v / sum_sq v) with 1 by (field; exact Hs). apply sqrt_1.
Qed.

(** X16. When no column of [decoder.weight] has norm zero,
    [unit_norm_decoder_] leaves a matrix of finite entries of the same
    shape in which every entry is the old one divided by the norm of
    its column, and a second call changes nothing. *)
Theorem unit_norm_decoder_idempotent n (W : rmat) :
  Forall (fun row => length row = n) W ->
  (forall j, (j < n)%nat -> sqrt (sum_sq (col j W)) <> 0) ->
  exists W' : rmat,
    unit_norm_decoder_ n W = map (map Some) W' /\
    length W' = length W /\
    Forall (fun row => length row = n) W' /\
    (forall i j, (i < length W)%nat -> (j < n)%nat ->
       nth j (nth i W' []) 0 = nth j (nth i W []) 0 / sqrt (sum_sq (col j W))) /\
    unit_norm_decoder_ n W' = map (map Some) W'.
Proof.
  intros Hshape Hnz. unfold rmat, rvec in *.
  set (W' := map (fun row => Tensor.zip_with Rdiv row (col_norms n W)) W).
  assert (Hshape' : Forall (fun row => length row = n) W').
  { apply Forall_forall. intros row' Hrow'. apply in_map_iff in Hrow'.
    destruct Hrow' as (row & <- & Hrow). rewrite Forall_forall in Hshape.
    rewrite TensorFacts.zip_with_length, col_norms_length, (Hshape row Hrow).
    apply Nat.min_id. }
  exists W'. split; [|split; [|split; [|split]]].
  - unfold unit_norm_decoder_, div_rows, W'. rewrite map_map. apply map_ext.
    intro row. apply zip_fdiv_total, col_norms_nonzero, Hnz.
  - apply length_map.
  - exact Hshape'.
  - intros i j Hi Hj. unfold W'.
    rewrite (TensorFacts.nth_map_lt
               (fun row => Tensor.zip_with Rdiv row (col_norms n W)) W i [] [] Hi).
    assert (Hrow : length (nth i W []) = n).
    { rewrite Forall_forall in Hshape. apply Hshape, nth_In, Hi. }
    rewrite (TensorFacts.zip_with_nth Rdiv (nth i W []) (col_norms n W) j 0 0 0)
      by (rewrite ?col_norms_length, ?Hrow; exact Hj).
    now rewrite col_norms_nth.
  - assert (Hones : col_norms n W' = repeat 1 n).
    { unfold col_norms.
      rewrite (map_ext_in _ (fun _ => 1) (seq 0 n)).
      - clear. generalize 0%nat. induction n as [|n IH]; intro s; simpl;
          [reflexivity|now rewrite IH].
      - intros j Hj. apply in_seq in Hj. unfold W'.
        rewrite (col_scaled n W j Hshape) by lia.
        apply scaled_norm_one, Hnz. lia. }
    unfold unit_norm_decoder_, div_rows. rewrite Hones. apply map_ext_in.
    intros row Hrow. rewrite Forall_forall in Hshape'.
    rewrite <- (Hshape' row Hrow). apply zip_fdiv_ones.
Qed.

Lemma unit_norm_decoder_idempotent_witness :
  Forall (fun row : rvec => length row = 1%nat) [[3]; [4]] /\
  (forall j, (j < 1)%nat -> sqrt (sum_sq (col j [[3]; [4]])) <> 0) /\
  exists W' : rmat,
    unit_norm_decoder_ 1 [[3]; [4]] = map (map Some) W' /\
    unit_norm_decoder_ 1 W' = map (map Some) W'.
Proof.
  assert (H1 : Forall (fun row : rvec => length row = 1%nat) [[3]; [4]])
    by (repeat constructor).
  assert (H2 : forall j, (j < 1)%nat -> sqrt (sum_sq (col j [[3]; [4]])) <> 0).
  { intros j Hj. assert (j = 0%nat) by lia. subst j. simpl.
    apply Rgt_not_eq. apply sqrt_lt_R0. lra. }
  split; [exact H1|]. split; [exact H2|].
  destruct (unit_norm_decoder_idempotent 1 [[3]; [4]] H1 H2)
    as (W' & E1 & _ & _ & _ & E2).
  exists W'. split; [exact E1|exact E2].
Defined.

(** X17. A column of [decoder.weight] whose norm is zero is divided
    by zero: after [unit_norm_decoder_] none of its entries is finite
    and, the matrix having at least one row, the column has no norm. *)
Theorem unit_norm_decoder_zero_norm n (W : rmat) j :
  Forall (fun row => length row = n) W -> (j < n)%nat ->
  sqrt (sum_sq (col j W)) = 0 ->
  (forall i, (i < length W)%nat -> nth j (nth i (unit_norm_decoder_ n W) []) None = None) /\
  (W <> [] -> col_norm_after j (unit_norm_decoder_ n W) = None).
Proof.
  intros Hshape Hj Hz. unfold rmat, rvec in *.
  assert (Hrow : forall row, In row W ->
            nth j (Tensor.zip_with fdiv row (col_norms n W)) None = None).
  { intros row Hin. rewrite Forall_forall in Hshape.
    rewrite zip_fdiv_nth by (rewrite ?col_norms_length, ?(Hshape row Hin); exact Hj).
    rewrite col_norms_nth by exact Hj. rewrite Hz. unfold fdiv.
    destruct (Req_dec_T 0 0); [reflexivity|contradiction]. }
  split.
  - intros i Hi. unfold unit_norm_decoder_, div_rows.
    rewrite (TensorFacts.nth_map_lt
               (fun row => Tensor.zip_with fdiv row (col_norms n W)) W i [] [] Hi).
    apply Hrow, nth_In, Hi.
  - intro Hne. destruct W as [|row W]; [contradiction|].
    unfold col_norm_after, unit_norm_decoder_, div_rows. simpl.
    rewrite (Hrow row (or_introl eq_refl)). reflexivity.
Qed.

Lemma unit_norm_decoder_zero_norm_witness :
  Forall (fun row : rvec => length row = 2%nat) [[0; 1]] /\ (0 < 2)%nat /\
  sqrt (sum_sq (col 0 [[0; 1]])) = 0 /\
  col_norm_after 0 (unit_norm_decoder_ 2 [[0; 1]]) = None.
Proof.
  assert (H1 : Forall (fun row : rvec => length row = 2%nat) [[0; 1]])
    by (repeat constructor).
  assert (H2 : sqrt (sum_sq (col 0 [[0; 1]])) = 0).
  { simpl. replace (0 * 0 + 0) with 0 by ring. apply sqrt_0. }
  split; [exact H1|]. split; [lia|]. split; [exact H2|].
  apply (proj2 (unit_norm_decoder_zero_norm 2 [[0; 1]] 0 H1 ltac:(lia) H2)).
  discriminate.
Defined.

End NormalizeMore.

(* ================================================================== *)
(** * The page script: colours                                          *)
(* ================================================================== *)

Module VizColours.

Import Tensor Viz VizSpecs.
Import String.
Local Open Scope string_scope.
Local Open Scope list_scope.

Lemma jseq_eq a b : jseq a b = true <-> a = b.
Proof. unfold jseq. destruct (list_eq_dec N.eq_dec a b); split; congruence. Qed.

Lemma array_includes_In a x : array_includes a x = true <-> In x a.
Proof.
  unfold array_includes. rewrite existsb_exists. split.
  - intros (y & Hy & E). apply jseq_eq in E. now subst.
  - intro H. exists x. split; [exact H|now apply jseq_eq].
Qed.

Lemma starts_with_spec key s :
  starts_with key s = true <-> exists b, s = (key ++ b)%list.
Proof.
  revert s. induction key as [|k key IH]; intro s; simpl.
  - split; [eauto|reflexivity].
  - destruct s as [|c s].
    + split; [discriminate|]. intros (b & H). discriminate.
    + rewrite andb_true_iff, N.eqb_eq, IH. split.
      * intros (-> & b & ->). eauto.
      * intros (b & H). inversion H. eauto.
Qed.

Lemma includes_spec s key :
  includes s key = true <-> exists a b, s = (a ++ key ++ b)%list.
Proof.
  induction s as [|c s IH]; simpl.
  - rewrite orb_false_r, starts_with_spec. split.
    + intros (b & H). exists [], b. exact H.
    + intros (a & b & H). destruct a; [eauto|discriminate].
  - rewrite orb_true_iff, IH.
    rewrite (starts_with_spec key (c :: s)). split.
    + intros [(b & H)|(a & b & H)].
      * exists [], b. exact H.
      * exists (c :: a), b. simpl. now rewrite H.
    + intros (a & b & H). destruct a as [|c' a].
      * left. exists b. exact H.
      * right. inversion H. eauto.
Qed.

Lemma includes_trans s key key' :
  includes s key = true -> includes key key' = true -> includes s key' = true.
Proof.
  rewrite !includes_spec. intros (a & b & ->) (a' & b' & ->).
  exists (a ++ a')%list, (b' ++ b)%list. now rewrite <- !app_assoc.
Qed.

Lemma find_reachable (g : jsstring) seen palette kv :
  (forall k0, In k0 seen -> includes g k0 = false) ->
  find (fun e => includes g (fst e)) palette = Some kv ->
  In kv (reachable seen palette).
Proof.
  revert seen. induction palette as [|[k v] rest IH]; intros seen Hseen; simpl;
    [discriminate|].
  destruct (includes g k) eqn:Ek.
  - intro E. inversion E; subst kv.
    destruct (existsb (includes k) seen) eqn:Es; [|now left].
    exfalso. apply existsb_exists in Es. destruct Es as (k0 & Hk0 & Hin).
    specialize (Hseen k0 Hk0). now rewrite (includes_trans g k k0 Ek Hin) in Hseen.
  - intro E.
    assert (Hseen' : forall k0, In k0 (k :: seen) -> includes g k0 = false).
    { intros k0 [<-|H0]; [exact Ek|now apply Hseen]. }
    specialize (IH (k :: seen) Hseen' E).
    destruct (existsb (includes k) seen); [exact IH|now right].
Qed.

Section Colours.

Variable trim : jsstring -> jsstring.
Variable toLowerCase : jsstring -> jsstring.

Local Abbreviation getColor := (getColor trim toLowerCase).
Local Abbreviation first_entry := (first_entry trim toLowerCase).

Lemma first_entry_inv genre key value :
  first_entry genre = Some (key, value) ->
  In (key, value) genreColors /\ includes (toLowerCase (trim genre)) key = true.
Proof.
  unfold Viz.first_entry. intro H. apply find_some in H. exact H.
Qed.

Lemma first_entry_none genre :
  first_entry genre = None <->
  forall key, In key (map fst genreColors) ->
              includes (toLowerCase (trim genre)) key = false.
Proof.
  unfold Viz.first_entry. split.
  - intros H key Hin. apply in_map_iff in Hin. destruct Hin as (kv & <- & Hin).
    exact (find_none _ _ H kv Hin).
  - intro H. destruct (find _ genreColors) as [kv|] eqn:E; [|reflexivity].
    apply find_some in E. destruct E as (Hin & E).
    rewrite (H (fst kv)) in E; [discriminate|]. now apply in_map.
Qed.

Lemma palette_not_default key value :
  In (key, value) genreColors -> value <> defaultColor.
Proof.
  intro H.
  assert (A : forallb (fun kv => negb (jseq (snd kv) defaultColor)) genreColors = true)
    by (vm_compute; reflexivity).
  rewrite forallb_forall in A. specialize (A _ H). cbn [snd] in A.
  intro E. apply jseq_eq in E. rewrite E in A. discriminate.
Qed.

Lemma color_of_entry key value :
  In (key, value) genreColors -> color_of key = Some value.
Proof.
  intro H.
  assert (A : forallb (fun kv => match color_of (fst kv) with
                                 | Some v => jseq v (snd kv)
                                 | None => false
                                 end) genreColors = true)
    by (vm_compute; reflexivity).
  rewrite forallb_forall in A. specialize (A _ H). cbn [fst snd] in A.
  destruct (color_of key) as [v|]; [|discriminate]. apply jseq_eq in A. now subst.
Qed.

Lemma getColor_loop_cases gs :
  (getColor_loop trim toLowerCase gs = defaultColor /\
   forall g, In g gs -> first_entry g = None) \/
  (exists before g after key,
     gs = (before ++ g :: after)%list /\
     (forall g', In g' before -> first_entry g' = None) /\
     first_entry g = Some (key, getColor_loop trim toLowerCase gs)).
Proof.
  induction gs as [|g gs IH]; simpl.
  - left. split; [reflexivity|]. intros g [].
  - destruct (first_entry g) as [[key value]|] eqn:E.
    + right. exists [], g, gs, key. split; [reflexivity|]. split; [intros g' []|exact E].
    + destruct IH as [(Hd & Hall)|(before & g0 & after & key & -> & Hb & Hg)].
      * left. split; [exact Hd|]. intros g' [<-|H]; [exact E|now apply Hall].
      * right. exists (g :: before), g0, after, key. split; [reflexivity|].
        split; [|exact Hg]. intros g' [<-|H]; [exact E|now apply Hb].
Qed.

Lemma getColor_loop_eq gs : getColor (Some gs) = getColor_loop trim toLowerCase gs.
Proof. destruct gs; reflexivity. Qed.

End Colours.

(** X18. [getColor] returns the default grey exactly when the song
    has no genre list, or none of its genres, trimmed and lowered,
    includes a key of the palette; otherwise it returns the colour of
    the first key, in the order of the palette, that the first such
    genre includes. *)
Theorem getColor_default_iff (trim toLowerCase : jsstring -> jsstring) genres :
  (getColor trim toLowerCase genres = defaultColor <->
   forall gs g key, genres = Some gs -> In g gs -> In key (map fst genreColors) ->
                    includes (toLowerCase (trim g)) key = false) /\
  (getColor trim toLowerCase genres <> defaultColor ->
   exists gs before g after key,
     genres = Some gs /\ gs = (before ++ g :: after)%list /\
     (forall g', In g' before -> first_entry trim toLowerCase g' = None) /\
     first_entry trim toLowerCase g = Some (key, getColor trim toLowerCase genres) /\
     color_of key = Some (getColor trim toLowerCase genres)).
Proof.
  destruct genres as [gs|].
  - rewrite getColor_loop_eq.
    destruct (getColor_loop_cases trim toLowerCase gs)
      as [(Hd & Hall)|(before & g & after & key & Hgs & Hb & Hg)].
    + split.
      * split; [|intros _; exact Hd].
        intros _ gs' g key E Hin Hkey. inversion E; subst gs'.
        exact (proj1 (first_entry_none trim toLowerCase g) (Hall g Hin) key Hkey).
      * intro H. contradiction.
    + destruct (first_entry_inv _ _ _ _ _ Hg) as (Hin & Hinc).
      split.
      * split.
        -- intro E. exfalso. exact (palette_not_default _ _ Hin E).
        -- intro H. exfalso.
           rewrite (H gs g key eq_refl) in Hinc; [discriminate| |].
           ++ rewrite Hgs. apply in_or_app. right. now left.
           ++ change key with (fst (key, getColor_loop trim toLowerCase gs)).
              now apply in_map.
      * intros _. exists gs, before, g, after, key.
        repeat (split; [assumption || reflexivity|]). now apply color_of_entry.
  - simpl. split.
    + split; [|reflexivity]. intros _ gs g key E. discriminate.
    + intro H. contradiction.
Qed.

(** X19. Five entries of the palette are never used: a genre that
    includes 'trap' includes 'rap', one that includes
    'alternative rock', 'progressive rock' or 'hard rock' includes
    'rock', one that includes 'post-punk' includes 'punk', and these
    shorter keys come first.  So [getColor] never returns the colour
    listed for one of the five keys. *)
Theorem getColor_shadowed_entries (trim toLowerCase : jsstring -> jsstring) genres key :
  In key [lit "trap"; lit "alternative rock"; lit "post-punk";
          lit "progressive rock"; lit "hard rock"] ->
  color_of key <> Some (getColor trim toLowerCase genres).
Proof.
  intros Hkey Hc.
  assert (Hr : getColor trim toLowerCase genres = defaultColor \/
               In (getColor trim toLowerCase genres) (map snd (reachable [] genreColors))).
  { destruct genres as [gs|]; [|now left]. rewrite getColor_loop_eq.
    destruct (getColor_loop_cases trim toLowerCase gs)
      as [(Hd & _)|(before & g & after & k & _ & _ & Hg)]; [now left|right].
    unfold first_entry in Hg.
    apply (find_reachable _ []) in Hg; [|intros k0 []].
    change (getColor_loop trim toLowerCase gs)
      with (snd (k, getColor_loop trim toLowerCase gs)).
    now apply in_map. }
  assert (A : forallb (fun k =>
                match color_of k with
                | Some c => negb (existsb (jseq c)
                                   (defaultColor :: map snd (reachable [] genreColors)))
                | None => true
                end)
              [lit "trap"; lit "alternative rock"; lit "post-punk";
               lit "progressive rock"; lit "hard rock"] = true)
    by (vm_compute; reflexivity).
  rewrite forallb_forall in A. specialize (A key Hkey). rewrite Hc in A.
  apply negb_true_iff in A.
  assert (B : existsb (jseq (getColor trim toLowerCase genres))
                      (defaultColor :: map snd (reachable [] genreColors)) = true).
  { apply existsb_exists. destruct Hr as [E|Hin].
    - exists defaultColor. split; [now left|now apply jseq_eq].
    - exists (getColor trim toLowerCase genres). split; [now right|now apply jseq_eq]. }
  congruence.
Qed.

Lemma getColor_shadowed_entries_witness :
  In (lit "trap") [lit "trap"; lit "alternative rock"; lit "post-punk";
                   lit "progressive rock"; lit "hard rock"] /\
  color_of (lit "trap") <> Some (getColor (fun s => s) (fun s => s) (Some [lit "trap"])).
Proof.
  split; [now left|].
  apply (getColor_shadowed_entries (fun s => s) (fun s => s) (Some [lit "trap"])).
  now left.
Defined.

(** X15. The colour of a song's point is the colour of its first
    genre tag that is not grey: [createVisualization] colours the
    point with [getColor] of the whole genre list,
    [displaySongDetails] colours each tag with [getColor] of that
    genre alone, and the point is grey exactly when every tag is. *)
Theorem point_colour_is_first_coloured_tag (trim toLowerCase : jsstring -> jsstring) s :
  getColor trim toLowerCase (genres s) =
  hd defaultColor
     (filter (fun c => negb (jseq c defaultColor)) (genre_tag_colors trim toLowerCase s)).
Proof.
  unfold genre_tag_colors. destruct (genres s) as [gs|]; [|reflexivity].
  rewrite getColor_loop_eq. induction gs as [|g gs IH]; [reflexivity|].
  cbn [map getColor getColor_loop filter].
  destruct (first_entry trim toLowerCase g) as [[key value]|] eqn:E.
  - apply first_entry_inv in E. destruct E as (Hin & _).
    destruct (jseq value defaultColor) eqn:Ej.
    + apply jseq_eq in Ej. exfalso. exact (palette_not_default _ _ Hin Ej).
    + reflexivity.
  - assert (Ej : jseq defaultColor defaultColor = true) by now apply jseq_eq.
    rewrite Ej. exact IH.
Qed.

End VizColours.

(* ================================================================== *)
(** * The page script: legend and filters                               *)
(* ================================================================== *)

Module VizLegend.

Import Tensor Viz VizSpecs VizColours.
Import String.
Local Open Scope string_scope.
Local Open Scope list_scope.

Lemma filter_length_mono {A} (p q : A -> bool) l :
  (forall x, In x l -> p x = true -> q x = true) ->
  (List.length (filter p l) <= List.length (filter q l))%nat.
Proof.
  induction l as [|a l IH]; simpl; intro H; [lia|].
  assert (IH' := IH (fun x Hx => H x (or_intror Hx))).
  destruct (p a) eqn:Ep.
  - rewrite (H a (or_introl eq_refl) Ep). simpl. lia.
  - destruct (q a); simpl; lia.
Qed.

Lemma filter_length_lt {A} (p q : A -> bool) l x :
  (forall y, In y l -> p y = true -> q y = true) ->
  In x l -> p x = false -> q x = true ->
  (List.length (filter p l) < List.length (filter q l))%nat.
Proof.
  induction l as [|a l IH]; simpl; intros H Hin Hp Hq; [tauto|].
  assert (Hle := filter_length_mono p q l (fun y Hy => H y (or_intror Hy))).
  destruct Hin as [->|Hin].
  - rewrite Hp, Hq. simpl. lia.
  - assert (IH' := IH (fun y Hy => H y (or_intror Hy)) Hin Hp Hq).
    destruct (p a) eqn:Ep.
    + rewrite (H a (or_introl eq_refl) Ep). simpl. lia.
    + destruct (q a); simpl; lia.
Qed.

Lemma filter_length_all {A} (p : A -> bool) l :
  (List.length l <= List.length (filter p l))%nat -> forall x, In x l -> p x = true.
Proof.
  induction l as [|a l IH]; simpl; intros H x Hin; [tauto|].
  pose proof (List.filter_length_le p l) as Hl.
  destruct (p a) eqn:Ep.
  - destruct Hin as [<-|Hin]; [exact Ep|]. apply IH; [simpl in H; lia|exact Hin].
  - exfalso. lia.
Qed.

Lemma filter_all {A} (p : A -> bool) l :
  (forall x, In x l -> p x = true) -> filter p l = l.
Proof.
  induction l as [|a l IH]; simpl; intro H; [reflexivity|].
  rewrite (H a (or_introl eq_refl)). f_equal. apply IH. auto.
Qed.

Section Legend.

Variable trim : jsstring -> jsstring.
Variable toLowerCase : jsstring -> jsstring.

Local Abbreviation legend_step := (legend_step trim toLowerCase).
Local Abbreviation usedGenres := (usedGenres trim toLowerCase).
Local Abbreviation first_entry := (first_entry trim toLowerCase).
Local Abbreviation matching := (matching trim toLowerCase).

Lemma legend_step_cases U g :
  (legend_step U g = U /\
   forall key, In key (map fst genreColors) ->
               includes (toLowerCase (trim g)) key = true -> In key U) \/
  (exists key, legend_step U g = U ++ [key] /\ In key (map fst genreColors) /\
               includes (toLowerCase (trim g)) key = true /\ ~ In key U).
Proof.
  unfold Viz.legend_step.
  destruct (find _ (map fst genreColors)) as [key|] eqn:E.
  - right. exists key. apply find_some in E. destruct E as (Hin & E).
    apply andb_true_iff in E. destruct E as (E1 & E2). apply negb_true_iff in E2.
    repeat (split; [assumption || reflexivity|]).
    intro H. apply array_includes_In in H. congruence.
  - left. split; [reflexivity|]. intros key Hin Hinc.
    pose proof (find_none _ _ E key Hin) as H. cbn beta in H. rewrite Hinc in H.
    simpl in H. apply negb_false_iff in H. now apply array_includes_In.
Qed.

Lemma legend_step_incl U g : incl U (legend_step U g).
Proof.
  destruct (legend_step_cases U g) as [(-> & _)|(key & -> & _)].
  - apply incl_refl.
  - apply incl_appl, incl_refl.
Qed.

Lemma legend_fold_incl gs U : incl U (fold_left legend_step gs U).
Proof.
  revert U. induction gs as [|g gs IH]; intro U; simpl; [apply incl_refl|].
  eapply incl_tran; [apply legend_step_incl|apply IH].
Qed.

Lemma find_fst_first {V} (f P : jsstring -> bool) (l : list (jsstring * V)) k v :
  find (fun e => f (fst e)) l = Some (k, v) ->
  (forall key, P key = true -> f key = true) -> P k = true ->
  find P (map fst l) = Some k.
Proof.
  induction l as [|[k0 v0] l IH]; simpl; [discriminate|].
  intros E HP Hk. destruct (f k0) eqn:Ef.
  - inversion E; subst. now rewrite Hk.
  - destruct (P k0) eqn:EP; [rewrite (HP k0 EP) in Ef; discriminate|]. now apply IH.
Qed.

Lemma legend_step_first U g k v :
  first_entry g = Some (k, v) -> In k (legend_step U g).
Proof.
  intro E. destruct (array_includes U k) eqn:Ek.
  - apply legend_step_incl. now apply array_includes_In.
  - unfold Viz.legend_step, Viz.first_entry in *.
    rewrite (find_fst_first _ _ _ k v E).
    + apply in_or_app. right. now left.
    + intros key H. apply andb_true_iff in H. tauto.
    + apply find_some in E. destruct E as (_ & E). cbn [fst] in E. now rewrite E, Ek.
Qed.

Lemma legend_fold_first gs U g k v :
  In g gs -> first_entry g = Some (k, v) -> In k (fold_left legend_step gs U).
Proof.
  revert U. induction gs as [|g0 gs IH]; intros U Hin E; simpl; [destruct Hin|].
  destruct Hin as [->|Hin].
  - apply legend_fold_incl. now apply (legend_step_first U g k v).
  - now apply IH.
Qed.

Lemma usedGenres_visited_from songs U :
  fold_left (legend_song trim toLowerCase) songs U =
  fold_left legend_step (visited songs) U.
Proof.
  revert U. induction songs as [|s songs IH]; intro U; simpl; [reflexivity|].
  unfold visited. simpl. rewrite fold_left_app. fold (visited songs).
  rewrite IH. unfold legend_song. destruct (genres s); reflexivity.
Qed.

Lemma usedGenres_visited songs :
  usedGenres songs = fold_left legend_step (visited songs) [].
Proof. apply usedGenres_visited_from. Qed.

Lemma visited_In songs g :
  In g (visited songs) <->
  exists s gs, In s songs /\ genres s = Some gs /\ In g gs.
Proof.
  unfold visited. rewrite in_concat. split.
  - intros (l & Hl & Hg). apply in_map_iff in Hl. destruct Hl as (s & <- & Hs).
    destruct (genres s) as [gs|] eqn:E; [|destruct Hg]. eauto.
  - intros (s & gs & Hs & E & Hg). exists gs. split; [|exact Hg].
    apply in_map_iff. exists s. rewrite E. auto.
Qed.

Lemma legend_fold_sound gs U :
  NoDup U ->
  (forall key, In key U -> In key (map fst genreColors)) ->
  NoDup (fold_left legend_step gs U) /\
  forall key, In key (fold_left legend_step gs U) ->
    In key (map fst genreColors) /\
    (In key U \/ exists g, In g gs /\ includes (toLowerCase (trim g)) key = true).
Proof.
  revert U. induction gs as [|g gs IH]; intros U Hnd Hk; simpl.
  - split; [exact Hnd|]. intros key H. split; [now apply Hk|now left].
  - destruct (legend_step_cases U g) as [(E & _)|(k & E & Hin & Hinc & Hnot)]; rewrite E.
    + destruct (IH U Hnd Hk) as (H1 & H2). split; [exact H1|].
      intros key H. destruct (H2 key H) as (A & [B|(g' & B1 & B2)]).
      * split; [exact A|now left].
      * split; [exact A|]. right. exists g'. split; [now right|exact B2].
    + assert (Hnd' : NoDup (U ++ [k])).
      { apply NoDup_app; [exact Hnd|repeat constructor; intros []|].
        intros x Hx [<-|[]]. contradiction. }
      assert (Hk' : forall key, In key (U ++ [k]) -> In key (map fst genreColors)).
      { intros key H. apply in_app_or in H. destruct H as [H|[<-|[]]]; auto. }
      destruct (IH (U ++ [k]) Hnd' Hk') as (H1 & H2). split; [exact H1|].
      intros key H. destruct (H2 key H) as (A & [B|(g' & B1 & B2)]).
      * split; [exact A|]. apply in_app_or in B. destruct B as [B|[<-|[]]].
        -- now left.
        -- right. exists g. split; [now left|exact Hinc].
      * split; [exact A|]. right. exists g'. split; [now right|exact B2].
Qed.

Lemma legend_fold_count g gs U :
  (Nat.min (List.length (filter (array_includes U) (matching g)) +
            count_occ (list_eq_dec N.eq_dec) gs g)
           (List.length (matching g)) <=
   List.length (filter (array_includes (fold_left legend_step gs U)) (matching g)))%nat.
Proof.
  revert U. induction gs as [|g0 gs IH]; intro U.
  - simpl. pose proof (List.filter_length_le (array_includes U) (matching g)). lia.
  - cbn [fold_left count_occ]. specialize (IH (legend_step U g0)).
    assert (Hmono : (List.length (filter (array_includes U) (matching g)) <=
                     List.length (filter (array_includes (legend_step U g0)) (matching g)))%nat).
    { apply filter_length_mono. intros x _ Hx. apply array_includes_In.
      apply legend_step_incl. now apply array_includes_In. }
    destruct (list_eq_dec N.eq_dec g0 g) as [->|Hne]; [|lia].
    destruct (legend_step_cases U g) as [(E & Hall)|(k & E & Hin & Hinc & Hnot)].
    + assert (Hfull : filter (array_includes U) (matching g) = matching g).
      { apply filter_all. intros x Hx. apply array_includes_In.
        unfold VizSpecs.matching in Hx. apply filter_In in Hx. destruct Hx. now apply Hall. }
      rewrite E in *. rewrite Hfull in *. lia.
    + assert (Hlt : (List.length (filter (array_includes U) (matching g)) <
                     List.length (filter (array_includes (legend_step U g)) (matching g)))%nat).
      { apply (filter_length_lt _ _ _ k).
        - intros x _ Hx. apply array_includes_In.
          apply legend_step_incl. now apply array_includes_In.
        - unfold VizSpecs.matching. apply filter_In. split; assumption.
        - destruct (array_includes U k) eqn:Ek; [|reflexivity].
          apply array_includes_In in Ek. contradiction.
        - apply array_includes_In. rewrite E. apply in_or_app. right. now left. }
      lia.
Qed.

End Legend.

(** X20. The legend covers the plot: the colour [getColor] gives a
    filtered song is the default grey, which the legend always lists,
    or the colour of a key that [createGenreLegend] has put into
    [usedGenres]. *)
Theorem legend_covers_plot (trim toLowerCase : jsstring -> jsstring) songs s :
  In s songs ->
  getColor trim toLowerCase (genres s) = defaultColor \/
  exists key, In key (usedGenres trim toLowerCase songs) /\
              color_of key = Some (getColor trim toLowerCase (genres s)).
Proof.
  intro Hs. destruct (genres s) as [gs|] eqn:Eg; [|now left].
  rewrite getColor_loop_eq.
  destruct (getColor_loop_cases trim toLowerCase gs)
    as [(Hd & _)|(before & g & after & key & Hgs & _ & Hg)]; [now left|right].
  exists key. split.
  - rewrite usedGenres_visited.
    apply (legend_fold_first trim toLowerCase (visited songs) [] g key
             (getColor_loop trim toLowerCase gs)); [|exact Hg].
    apply visited_In. exists s, gs. split; [exact Hs|]. split; [exact Eg|].
    rewrite Hgs. apply in_or_app. right. now left.
  - apply color_of_entry. now apply (first_entry_inv trim toLowerCase g).
Qed.

Lemma legend_covers_plot_witness :
  let s := mkSong 0 (lit "t") (lit "a") None (Some [lit "indie pop"]) in
  In s [s] /\
  (getColor (fun x => x) (fun x => x) (genres s) = defaultColor \/
   exists key, In key (usedGenres (fun x => x) (fun x => x) [s]) /\
               color_of key = Some (getColor (fun x => x) (fun x => x) (genres s))).
Proof.
  intro s. split; [now left|].
  apply (legend_covers_plot (fun x => x) (fun x => x) [s] s). now left.
Defined.

(** X21. The legend lists no key twice, only keys of the palette,
    and only keys that some genre of some filtered song, trimmed and
    lowered, includes. *)
Theorem legend_entries_sound (trim toLowerCase : jsstring -> jsstring) songs :
  NoDup (usedGenres trim toLowerCase songs) /\
  forall key, In key (usedGenres trim toLowerCase songs) ->
    In key (map fst genreColors) /\
    exists s gs g, In s songs /\ genres s = Some gs /\ In g gs /\
                   includes (toLowerCase (trim g)) key = true.
Proof.
  rewrite usedGenres_visited.
  destruct (legend_fold_sound trim toLowerCase (visited songs) [] (NoDup_nil _))
    as (H1 & H2); [intros key []|].
  split; [exact H1|]. intros key H. destruct (H2 key H) as (A & [[]|(g & B1 & B2)]).
  split; [exact A|]. apply visited_In in B1. destruct B1 as (s & gs & Hs & Eg & Hg).
  exists s, gs, g. auto.
Qed.

(** X22. The legend can list more than the plot shows: every visit of
    a genre string adds the first key it includes that is not yet
    listed, so once the filtered songs mention a genre string as often
    as the palette has keys it includes, all these keys are listed,
    the ones [getColor] never uses among them. *)
Theorem legend_lists_every_included_key (trim toLowerCase : jsstring -> jsstring)
  songs g key :
  (List.length (matching trim toLowerCase g) <=
   count_occ (list_eq_dec N.eq_dec) (visited songs) g)%nat ->
  In key (map fst genreColors) ->
  includes (toLowerCase (trim g)) key = true ->
  In key (usedGenres trim toLowerCase songs).
Proof.
  intros Hcount Hkey Hinc. rewrite usedGenres_visited.
  pose proof (legend_fold_count trim toLowerCase g (visited songs) []) as H.
  apply array_includes_In.
  apply (filter_length_all _ (matching trim toLowerCase g)); [lia|].
  unfold matching. apply filter_In. split; assumption.
Qed.

Lemma legend_lists_every_included_key_witness :
  let s := mkSong 0 (lit "t") (lit "a") None (Some [lit "trap"]) in
  In (lit "trap") (usedGenres (fun x => x) (fun x => x) [s; s]) /\
  color_of (lit "trap") <> Some (getColor (fun x => x) (fun x => x) (genres s)).
Proof.
  intro s. split.
  - apply (legend_lists_every_included_key (fun x => x) (fun x => x) [s; s]
             (lit "trap") (lit "trap")).
    + vm_compute. lia.
    + vm_compute. tauto.
    + vm_compute. reflexivity.
  - vm_compute. intro H. discriminate H.
Defined.

Section Filters.

Variable originalSongs : list song.

Lemma include_all_nil : include_all [] = true.
Proof. reflexivity. Qed.

Lemma filterData_as_filter selectedGenres selectedArtists :
  filterData originalSongs selectedGenres selectedArtists =
  filter (song_matches selectedGenres selectedArtists) originalSongs.
Proof.
  unfold filterData.
  destruct (include_all selectedGenres) eqn:G, (include_all selectedArtists) eqn:A;
    simpl; try reflexivity.
  symmetry. apply filter_all. intros s _. unfold song_matches. now rewrite G, A.
Qed.

End Filters.

Lemma filter_filter {A} (p q : A -> bool) l :
  filter q (filter p l) = filter (fun x => p x && q x) l.
Proof.
  induction l as [|a l IH]; simpl; [reflexivity|].
  destruct (p a); simpl; [|exact IH]. destruct (q a); now rewrite IH.
Qed.

(** X23. The two filters of [filterData] compose: filtering by the
    selected genres and by the selected artists at once gives what
    filtering by genre alone and then, on the result, by artist alone
    gives, and the same in the other order; the result keeps the songs
    in their original order. *)
Theorem filterData_composes originalSongs selectedGenres selectedArtists :
  filterData originalSongs selectedGenres selectedArtists =
    filterData (filterData originalSongs selectedGenres []) [] selectedArtists /\
  filterData originalSongs selectedGenres selectedArtists =
    filterData (filterData originalSongs [] selectedArtists) selectedGenres [] /\
  exists keep, filterData originalSongs selectedGenres selectedArtists =
               filter keep originalSongs.
Proof.
  rewrite !filterData_as_filter, !filter_filter. split; [|split].
  - apply filter_ext. intro s. unfold song_matches. rewrite include_all_nil.
    destruct (include_all selectedGenres), (include_all selectedArtists);
      simpl; rewrite ?andb_true_r; reflexivity.
  - apply filter_ext. intro s. unfold song_matches. rewrite include_all_nil.
    destruct (include_all selectedGenres), (include_all selectedArtists);
      simpl; rewrite ?andb_true_r; try reflexivity; apply andb_comm.
  - eauto.
Qed.

(** X24. Selecting 'all' next to other values is the same as
    selecting nothing, and both lift the filter; for a selection that
    is not empty, selecting more genres never removes a song. *)
Theorem filterData_selection originalSongs selectedGenres moreGenres selectedArtists :
  (array_includes selectedGenres (lit "all") = true ->
   filterData originalSongs selectedGenres selectedArtists =
   filterData originalSongs [] selectedArtists) /\
  (selectedGenres <> [] -> incl selectedGenres moreGenres ->
   incl (filterData originalSongs selectedGenres selectedArtists)
        (filterData originalSongs moreGenres selectedArtists)).
Proof.
  rewrite !filterData_as_filter. split.
  - intro Hall. apply filter_ext. intro s. unfold song_matches, include_all.
    rewrite Hall. reflexivity.
  - intros Hne Hincl s Hs. apply filter_In in Hs. destruct Hs as (Hin & Hm).
    apply filter_In. split; [exact Hin|].
    unfold song_matches in *. apply andb_true_iff in Hm. destruct Hm as (Hg & Ha).
    rewrite Ha, andb_true_r.
    destruct (include_all moreGenres) eqn:Emore; [reflexivity|].
    assert (Eg : include_all selectedGenres = false).
    { unfold include_all in *. apply orb_false_iff in Emore. destruct Emore as (E1 & _).
      apply orb_false_iff. split.
      - destruct (array_includes selectedGenres (lit "all")) eqn:E; [|reflexivity].
        apply array_includes_In in E. apply Hincl in E.
        apply array_includes_In in E. congruence.
      - destruct selectedGenres; [contradiction|reflexivity]. }
    rewrite Eg in Hg. destruct (genres s) as [gs|]; [|discriminate].
    apply existsb_exists in Hg. destruct Hg as (g & Hgin & Hgsel).
    apply existsb_exists. exists g. split; [exact Hgin|].
    apply array_includes_In. apply Hincl. now apply array_includes_In.
Qed.

Lemma filterData_selection_witness :
  let s := mkSong 0 (lit "t") (lit "a") (Some (lit "a")) (Some [lit "pop"]) in
  [lit "rock"] <> [] /\ incl [lit "rock"] [lit "rock"; lit "pop"] /\
  incl (filterData [s] [lit "rock"] []) (filterData [s] [lit "rock"; lit "pop"] []).
Proof.
  intro s.
  assert (H1 : [lit "rock"] <> []) by discriminate.
  assert (H2 : incl [lit "rock"] [lit "rock"; lit "pop"]).
  { intros x [<-|[]]. now left. }
  split; [exact H1|]. split; [exact H2|].
  exact (proj2 (filterData_selection [s] [lit "rock"] [lit "rock"; lit "pop"] []) H1 H2).
Defined.

End VizLegend.

(* ================================================================== *)
(** * The page script: plotted points and neuron rankings              *)
(* ================================================================== *)

Module VizPlot.

Import Tensor Viz VizSpecs Specs TensorFacts.
Import String.
Local Open Scope string_scope.
Local Open Scope list_scope.
Local Open Scope Qc_scope.

Lemma map_indexed_nth_error {A B} (f : nat -> A -> B) start l i :
  nth_error (map_indexed f start l) i = option_map (f (start + i)%nat) (nth_error l i).
Proof.
  revert start i. induction l as [|a l IH]; intros start [|i]; simpl; try reflexivity.
  - now rewrite Nat.add_0_r.
  - rewrite IH. now rewrite Nat.add_succ_r.
Qed.

Lemma map_indexed_length {A B} (f : nat -> A -> B) start l :
  List.length (map_indexed f start l) = List.length l.
Proof.
  revert start. induction l as [|a l IH]; intro start; simpl; [reflexivity|].
  now rewrite IH.
Qed.

Lemma drop_null_In {A} (l : list (option A)) p :
  In p (drop_null l) <-> In (Some p) l.
Proof.
  induction l as [|[a|] l IH]; simpl.
  - tauto.
  - rewrite IH. split; intros [H|H]; auto; left; congruence.
  - rewrite IH. split; [auto|]. intros [H|H]; [discriminate|exact H].
Qed.

Lemma mapM_id {A} (l : list (option A)) r :
  mapM (fun o => o) l = Some r -> l = map Some r.
Proof.
  revert r. induction l as [|[a|] l IH]; simpl; intros r H.
  - now inversion H.
  - destruct (mapM (fun o => o) l) as [r'|]; [|discriminate].
    inversion H. simpl. now rewrite (IH r' eq_refl).
  - discriminate.
Qed.

Lemma mapM_id_none {A} (l : list (option A)) :
  mapM (fun o => o) l = None <-> In None l.
Proof.
  induction l as [|[a|] l IH]; simpl.
  - split; [discriminate|tauto].
  - destruct (mapM (fun o => o) l) as [r|].
    + split; [discriminate|]. intros [H|H]; [discriminate|].
      apply IH in H. discriminate.
    + split; [|reflexivity]. intros _. right. now apply IH.
  - split; [now left|reflexivity].
Qed.

Section Plot.

Variable trim : jsstring -> jsstring.
Variable toLowerCase : jsstring -> jsstring.
Variable data : visualization_data.
Variable currentNeuron : Z.
Variable activationThreshold : Qc.

Local Abbreviation plot_item :=
  (plot_item trim toLowerCase data currentNeuron activationThreshold).
Local Abbreviation createVisualization :=
  (fun songs => createVisualization trim toLowerCase data songs currentNeuron
                                    activationThreshold).

Lemma plot_item_inv idx s p :
  plot_item idx s = Some (Some p) ->
  songIndex p = idx /\ embeddings data (id s) = Some (px p, py p) /\
  text p = point_text s /\
  ((exists sd row, (0 <= currentNeuron)%Z /\ sae data = Some sd /\
      nth_error (activations sd) (id s) = Some row /\
      activation p = nth_error row (Z.to_nat currentNeuron) /\
      pmarker p = neuron_marker activationThreshold (activation p)) \/
   (((currentNeuron < 0)%Z \/ sae data = None) /\
    pmarker p = genre_marker trim toLowerCase s /\ activation p = Some 0)).
Proof.
  unfold Viz.plot_item. destruct (embeddings data (id s)) as [[x y]|]; [|discriminate].
  destruct (Z.leb_spec 0 currentNeuron) as [Hn|Hn].
  - destruct (sae data) as [sd|] eqn:Es.
    + destruct (nth_error (activations sd) (id s)) as [row|] eqn:Er; [|discriminate].
      intro E. inversion E; subst p; cbn. repeat (split; [reflexivity|]).
      left. exists sd, row. auto.
    + intro E. inversion E; subst p; cbn. repeat (split; [reflexivity|]).
      right. auto.
  - intro E. inversion E; subst p; cbn. repeat (split; [reflexivity|]).
    right. split; [left; lia|auto].
Qed.

Lemma plot_item_null idx s :
  plot_item idx s = Some None <-> has_embedding data s = false.
Proof.
  unfold Viz.plot_item, has_embedding.
  destruct (embeddings data (id s)) as [[x y]|].
  - split; [|discriminate].
    destruct (if (0 <=? currentNeuron)%Z then sae data else None) as [sd|].
    + destruct (nth_error (activations sd) (id s)); discriminate.
    + discriminate.
  - split; reflexivity.
Qed.

Lemma plot_item_throws idx s :
  plot_item idx s = None <-> row_missing data currentNeuron s = true.
Proof.
  unfold Viz.plot_item, row_missing, has_embedding.
  destruct (embeddings data (id s)) as [[x y]|]; simpl.
  - destruct (if (0 <=? currentNeuron)%Z then sae data else None) as [sd|].
    + destruct (nth_error (activations sd) (id s)); split; congruence.
    + split; discriminate.
  - split; discriminate.
Qed.

Lemma items_In songs start o :
  In o (map_indexed plot_item start songs) ->
  exists i s, nth_error songs i = Some s /\ plot_item (start + i)%nat s = o.
Proof.
  intro H. apply In_nth_error in H. destruct H as (i & Hi).
  rewrite map_indexed_nth_error in Hi.
  destruct (nth_error songs i) as [s|] eqn:Es; [|discriminate].
  exists i, s. split; [exact Es|]. simpl in Hi. congruence.
Qed.

Lemma items_of songs start i s :
  nth_error songs i = Some s ->
  In (plot_item (start + i)%nat s) (map_indexed plot_item start songs).
Proof.
  intro Hs. apply (nth_error_In _ i). rewrite map_indexed_nth_error, Hs. reflexivity.
Qed.

Lemma createVisualization_scatter songs pts :
  createVisualization songs = Scatter pts ->
  songs <> [] /\ pts <> [] /\
  exists items, map_indexed plot_item 0 songs = map Some items /\
                pts = drop_null items.
Proof.
  unfold Viz.createVisualization. destruct songs as [|s0 songs]; [discriminate|].
  destruct (mapM (fun o => o) (map_indexed _ 0 (s0 :: songs))) as [items|] eqn:E;
    [|discriminate].
  destruct (drop_null items) as [|p ps] eqn:Ed; [discriminate|].
  intro H. inversion H; subst pts. split; [discriminate|]. split; [discriminate|].
  exists items. split; [now apply mapM_id|now rewrite Ed].
Qed.

End Plot.

(** X25. Every point of the plot carries the position of its own song
    in [filteredSongs], also when songs without an embedding have been
    dropped before it, so that a click on the point opens the right
    song; its coordinates are the song's embedding and its hover text
    the song's title and primary artist.  Every filtered song that has
    an embedding has its point. *)
Theorem plot_points_index_their_song (trim toLowerCase : jsstring -> jsstring)
  data songs currentNeuron activationThreshold pts :
  createVisualization trim toLowerCase data songs currentNeuron activationThreshold
    = Scatter pts ->
  pts <> [] /\
  (forall p, In p pts ->
     exists s, nth_error songs (songIndex p) = Some s /\
               embeddings data (id s) = Some (px p, py p) /\
               text p = point_text s) /\
  (forall i s, nth_error songs i = Some s -> has_embedding data s = true ->
     exists p, In p pts /\ songIndex p = i).
Proof.
  intro H. apply createVisualization_scatter in H.
  destruct H as (_ & Hne & items & Hitems & ->). split; [exact Hne|]. split.
  - intros p Hp. apply drop_null_In in Hp.
    assert (Hin : In (Some (Some p))
                     (map_indexed (plot_item trim toLowerCase data currentNeuron
                                             activationThreshold) 0 songs)).
    { rewrite Hitems. now apply in_map. }
    apply items_In in Hin. destruct Hin as (i & s & Hs & Hi). simpl in Hi.
    apply plot_item_inv in Hi. destruct Hi as (Hidx & Hemb & Htext & _).
    exists s. rewrite Hidx. auto.
  - intros i s Hs Hemb.
    pose proof (items_of trim toLowerCase data currentNeuron activationThreshold
                         songs 0 i s Hs) as Hin.
    rewrite Hitems in Hin. simpl in Hin. apply in_map_iff in Hin.
    destruct Hin as (o & Ho & Hin). destruct o as [p|].
    + exists p. split; [now apply drop_null_In|].
      symmetry in Ho. apply plot_item_inv in Ho. tauto.
    + symmetry in Ho. apply plot_item_null in Ho. congruence.
Qed.

Lemma plot_points_index_their_song_witness :
  let s0 := mkSong 0 (lit "a") (lit "x") None None in
  let s1 := mkSong 1 (lit "b") (lit "y") None None in
  let data := mkData [s0; s1]
                     (fun i => if (i =? 1)%nat then Some (qc 1 1, qc 2 1) else None) None in
  exists pts,
    createVisualization (fun x => x) (fun x => x) data [s0; s1] (-1) (qc 2 10)
      = Scatter pts /\
    forall p, In p pts ->
      exists s, nth_error [s0; s1] (songIndex p) = Some s /\
                embeddings data (id s) = Some (px p, py p) /\
                text p = point_text s.
Proof.
  intros s0 s1 data. eexists. split; [reflexivity|].
  exact (proj1 (proj2 (plot_points_index_their_song (fun x => x) (fun x => x) data
                         [s0; s1] (-1) (qc 2 10) _ eq_refl))).
Defined.

(** X26. [createVisualization] shows the error message exactly when
    there are filtered songs and either none of them has an embedding,
    or a neuron is selected and one that has an embedding has no row
    of activations; it shows the message for an empty selection
    exactly when there is no filtered song. *)
Theorem createVisualization_messages (trim toLowerCase : jsstring -> jsstring)
  data songs currentNeuron activationThreshold :
  (createVisualization trim toLowerCase data songs currentNeuron activationThreshold
     = NoSongsMessage <-> songs = []) /\
  (createVisualization trim toLowerCase data songs currentNeuron activationThreshold
     = ErrorMessage <->
   songs <> [] /\
   ((forall s, In s songs -> has_embedding data s = false) \/
    (exists s, In s songs /\ row_missing data currentNeuron s = true))).
Proof.
  unfold createVisualization. destruct songs as [|s0 songs].
  { split; [tauto|]. split; [discriminate|]. intros (H & _). congruence. }
  set (all := s0 :: songs).
  set (f := plot_item trim toLowerCase data currentNeuron activationThreshold).
  destruct (mapM (fun o => o) (map_indexed f 0 all)) as [items|] eqn:E.
  - pose proof (mapM_id _ _ E) as Hitems.
    assert (Hno : forall s, In s all -> row_missing data currentNeuron s = false).
    { intros s Hs. destruct (row_missing data currentNeuron s) eqn:Er; [|reflexivity].
      exfalso. apply In_nth_error in Hs. destruct Hs as (i & Hi).
      pose proof (items_of trim toLowerCase data currentNeuron activationThreshold
                           all 0 i s Hi) as Hin.
      fold f in Hin. rewrite Hitems in Hin. apply in_map_iff in Hin.
      destruct Hin as (o & Ho & _). simpl in Ho.
      apply (plot_item_throws trim toLowerCase data currentNeuron activationThreshold i)
        in Er. unfold f in Ho. congruence. }
    destruct (drop_null items) as [|p ps] eqn:Ed.
    + split; [split; discriminate|]. split; [|reflexivity].
      intros _. split; [discriminate|]. left. intros s Hs.
      destruct (has_embedding data s) eqn:He; [|reflexivity]. exfalso.
      apply In_nth_error in Hs. destruct Hs as (i & Hi).
      pose proof (items_of trim toLowerCase data currentNeuron activationThreshold
                           all 0 i s Hi) as Hin.
      fold f in Hin. rewrite Hitems in Hin. apply in_map_iff in Hin.
      destruct Hin as (o & Ho & Hin). simpl in Ho. destruct o as [q|].
      * apply drop_null_In in Hin. rewrite Ed in Hin. destruct Hin.
      * symmetry in Ho. apply plot_item_null in Ho. congruence.
    + split; [split; discriminate|]. split; [discriminate|].
      intros (_ & [Hall|(s & Hs & Hr)]).
      * exfalso. assert (Hp : In p (drop_null items)) by (rewrite Ed; now left).
        apply drop_null_In in Hp.
        assert (Hin : In (Some (Some p)) (map_indexed f 0 all))
          by (rewrite Hitems; now apply in_map).
        apply items_In in Hin. destruct Hin as (i & s & Hs & Hi).
        apply plot_item_inv in Hi. destruct Hi as (_ & Hemb & _).
        specialize (Hall s (nth_error_In _ _ Hs)). unfold has_embedding in Hall.
        rewrite Hemb in Hall. discriminate.
      * rewrite (Hno s Hs) in Hr. discriminate.
  - split; [split; discriminate|]. split; [|reflexivity].
    intros _. split; [discriminate|]. right.
    apply mapM_id_none in E. apply items_In in E. destruct E as (i & s & Hs & Hi).
    exists s. split; [exact (nth_error_In _ _ Hs)|].
    now apply (plot_item_throws trim toLowerCase data currentNeuron activationThreshold
                                (0 + i)).
Qed.





End VizPlot.

(* ================================================================== *)
(** * The page script: the top songs of a neuron                       *)
(* ================================================================== *)

Module VizRanking.

Import Tensor SAE Viz VizSpecs Specs TensorFacts Activations.
Local Open Scope list_scope.
Local Open Scope Qc_scope.

Lemma firstn_min {A} k (l : list A) : firstn k l = firstn (Nat.min k (length l)) l.
Proof.
  destruct (Nat.le_gt_cases k (length l)) as [H|H].
  - now rewrite Nat.min_l.
  - rewrite Nat.min_r by lia. rewrite firstn_all. apply firstn_all2. lia.
Qed.

Lemma firstn_In {A} k (l : list A) x : In x (firstn k l) -> In x l.
Proof.
  intro H. rewrite <- (firstn_skipn k l). apply in_or_app. now left.
Qed.

Lemma sort_desc_length l : length (sort_desc l) = length l.
Proof. apply Permutation_length, sort_desc_perm. Qed.

Lemma sort_desc_In v p : In p (sort_desc (enumerate v)) <-> In p (enumerate v).
Proof.
  split; apply Permutation_in; [|symmetry]; apply sort_desc_perm.
Qed.

Section Tops.

Variable data : visualization_data.

Local Abbreviation top_of := (top_song_of data).

Lemma tops_of_pairs pairs tops :
  mapM top_of pairs = Some tops ->
  map index tops = map snd pairs /\ map top_activation tops = map fst pairs /\
  Forall (fun t => exists s, nth_error (songs data) (index t) = Some s /\
                             top_title t = title s /\ top_artist t = artist s) tops.
Proof.
  revert tops. induction pairs as [|p pairs IH]; simpl; intros tops H.
  - inversion H. simpl. auto.
  - unfold top_song_of in H at 1. destruct (nth_error (songs data) (snd p)) as [s|] eqn:Es;
      [|discriminate].
    destruct (mapM top_of pairs) as [r|]; [|discriminate].
    inversion H; subst tops. destruct (IH r eq_refl) as (A & B & C). simpl.
    rewrite A, B. repeat split; try reflexivity. constructor; [|exact C].
    exists s. simpl. auto.
Qed.

Lemma tops_of_pairs_defined pairs :
  Forall (fun p => (snd p < length (songs data))%nat) pairs ->
  exists tops, mapM top_of pairs = Some tops.
Proof.
  intro H. apply ActivationsMore.mapM_defined_iff.
  eapply Forall_impl; [|exact H]. intros p Hp. unfold top_song_of.
  destruct (nth_error (songs data) (snd p)) as [s|] eqn:Es; [eauto|].
  apply nth_error_None in Es. cbn beta in Hp. lia.
Qed.

Lemma neuron_top_songs_inv sd j tops :
  neuron_top_songs data sd j = Some tops ->
  exists col, column j (activations sd) = Some col /\
              mapM top_of (firstn 10 (sort_desc (enumerate col))) = Some tops.
Proof.
  unfold neuron_top_songs. fold (column j (activations sd)).
  destruct (column j (activations sd)) as [col|]; [|discriminate].
  intro H. exists col. split; [reflexivity|exact H].
Qed.

Lemma sorted_firstn {A} (R : A -> A -> Prop) k l :
  StronglySorted R l -> StronglySorted R (firstn k l).
Proof.
  intro H. rewrite <- (firstn_skipn k l) in H. now apply StronglySorted_app_l in H.
Qed.

Lemma sorted_tops pairs tops :
  StronglySorted ge_val pairs -> map top_activation tops = map fst pairs ->
  StronglySorted by_activation tops.
Proof.
  intro H. revert tops. induction H as [|p pairs Hs IH Hall]; intros [|t tops] E;
    simpl in E; try discriminate; constructor.
  - apply IH. now inversion E.
  - inversion E as [[E1 E2]]. rewrite Forall_forall in *. intros t' Ht'.
    assert (Hin : In (top_activation t') (map fst pairs)).
    { rewrite <- E2. now apply in_map. }
    apply in_map_iff in Hin. destruct Hin as (q & Eq & Hq).
    specialize (Hall q Hq). unfold ge_val in Hall. unfold by_activation.
    now rewrite E1, <- Eq.
Qed.

Lemma neuron_top_songs_sorted sd j tops :
  neuron_top_songs data sd j = Some tops -> StronglySorted by_activation tops.
Proof.
  intro H. apply neuron_top_songs_inv in H. destruct H as (col & _ & H).
  apply tops_of_pairs in H. destruct H as (_ & H & _).
  eapply sorted_tops; [|exact H]. apply sorted_firstn, sort_desc_sorted.
Qed.

Lemma neuron_top_songs_topk sd j n :
  Forall (fun row => length row = n) (activations sd) -> (j < n)%nat ->
  (length (activations sd) <= length (songs data))%nat ->
  exists tops vals idx,
    neuron_top_songs data sd j = Some tops /\
    topk (Z.of_nat (Nat.min 10 (length (activations sd))))
         (map (fun row => nth j row 0) (activations sd)) = Some (vals, idx) /\
    map index tops = idx /\ map top_activation tops = vals /\
    Forall (fun t => exists s, nth_error (songs data) (index t) = Some s /\
                               top_title t = title s /\ top_artist t = artist s) tops.
Proof.
  intros Hall Hj Hsongs. unfold neuron_top_songs.
  fold (column j (activations sd)). rewrite (column_defined _ n j Hall Hj).
  set (col := map (fun row => nth j row 0) (activations sd)).
  assert (Lc : length col = length (activations sd)) by apply length_map.
  set (pairs := firstn 10 (sort_desc (enumerate col))).
  destruct (tops_of_pairs_defined pairs) as (tops & Ht).
  { apply Forall_forall. intros [x i] Hp. unfold pairs in Hp.
    apply firstn_In, sort_desc_In, enumerate_In in Hp.
    assert (i < length col)%nat by (apply nth_error_Some; congruence).
    simpl. lia. }
  exists tops, (map fst pairs), (map snd pairs).
  destruct (tops_of_pairs pairs tops Ht) as (A & B & C).
  split; [exact Ht|]. split; [|auto].
  unfold topk. rewrite Lc.
  destruct (Z.ltb_spec (Z.of_nat (Nat.min 10 (length (activations sd)))) 0); [lia|].
  destruct (Z.ltb_spec (Z.of_nat (length (activations sd)))
                       (Z.of_nat (Nat.min 10 (length (activations sd))))); [lia|].
  simpl. rewrite Nat2Z.id. unfold pairs.
  rewrite (firstn_min 10), sort_desc_length, enumerate_length, Lc. reflexivity.
Qed.

End Tops.

(** X28. When every row of activations has an entry for every neuron
    and every row belongs to a song, [prepareAllNeuronSongs] stores
    for each neuron the [min(10, number of rows)] songs of largest
    activation: distinct song indices, each with its own activation,
    title and artist, in order of decreasing activation, and no song
    left out has a larger activation than a listed one. *)
Theorem prepareAllNeuronSongs_top_ten data sd :
  sae data = Some sd ->
  Forall (fun row => length row = length (neurons sd)) (activations sd) ->
  (length (activations sd) <= length (songs data))%nat ->
  exists allNeuronSongs,
    prepareAllNeuronSongs data = Some (Some allNeuronSongs) /\
    length allNeuronSongs = length (neurons sd) /\
    forall j, (j < length (neurons sd))%nat ->
      let tops := nth j allNeuronSongs [] in
      let act := fun i => nth j (nth i (activations sd) []) 0 in
      length tops = Nat.min 10 (length (activations sd)) /\
      NoDup (map index tops) /\
      Forall (fun t => (index t < length (activations sd))%nat /\
                       top_activation t = act (index t) /\
                       exists s, nth_error (songs data) (index t) = Some s /\
                                 top_title t = title s /\ top_artist t = artist s) tops /\
      StronglySorted by_activation tops /\
      (forall p t, (p < length (activations sd))%nat -> ~ In p (map index tops) ->
                   In t tops -> act p <= top_activation t).
Proof.
  intros Hsae Hall Hsongs. unfold prepareAllNeuronSongs. rewrite Hsae.
  destruct (mapM (neuron_top_songs data sd) (seq 0 (length (neurons sd))))
    as [all|] eqn:E.
  - exists all. split; [reflexivity|].
    split; [rewrite (mapM_length _ _ _ E); apply length_seq|].
    intros j Hj. cbv zeta. set (tops := nth j all []).
    set (act := fun i : nat => nth j (nth i (activations sd) []) 0).
    assert (Hjs : (j < length (seq 0 (length (neurons sd))))%nat) by now rewrite length_seq.
    pose proof (mapM_nth_d _ _ _ j 0%nat ([] : list top_song) E Hjs) as Ej.
    rewrite seq_nth in Ej by exact Hj. simpl in Ej. fold tops in Ej.
    destruct (neuron_top_songs_topk data sd j _ Hall Hj Hsongs)
      as (tops' & vals & idx & Et & Ek & Hi & Hv & Hs).
    assert (tops' = tops) by congruence. subst tops'.
    apply topk_spec in Ek. destruct Ek as [K1 K2 K3 K4 K5 K6 K7 _].
    rewrite Nat2Z.id in K1. rewrite length_map in K4, K6.
    assert (Hact : forall i, (i < length (activations sd))%nat ->
              nth i (map (fun row => nth j row 0) (activations sd)) 0 =
              nth j (nth i (activations sd) []) 0).
    { intros i Hlt.
      apply (nth_map_lt (fun row => nth j row 0) (activations sd) i [] 0 Hlt). }
    subst act. cbv beta.
    split; [rewrite <- K1, <- Hi; now rewrite length_map|].
    split; [now rewrite Hi|]. split; [|split].
    + rewrite Forall_forall in *. intros t Ht.
      assert (Hin : In (index t) idx) by (rewrite <- Hi; now apply in_map).
      pose proof (K4 _ Hin) as Hlt. split; [exact Hlt|]. split; [|now apply Hs].
      rewrite <- (Hact _ Hlt).
      assert (Hpair : In (top_activation t, index t) (combine vals idx)).
      { rewrite <- Hv, <- Hi. clear - Ht. induction tops as [|t0 tops IH]; [destruct Ht|].
        simpl. destruct Ht as [->|Ht]; [now left|right; now apply IH]. }
      rewrite K5 in Hpair. clear - Hpair.
      induction idx as [|i idx IH]; simpl in Hpair; [destruct Hpair|].
      destruct Hpair as [E|H]; [now inversion E|now apply IH].
    + exact (neuron_top_songs_sorted data sd j tops Et).
    + intros p t Hp Hnp Ht.
      assert (Hin : In (index t) idx) by (rewrite <- Hi; now apply in_map).
      rewrite Hi in Hnp. pose proof (K6 p (index t) Hp Hnp Hin) as Hle.
      rewrite Forall_forall in K4. rewrite (Hact p Hp), (Hact _ (K4 _ Hin)) in Hle.
      assert (Hpair : In (top_activation t, index t) (combine vals idx)).
      { rewrite <- Hv, <- Hi. clear - Ht. induction tops as [|t0 tops IH]; [destruct Ht|].
        simpl. destruct Ht as [->|Ht]; [now left|right; now apply IH]. }
      assert (Eact : top_activation t =
                     nth (index t) (map (fun row => nth j row 0) (activations sd)) 0).
      { rewrite K5 in Hpair. clear - Hpair.
        induction idx as [|i idx IH]; simpl in Hpair; [destruct Hpair|].
        destruct Hpair as [E|H]; [now inversion E|now apply IH]. }
      rewrite Eact, (Hact _ (K4 _ Hin)). exact Hle.
  - exfalso.
    assert (D : exists r, mapM (neuron_top_songs data sd) (seq 0 (length (neurons sd))) = Some r).
    { apply ActivationsMore.mapM_defined_iff. apply Forall_forall. intros j Hj.
      apply in_seq in Hj.
      destruct (neuron_top_songs_topk data sd j _ Hall ltac:(lia) Hsongs)
        as (tops & _ & _ & Et & _). eauto. }
    destruct D as (r & D). congruence.
Qed.

Lemma prepareAllNeuronSongs_top_ten_witness :
  let s0 := mkSong 0 [97%N] [120%N] None None in
  let s1 := mkSong 1 [98%N] [121%N] None None in
  let sd := mkSaeData [[]] [[qc 1 2]; [qc 3 4]] in
  let data := mkData [s0; s1] (fun _ => None) (Some sd) in
  sae data = Some sd /\
  Forall (fun row => length row = length (neurons sd)) (activations sd) /\
  (length (activations sd) <= length (songs data))%nat /\
  exists allNeuronSongs,
    prepareAllNeuronSongs data = Some (Some allNeuronSongs) /\
    length allNeuronSongs = 1%nat.
Proof.
  intros s0 s1 sd data.
  assert (H : Forall (fun row => length row = length (neurons sd)) (activations sd))
    by (repeat constructor).
  split; [reflexivity|]. split; [exact H|]. split; [simpl; lia|].
  destruct (prepareAllNeuronSongs_top_ten data sd eq_refl H ltac:(simpl; lia))
    as (all & E & L & _).
  exists all. split; [exact E|exact L].
Defined.



Lemma sorted_snoc {A} (R : A -> A -> Prop) l a :
  StronglySorted R l -> Forall (fun x => R x a) l -> StronglySorted R (l ++ [a]).
Proof.
  induction 1 as [|b l Hs IH Hall]; intro F; simpl.
  - repeat constructor.
  - inversion F; subst. constructor; [now apply IH|].
    apply Forall_app. split; [exact Hall|]. now repeat constructor.
Qed.

Lemma sorted_rev {A} (R : A -> A -> Prop) l :
  StronglySorted R l -> StronglySorted (fun a b => R b a) (rev l).
Proof.
  induction 1 as [|a l Hs IH Hall]; simpl; [constructor|].
  apply sorted_snoc; [exact IH|].
  rewrite Forall_forall in *. intros x Hx. apply Hall. now apply in_rev.
Qed.

Lemma sorted_perm_unique {A} (R : A -> A -> Prop) l1 l2 :
  StronglySorted R l1 -> StronglySorted R l2 -> Permutation l1 l2 ->
  (forall a b, In a l1 -> In b l1 -> R a b -> R b a -> a = b) ->
  l1 = l2.
Proof.
  revert l2. induction l1 as [|a l1 IH]; intros l2 S1 S2 P Hanti.
  - apply Permutation_nil in P. now subst.
  - destruct l2 as [|b l2]; [symmetry in P; apply Permutation_nil in P; discriminate|].
    inversion S1 as [|? ? S1' F1]; subst. inversion S2 as [|? ? S2' F2]; subst.
    rewrite Forall_forall in F1, F2.
    assert (Hab : a = b).
    { assert (Ha : In a (b :: l2)) by (eapply Permutation_in; [exact P|now left]).
      assert (Hb : In b (a :: l1))
        by (eapply Permutation_in; [symmetry; exact P|now left]).
      destruct Ha as [Ha|Ha]; [now symmetry|]. destruct Hb as [Hb|Hb]; [exact Hb|].
      apply Hanti; [now left|now right|now apply F1|now apply F2]. }
    subst b. f_equal. apply IH; try assumption.
    + now apply Permutation_cons_inv in P.
    + intros x y Hx Hy. apply Hanti; now right.
Qed.

Lemma rev_sort_asc_desc (v : vec) :
  NoDup v -> rev (fold_right insert_asc [] (enumerate v)) = sort_desc (enumerate v).
Proof.
  intro Hnd. apply (sorted_perm_unique ge_val).
  - apply (sorted_rev le_val). apply sort_asc_sorted.
  - apply sort_desc_sorted.
  - rewrite <- Permutation_rev. rewrite sort_asc_perm. symmetry. apply sort_desc_perm.
  - intros [x i] [y i'] Ha Hb H1 H2. unfold ge_val in *. simpl in *.
    assert (x = y) by (apply Qcle_antisym; assumption). subst y.
    apply in_rev in Ha. apply in_rev in Hb.
    apply (Permutation_in _ (sort_asc_perm _)), enumerate_In in Ha.
    apply (Permutation_in _ (sort_asc_perm _)), enumerate_In in Hb.
    f_equal. apply (proj1 (NoDup_nth_error v) Hnd).
    + apply nth_error_Some. congruence.
    + congruence.
Qed.

(** X30. On a neuron on which no two songs have the same activation,
    the ranking the page computes agrees with the one
    [get_topk_activations] computes for a module with [k = 10]: the
    same song indices in the same order, with the same values. *)
Theorem page_ranking_agrees_with_get_topk m data sd j :
  k m = 10%Z ->
  Forall (fun row => length row = n_dirs m) (activations sd) -> (j < n_dirs m)%nat ->
  (length (activations sd) <= length (songs data))%nat ->
  NoDup (map (fun row => nth j row 0) (activations sd)) ->
  exists tops,
    neuron_top_songs data sd j = Some tops /\
    neuron_ranking m (activations sd) j = Some (map index tops, map top_activation tops).
Proof.
  intros Hk Hall Hj Hsongs Hnd.
  destruct (neuron_top_songs_topk data sd j _ Hall Hj Hsongs)
    as (tops & _ & _ & Et & _).
  exists tops. split; [exact Et|].
  destruct (neuron_top_songs_inv data sd j tops Et) as (col & Ec & Hm).
  rewrite (column_defined _ _ j Hall Hj) in Ec.
  assert (Ecol : col = map (fun row => nth j row 0) (activations sd)) by congruence.
  clear Ec. destruct (tops_of_pairs data _ _ Hm) as (Hi & Hv & _).
  unfold neuron_ranking. rewrite (column_defined _ _ j Hall Hj), <- Ecol, Hk.
  rewrite <- Ecol in Hnd. clear Ecol.
  assert (Hidx : rev (slice_last (Z.min 10 (Z.of_nat (length col))) (argsort col)) =
                 map snd (firstn 10 (sort_desc (enumerate col)))).
  { unfold slice_last.
    destruct (Z.ltb_spec 0 (Z.min 10 (Z.of_nat (length col)))) as [Hpos|Hzero].
    - rewrite argsort_length. unfold argsort. rewrite skipn_map, <- map_rev. f_equal.
      pose proof (Permutation_length (sort_asc_perm (enumerate col))) as La.
      rewrite enumerate_length in La.
      replace (length col - Z.to_nat (Z.min 10 (Z.of_nat (length col))))%nat
        with (length (fold_right insert_asc [] (enumerate col)) -
              Nat.min 10 (length col))%nat by lia.
      rewrite <- firstn_rev, (rev_sort_asc_desc col Hnd).
      rewrite (firstn_min 10 (sort_desc _)), sort_desc_length, enumerate_length.
      reflexivity.
    - assert (E0 : col = []) by (apply length_zero_iff_nil; lia).
      rewrite E0. reflexivity. }
  cbv zeta. rewrite Hidx, Hi. f_equal. f_equal. rewrite Hv.
  symmetry. apply pairs_fst_snd. intros p Hp.
  apply firstn_In in Hp. now apply sort_desc_In.
Qed.

Lemma page_ranking_agrees_with_get_topk_witness :
  let s0 := mkSong 0 [97%N] [120%N] None None in
  let sd := mkSaeData [[]] [[qc 1 2]; [qc 3 4]] in
  let data := mkData [s0; s0] (fun _ => None) (Some sd) in
  let m := mkSAE 1 1 10 None None 0 [[1]] [[1]] [0] [0] [0%Z] in
  exists tops,
    neuron_top_songs data sd 0 = Some tops /\
    neuron_ranking m (activations sd) 0 = Some (map index tops, map top_activation tops).
Proof.
  intros s0 sd data m.
  apply (page_ranking_agrees_with_get_topk m data sd 0).
  - reflexivity.
  - repeat constructor.
  - simpl. lia.
  - simpl. lia.
  - simpl. repeat constructor; simpl; try tauto.
    intros [H|[]]. discriminate H.
Defined.

End VizRanking.
